(** * iter-utils: a model of the lazy iterator pipeline and its properties

    The development embeds [src/iter-utils/iter-utils.ts].  JavaScript
    values are an inductive type, pull iterators live in a store of cells
    addressed by references (so that two holders of one iterator see each
    other's pulls), and every library function is a computation over that
    store which either returns, throws, or runs out of fuel. *)

From stdpp Require Import base list strings numbers pretty.

#[local] Set Warnings "-register-all".

Module IterUtils.

(** ** Values *)

Abbreviation ref := nat (only parsing).

(** Numbers are the integers the library counts with; they stand for the
    numbers of the code as long as these are integers a double holds
    exactly, up to [2^53] in absolute value.  An array, a plain object and a
    [Map] are identified with their contents: the library never writes to a
    container it was given.  A plain object is the list of its own data
    properties in enumeration order, with the prototype every object
    literal has; an object with another prototype is no value of the
    model. *)
Inductive value : Type :=
| VUndefined
| VNull
| VBool (b : bool)
| VNum (n : Z)
| VStr (s : string)
| VArr (xs : list value)
| VObj (props : list (string * value))
| VMap (entries : list (value * value))
| VIter (r : ref).

Definition value_eq_dec : forall x y : value, {x = y} + {x <> y}.
Proof.
  fix IH 1.
  decide equality.
  - apply bool_eq_dec.
  - apply Z.eq_dec.
  - apply String.string_dec.
  - apply (List.list_eq_dec IH).
  - apply List.list_eq_dec. decide equality. apply String.string_dec.
  - apply List.list_eq_dec. decide equality.
  - apply Nat.eq_dec.
Defined.

(** Key equality of a [Map] and of a [Set] (SameValueZero).  On primitives
    it is equality of the values and on iterators identity, as here.  The
    code compares arrays, plain objects and Maps by identity, which their
    contents do not give: what is stated about the keys of a [Map] or the
    members of a [Set] is stated for primitive ones. *)
Definition same_value_zero (x y : value) : bool :=
  if value_eq_dec x y then true else false.

(** The result of one [next()] call: [Some v] is [{done: false, value: v}],
    [None] is [{done: true}]. *)
Definition step := option value.

Definition done (nextItem : step) : bool :=
  match nextItem with None => true | Some _ => false end.

Definition value_of (nextItem : step) : value := default VUndefined nextItem.

(** ** Iterator frames

    A cell of the store holds where an iterator stands.  [Native rest] is a
    built-in iterator (of an array, a string, a [Map]) with the items still
    to come.  [Stream f k] is an iterator object built by the caller: its
    [k]-th call of [next] answers [f k].  A generator object is either not
    started (a [...Start] frame holding the arguments of the generator
    function), suspended at a [yield] (a frame holding the live locals), or
    [Closed]. *)
Inductive gen : Type :=
| Native (rest : list value)
| Stream (f : nat -> option value) (k : nat)
| Closed
| IterateStart (itrFn : value -> value) (initialValue : value)
| IterateYield (itrFn : value -> value) (i : value)
| TakeStart (numItemsToTake : Z) (o : value)
| TakeYield (numItemsToTake : Z) (i : Z) (itr_ : ref)
| DropWhileStart (predFn : value -> bool) (itr : value)
| DropWhileLoop (predFn : value -> bool) (itr_ : ref) (dropEnded : bool)
| MapStart (mapFn : value -> value) (itr : value)
| MapLoop (mapFn : value -> value) (itr_ : ref)
| TapStart (itr : value)
| TapLoop (itr_ : ref)
| FilterStart (predFn : value -> bool) (itr : value)
| FilterLoop (predFn : value -> bool) (itr_ : ref)
| RemoveStart (predFn : value -> bool) (itr : value)
| RemoveLoop (predFn : value -> bool) (itr_ : ref)
| ZipStart (iterators : list value)
| ZipLoop (iters : list ref)
| InterleaveLoop (iterators : list value) (pending : list value)
| FlattenStart (itr : value)
| FlattenLoop (itr_ : ref)
| FlattenDeleg (itr_ : ref) (inner : ref)
| InterposeStart (separator : value) (itr : value)
| InterposeLoop (separator : value) (itr_ : ref) (first : bool)
| InterposePending (separator : value) (itr_ : ref) (it : value).

(** ** The store

    [pulls] counts the [next()] calls an iterator has received; it is
    bookkeeping of the model and no library function reads it.  [trace]
    records the calls made to the callback of [tap]. *)
Record cell := Cell { frame : gen; pulls : nat }.

Record store := Store { cells : list cell; trace : list value }.

Definition empty_store : store := Store [] [].

Definition set_frame (r : ref) (g : gen) (σ : store) : store :=
  Store (alter (fun c => Cell g (pulls c)) r (cells σ)) (trace σ).

Definition bump (r : ref) (σ : store) : store :=
  Store (alter (fun c => Cell (frame c) (S (pulls c))) r (cells σ)) (trace σ).

Definition log (v : value) (σ : store) : store :=
  Store (cells σ) (trace σ ++ [v]).


(** ** Computations *)

Inductive error := TypeError.

(** [OutOfFuel] stands for a run that needs more steps than it was given;
    [Unmodelled] for behaviour of the host that the model leaves out. *)
Inductive res (A : Type) : Type :=
| Ok (a : A)
| Throw (e : error)
| OutOfFuel
| Unmodelled.
Arguments Ok {A} a.
Arguments Throw {A} e.
Arguments OutOfFuel {A}.
Arguments Unmodelled {A}.

Definition Eff (A : Type) : Type := store -> res (A * store).

Definition ret {A} (a : A) : Eff A := fun σ => Ok (a, σ).

Definition throw {A} (e : error) : Eff A := fun _ => Throw e.

Definition bind {A B} (m : Eff A) (k : A -> Eff B) : Eff B :=
  fun σ =>
    match m σ with
    | Ok (a, σ') => k a σ'
    | Throw e => Throw e
    | OutOfFuel => OutOfFuel
    | Unmodelled => Unmodelled
    end.

Notation "'let*' x ':=' m 'in' k" := (bind m (fun x => k))
  (at level 10, x pattern, m at level 100, k at level 200).

Definition lift {A} (a : res A) : Eff A :=
  fun σ =>
    match a with
    | Ok x => Ok (x, σ)
    | Throw e => Throw e
    | OutOfFuel => OutOfFuel
    | Unmodelled => Unmodelled
    end.

Definition modify (f : store -> store) : Eff unit := fun σ => Ok (tt, f σ).

Fixpoint mapM {A B} (f : A -> Eff B) (l : list A) : Eff (list B) :=
  match l with
  | [] => ret []
  | a :: l' => let* b := f a in let* bs := mapM f l' in ret (b :: bs)
  end.

Definition alloc (g : gen) : Eff ref :=
  fun σ => Ok (length (cells σ), Store (cells σ ++ [Cell g 0]) (trace σ)).

(** ** Host operations the library relies on *)

Definition chars (s : string) : list value :=
  (fun c => VStr (String c EmptyString)) <$> String.list_ascii_of_string s.

Definition entry (k v : value) : value := VArr [k; v].

(** [typeof o["next"] === "function"]: reading a property of [undefined]
    or [null] throws. *)
Definition typeof_next_is_function (o : value) : res bool :=
  match o with
  | VUndefined | VNull => Throw TypeError
  | VIter _ => Ok true
  | _ => Ok false
  end.

(** The items [o[Symbol.iterator]()] would walk, for the built-in iterables
    that are not iterators themselves. *)
Definition native_items (o : value) : option (list value) :=
  match o with
  | VArr xs => Some xs
  | VStr s => Some (chars s)
  | VMap es => Some ((fun e => entry (fst e) (snd e)) <$> es)
  | _ => None
  end.

Definition index_entries (xs : list value) : list value :=
  imap (fun i x => entry (VStr (pretty i)) x) xs.

(** [Object.entries(o)] for a value other than [undefined] and [null]. *)
Definition object_entries (o : value) : list value :=
  match o with
  | VObj props => (fun p => entry (VStr (fst p)) (snd p)) <$> props
  | VArr xs => index_entries xs
  | VStr s => index_entries (chars s)
  | _ => []
  end.

(** ** [iter] (lines 22-38) *)
Definition iter (iterable : value) : Eff ref :=
  match iterable with
  | VUndefined => alloc (Native [])
  | _ =>
    let* is_iterator := lift (typeof_next_is_function iterable) in
    if is_iterator : bool then
      match iterable with VIter r => ret r | _ => throw TypeError end
    else
      match native_items iterable with
      | Some xs => alloc (Native xs)
      | None => alloc (Native (object_entries iterable))
      end
  end.

(** [GetIterator] of a [for...of] over a value that did not go through
    [iter]: an iterator is its own iterable, anything without
    [Symbol.iterator] is a [TypeError]. *)
Definition get_iterator (o : value) : Eff ref :=
  match o with
  | VIter r => ret r
  | _ => match native_items o with
         | Some xs => alloc (Native xs)
         | None => throw TypeError
         end
  end.

(** [isArrayOrIter] (lines 524-526). *)
Definition isArrayOrIter (o : value) : res bool :=
  match o with
  | VArr _ => Ok true
  | _ => typeof_next_is_function o
  end.

(** ** Generator bodies

    [resume r] runs the generator behind [r] up to its next [yield] with
    the fuel that is left; [self] is the generator being run. *)
Section Generators.
Variable resume : ref -> Eff step.
Variable self : ref.

Definition next (r : ref) : Eff step := fun σ => resume r (bump r σ).

Definition finish : Eff step :=
  fun σ => Ok (None, set_frame self Closed σ).

Definition yield (v : value) (g : gen) : Eff step :=
  fun σ => Ok (Some v, set_frame self g σ).

Definition goto (g : gen) : Eff step :=
  fun σ => resume self (set_frame self g σ).

(** [take] (lines 114-123), entered at the loop test with counter [i]. *)
Definition take_loop (numItemsToTake i : Z) (itr_ : ref) : Eff step :=
  if (i <? numItemsToTake)%Z then
    let* nx := next itr_ in
    match nx with
    | None => finish
    | Some v => yield v (TakeYield numItemsToTake i itr_)
    end
  else finish.

(** One round of [zip] (lines 434-440). *)
Definition zip_round (iters : list ref) : Eff step :=
  let* nextItems := mapM next iters in
  if existsb done nextItems
  then finish
  else yield (VArr (value_of <$> nextItems)) (ZipLoop iters).

(** One round of [interleave] (lines 447-458): every round normalizes
    each argument again before pulling it. *)
Definition interleave_round (iterators : list value) : Eff step :=
  let* nextItems :=
    mapM (fun itr => let* itr_ := iter itr in next itr_) iterators in
  if existsb done nextItems
  then finish
  else goto (InterleaveLoop iterators (value_of <$> nextItems)).

Definition resume_frame (g : gen) : Eff step :=
  match g with
  | Native [] => ret None
  | Native (x :: rest) => yield x (Native rest)
  | Stream f k => fun σ => Ok (f k, set_frame self (Stream f (S k)) σ)
  | Closed => ret None
  (* iterate, lines 100-102 *)
  | IterateStart itrFn i => yield i (IterateYield itrFn i)
  | IterateYield itrFn i => yield (itrFn i) (IterateYield itrFn (itrFn i))
  (* take *)
  | TakeStart n o => let* itr_ := iter o in take_loop n 0 itr_
  | TakeYield n i itr_ => take_loop n (i + 1) itr_
  (* dropWhile, lines 149-159 *)
  | DropWhileStart predFn itr =>
    let* itr_ := iter itr in goto (DropWhileLoop predFn itr_ false)
  | DropWhileLoop predFn itr_ dropEnded =>
    let* nx := next itr_ in
    match nx with
    | None => finish
    | Some it =>
      if negb (predFn it) || dropEnded
      then yield it (DropWhileLoop predFn itr_ true)
      else goto (DropWhileLoop predFn itr_ dropEnded)
    end
  (* map, lines 215-221 *)
  | MapStart mapFn itr => let* itr_ := iter itr in goto (MapLoop mapFn itr_)
  | MapLoop mapFn itr_ =>
    let* nx := next itr_ in
    match nx with
    | None => finish
    | Some it => yield (mapFn it) (MapLoop mapFn itr_)
    end
  (* tap, lines 227-234 *)
  | TapStart itr => let* itr_ := iter itr in goto (TapLoop itr_)
  | TapLoop itr_ =>
    let* nx := next itr_ in
    match nx with
    | None => finish
    | Some it => let* _ := modify (log it) in yield it (TapLoop itr_)
    end
  (* filter, lines 245-253 *)
  | FilterStart predFn itr =>
    let* itr_ := iter itr in goto (FilterLoop predFn itr_)
  | FilterLoop predFn itr_ =>
    let* nx := next itr_ in
    match nx with
    | None => finish
    | Some it =>
      if predFn it then yield it (FilterLoop predFn itr_)
      else goto (FilterLoop predFn itr_)
    end
  (* remove, lines 264-272 *)
  | RemoveStart predFn itr =>
    let* itr_ := iter itr in goto (RemoveLoop predFn itr_)
  | RemoveLoop predFn itr_ =>
    let* nx := next itr_ in
    match nx with
    | None => finish
    | Some it =>
      if negb (predFn it) then yield it (RemoveLoop predFn itr_)
      else goto (RemoveLoop predFn itr_)
    end
  (* zip, lines 432-441 *)
  | ZipStart iterators => let* iters := mapM iter iterators in zip_round iters
  | ZipLoop iters => zip_round iters
  (* interleave, lines 446-459 *)
  | InterleaveLoop iterators [] => interleave_round iterators
  | InterleaveLoop iterators (v :: pending) =>
    yield v (InterleaveLoop iterators pending)
  (* the generator [f] of flatten, lines 534-542 *)
  | FlattenStart itr =>
    let* itr_ := get_iterator itr in goto (FlattenLoop itr_)
  | FlattenLoop itr_ =>
    let* nx := next itr_ in
    match nx with
    | None => finish
    | Some it =>
      let* nested := lift (isArrayOrIter it) in
      if nested : bool then
        let* sub := iter it in
        let* inner := alloc (FlattenStart (VIter sub)) in
        goto (FlattenDeleg itr_ inner)
      else yield it (FlattenLoop itr_)
    end
  | FlattenDeleg itr_ inner =>
    let* nx := next inner in
    match nx with
    | None => goto (FlattenLoop itr_)
    | Some v => yield v (FlattenDeleg itr_ inner)
    end
  (* interpose, lines 558-571 *)
  | InterposeStart separator itr =>
    let* itr_ := iter itr in goto (InterposeLoop separator itr_ true)
  | InterposeLoop separator itr_ first =>
    let* nx := next itr_ in
    match nx with
    | None => finish
    | Some it =>
      if first then yield it (InterposeLoop separator itr_ false)
      else yield separator (InterposePending separator itr_ it)
    end
  | InterposePending separator itr_ it =>
    yield it (InterposeLoop separator itr_ false)
  end.
End Generators.

Fixpoint run (fuel : nat) (r : ref) (σ : store) : res (step * store) :=
  match fuel with
  | 0 => OutOfFuel
  | S fuel' =>
    match cells σ !! r with
    | None => Throw TypeError
    | Some c => resume_frame (run fuel') r (frame c) σ
    end
  end.

(** [r.next()] with the given fuel. *)
Definition pull (fuel : nat) (r : ref) : Eff step := next (run fuel) r.

(** ** Closing an iterator

    Leaving a [for...of] early calls [return()] on its iterator when it has
    one.  Built-in iterators have none; a generator completes, and a
    [for...of] or [yield*] it is suspended in closes its own iterator
    first. *)
Section Closing.
Variable close_rec : ref -> Eff unit.
Variable self : ref.

Definition complete : Eff unit := modify (set_frame self Closed).

Definition close_frame (g : gen) : Eff unit :=
  match g with
  | Native _ | Stream _ _ | Closed => ret tt
  | DropWhileLoop _ itr_ _ | MapLoop _ itr_ | TapLoop itr_
  | FilterLoop _ itr_ | RemoveLoop _ itr_ | FlattenLoop itr_
  | InterposeLoop _ itr_ _ | InterposePending _ itr_ _ =>
    let* _ := close_rec itr_ in complete
  | FlattenDeleg itr_ inner =>
    let* _ := close_rec inner in let* _ := close_rec itr_ in complete
  | _ => complete
  end.
End Closing.

Fixpoint close (fuel : nat) (r : ref) (σ : store) : res (unit * store) :=
  match fuel with
  | 0 => OutOfFuel
  | S fuel' =>
    match cells σ !! r with
    | None => Throw TypeError
    | Some c => close_frame (close fuel') r (frame c) σ
    end
  end.

(** ** Sources and operators *)

Definition Operator := value -> Eff value.

(** Calling a generator function makes a generator object and runs none of
    its body. *)
Definition generator (g : gen) : Eff value :=
  let* r := alloc g in ret (VIter r).

(** [pipe] (lines 51-64); [pipe_f] is its inner function [f]. *)
Fixpoint pipe_f (itr : value) (txs : list Operator) : Eff value :=
  match txs with
  | [] => throw TypeError
  | first :: rest =>
    match rest with
    | [] => first itr
    | _ :: _ => let* x := pipe_f itr rest in first x
    end
  end.

Definition pipe (iterable : value) (operators : list Operator) : Eff value :=
  let* itr := iter iterable in pipe_f (VIter itr) (rev operators).

Definition iterate (itrFn : value -> value) (initialValue : value) : Eff value :=
  generator (IterateStart itrFn initialValue).

Definition take (numItemsToTake : Z) : Operator :=
  fun o => generator (TakeStart numItemsToTake o).

(** [drop] (lines 129-141) is a plain function: its loop runs when the
    operator is applied. *)
Fixpoint drop_loop (fuel : nat) (numItemsToDrop i : Z) (itr_ : ref) : Eff unit :=
  match fuel with
  | 0 => fun _ => OutOfFuel
  | S fuel' =>
    if (i <? numItemsToDrop)%Z then
      let* nx := pull fuel' itr_ in
      if done nx then ret tt
      else drop_loop fuel' numItemsToDrop (i + 1) itr_
    else ret tt
  end.

Definition drop (fuel : nat) (numItemsToDrop : Z) : Operator :=
  fun o =>
    let* itr_ := iter o in
    let* _ := drop_loop fuel numItemsToDrop 0 itr_ in
    ret (VIter itr_).

Definition dropWhile (predFn : value -> bool) : Operator :=
  fun itr => generator (DropWhileStart predFn itr).

Definition map (mapFn : value -> value) : Operator :=
  fun itr => generator (MapStart mapFn itr).

Definition tap : Operator :=
  fun itr => generator (TapStart itr).

Definition filter (predFn : value -> bool) : Operator :=
  fun itr => generator (FilterStart predFn itr).

Definition remove (predFn : value -> bool) : Operator :=
  fun itr => generator (RemoveStart predFn itr).

Definition interpose (separator : value) : Operator :=
  fun itr => generator (InterposeStart separator itr).

Definition zip (iterators : list value) : Eff value :=
  generator (ZipStart iterators).

Definition interleave (iterators : list value) : Eff value :=
  generator (InterleaveLoop iterators []).

Definition flatten (itr : value) : Eff value :=
  generator (FlattenStart itr).

Definition cycle (itr : value) : Eff value :=
  let* laps := iterate (fun _ => itr) itr in flatten laps.

(** ** Terminal operators *)

(** [first] (lines 181-190): leaving the loop by [return] closes the
    iterator. *)
Definition first (fuel : nat) (itr : value) : Eff value :=
  let* itr_ := iter itr in
  let* nx := pull fuel itr_ in
  match nx with
  | Some it => let* _ := close fuel itr_ in ret it
  | None => ret VUndefined
  end.

Definition second (fuel : nat) (itr : value) : Eff value :=
  let* rest := drop fuel 1 itr in first fuel rest.

(** [reduce] (lines 281-296). *)
Fixpoint reduce_loop {U} (fuel : nat) (reducerFn : value -> U -> Eff U)
    (acc : U) (itr_ : ref) : Eff U :=
  match fuel with
  | 0 => fun _ => OutOfFuel
  | S fuel' =>
    let* nx := pull fuel' itr_ in
    match nx with
    | None => ret acc
    | Some it =>
      let* acc' := reducerFn it acc in reduce_loop fuel' reducerFn acc' itr_
    end
  end.

Definition reduce {U} (fuel : nat) (reducerFn : value -> U -> Eff U)
    (initialValue : U) (itr : value) : Eff U :=
  let* itr_ := iter itr in reduce_loop fuel reducerFn initialValue itr_.




(** ** Materializers *)

(** [Array.from] over an iterator. *)
Fixpoint drain (fuel : nat) (itr_ : ref) : Eff (list value) :=
  match fuel with
  | 0 => fun _ => OutOfFuel
  | S fuel' =>
    let* nx := pull fuel' itr_ in
    match nx with
    | None => ret []
    | Some v => let* vs := drain fuel' itr_ in ret (v :: vs)
    end
  end.

Definition intoArray (fuel : nat) : Operator :=
  fun itr => let* itr_ := iter itr in let* xs := drain fuel itr_ in ret (VArr xs).

(** [m.set(k, v)]: an existing key keeps its place, a new one goes last. *)
Fixpoint map_set (k v : value) (m : list (value * value)) : list (value * value) :=
  match m with
  | [] => [(k, v)]
  | (k', v') :: m' =>
    if same_value_zero k' k then (k', v) :: m' else (k', v') :: map_set k v m'
  end.

Fixpoint map_get (k : value) (m : list (value * value)) : option value :=
  match m with
  | [] => None
  | (k', v') :: m' => if same_value_zero k' k then Some v' else map_get k m'
  end.

(** The own data properties of a plain object, in the order they enumerate:
    the array indices in ascending order first, the other names after them
    in the order of their creation.  [obj_get] reads the property [key]. *)
Fixpoint obj_get (key : string) (obj : list (string * value)) : option value :=
  match obj with
  | [] => None
  | (key', v') :: obj' => if String.eqb key' key then Some v' else obj_get key obj'
  end.

(** The array index a property name spells: the decimal digits, without a
    leading zero, of an integer below [2^32 - 1]. *)
Definition digit_of (c : Ascii.ascii) : option N :=
  let n := Ascii.N_of_ascii c in
  if ((48 <=? n) && (n <=? 57))%N then Some (n - 48)%N else None.

Fixpoint digits_value (s : string) (acc : N) : option N :=
  match s with
  | EmptyString => Some acc
  | String c s' =>
    match digit_of c with
    | Some d => digits_value s' (10 * acc + d)%N
    | None => None
    end
  end.

Definition array_index (name : string) : option N :=
  match digits_value name 0 with
  | Some n =>
    if String.eqb (pretty n) name && (n <? 2 ^ 32 - 1)%N then Some n else None
  | None => None
  end.

(** [own_set] writes the own data property [key]: an existing one keeps its
    place, a new array index goes before the first greater index or other
    name, any other new name goes last.  The assignment [obj[k] = v] of
    [intoObj] is [obj_assign] below. *)
Fixpoint own_replace (key : string) (v : value) (obj : list (string * value))
    : list (string * value) :=
  match obj with
  | [] => []
  | (key', v') :: obj' =>
    if String.eqb key' key then (key', v) :: obj'
    else (key', v') :: own_replace key v obj'
  end.

Fixpoint own_insert (n : N) (key : string) (v : value)
    (obj : list (string * value)) : list (string * value) :=
  match obj with
  | [] => [(key, v)]
  | (key', v') :: obj' =>
    match array_index key' with
    | Some n' =>
      if (n' <? n)%N then (key', v') :: own_insert n key v obj'
      else (key, v) :: obj
    | None => (key, v) :: obj
    end
  end.

Definition own_set (key : string) (v : value) (obj : list (string * value))
    : list (string * value) :=
  match obj_get key obj with
  | Some _ => own_replace key v obj
  | None =>
    match array_index key with
    | Some n => own_insert n key v obj
    | None => obj ++ [(key, v)]
    end
  end.

(** What [new Map(iterable)] reads from one item: a primitive is not an
    entry object. *)
Definition entry_parts (item : value) : res (value * value) :=
  match item with
  | VArr xs => Ok (nth 0 xs VUndefined, nth 1 xs VUndefined)
  | VObj props =>
    Ok (default VUndefined (obj_get "0" props),
        default VUndefined (obj_get "1" props))
  | VMap _ | VIter _ => Ok (VUndefined, VUndefined)
  | _ => Throw TypeError
  end.

Fixpoint map_fill (fuel : nat) (m : list (value * value)) (itr_ : ref)
    : Eff (list (value * value)) :=
  match fuel with
  | 0 => fun _ => OutOfFuel
  | S fuel' =>
    let* nx := pull fuel' itr_ in
    match nx with
    | None => ret m
    | Some item =>
      let* kv := lift (entry_parts item) in
      map_fill fuel' (map_set (fst kv) (snd kv) m) itr_
    end
  end.

(** [intoMap] (lines 465-468). *)
Definition intoMap (fuel : nat) : Operator :=
  fun itr =>
    let* itr_ := iter itr in
    let* m := map_fill fuel [] itr_ in
    ret (VMap m).

(** The array pattern [[k, v]] of the reducer of [intoObj]: the item is
    walked as an iterable, and an iterator that was not exhausted by the
    two reads is closed. *)
Definition destructure_pair (fuel : nat) (item : value) : Eff (value * value) :=
  match item with
  | VIter r =>
    let* nx1 := pull fuel r in
    match nx1 with
    | None => ret (VUndefined, VUndefined)
    | Some k =>
      let* nx2 := pull fuel r in
      match nx2 with
      | None => ret (k, VUndefined)
      | Some v => let* _ := close fuel r in ret (k, v)
      end
    end
  | _ =>
    match native_items item with
    | Some xs => ret (nth 0 xs VUndefined, nth 1 xs VUndefined)
    | None => throw TypeError
    end
  end.

(** The property key [obj[k]] uses, for the primitive keys.  A number is
    named by its decimal digits as long as it is an integer a double holds
    exactly, up to [2^53] in absolute value; beyond, the host rounds and,
    from [1e21] on, writes an exponent, which is not modelled. *)
Definition to_property_key (k : value) : res string :=
  match k with
  | VStr s => Ok s
  | VNum n => if (Z.abs n <=? 2 ^ 53)%Z then Ok (pretty n) else Unmodelled
  | VBool b => Ok (if b then "true" else "false")
  | VUndefined => Ok "undefined"
  | VNull => Ok "null"
  | _ => Unmodelled
  end.

(** [obj[k] = v] on the object [intoObj] fills, which starts as [{}]: its
    own data properties, and a flag.  The name ["__proto__"] is no data
    property of such an object: the assignment runs the setter inherited
    from [Object.prototype], which creates no property; it ignores a [v]
    that is neither an object nor [null], and replaces the prototype
    otherwise.  An object whose prototype was replaced, or that was written
    under a key whose name [to_property_key] does not give, is more than its
    dictionary of own properties: the flag is raised and stays.  The
    assignment itself runs no code of the caller, so the walk over the
    source goes on either way. *)
Definition obj_assign (k v : value) (obj : list (string * value) * bool)
    : list (string * value) * bool :=
  match to_property_key k with
  | Ok name =>
    if String.eqb name "__proto__" then
      match v with
      | VUndefined | VBool _ | VNum _ | VStr _ => obj
      | _ => (fst obj, true)
      end
    else (own_set name v (fst obj), snd obj)
  | _ => (fst obj, true)
  end.

(** [intoObj] (lines 474-486).  An object with the flag of [obj_assign]
    raised has no value of the model. *)
Definition intoObj (fuel : nat) : Operator :=
  fun itr =>
    let* itr_ := iter itr in
    pipe (VIter itr_)
      [fun o =>
         let* obj :=
           reduce fuel
             (fun item obj =>
                let* kv := destructure_pair fuel item in
                ret (obj_assign (fst kv) (snd kv) obj))
             ([], false) o in
         if snd obj then lift Unmodelled else ret (VObj (fst obj))].

(** ** Helpers and the remaining operators *)

(** [inc] (line 5): [i !== undefined ? i + 1 : 1], with [+] as the host
    evaluates it on primitives. *)
Definition inc (i : value) : res value :=
  match i with
  | VUndefined => Ok (VNum 1)
  | VNum n => Ok (VNum (n + 1))
  | VNull => Ok (VNum 1)
  | VBool b => Ok (VNum (if b then 2 else 1))
  | VStr s => Ok (VStr (s ++ "1"))
  | _ => Unmodelled
  end.

(** [mutateMapEntry] (lines 11-17): [m.get(k)] is [undefined] for a key
    that is not there. *)
Definition mutateMapEntry (m : list (value * value)) (k : value)
    (updateFn : value -> res value) : res (list (value * value)) :=
  match updateFn (default VUndefined (map_get k m)) with
  | Ok v => Ok (map_set k v m)
  | Throw e => Throw e
  | OutOfFuel => OutOfFuel
  | Unmodelled => Unmodelled
  end.

(** [m.entries()]: an iterator over the [[key, value]] arrays. *)
Definition map_entries (m : list (value * value)) : list value :=
  (fun e => entry (fst e) (snd e)) <$> m.

(** [range] (lines 168-176); the callback [i => i + step] only meets the
    numbers that start from [start].  Numbers are integers here and the sum
    is the exact one, which is the sum of the code as long as [step] and
    the numbers produced are integers a double holds exactly, up to [2^53]
    in absolute value. *)
Definition range (numElements start step : Z) : Eff value :=
  let* naturals :=
    iterate (fun i => match i with VNum n => VNum (n + step) | _ => i end)
      (VNum start) in
  take numElements naturals.

(** [ffirst] (lines 195-197). *)
Definition ffirst (fuel : nat) (itr : value) : Eff value :=
  let* x := first fuel itr in first fuel x.

(** [groupBy] (lines 335-352); [[...acc.get(k), v]] spreads the array the
    reducer stored before. *)
Definition groupBy (fuel : nat) (groupKeyFn : value -> value) : Operator :=
  fun itr =>
    let* itr_ := iter itr in
    let* acc :=
      reduce fuel
        (fun v acc =>
           let k := groupKeyFn v in
           match map_get k acc with
           | Some old =>
             match old with
             | VArr items => ret (map_set k (VArr (items ++ [v])) acc)
             | _ => lift Unmodelled
             end
           | None => ret (map_set k (VArr [v]) acc)
           end)
        [] (VIter itr_) in
    let* r := alloc (Native (map_entries acc)) in
    ret (VIter r).

(** [frequencies] (lines 359-371). *)
Fixpoint frequencies_loop (fuel : nat) (result : list (value * value))
    (itr_ : ref) : Eff (list (value * value)) :=
  match fuel with
  | 0 => fun _ => OutOfFuel
  | S fuel' =>
    let* nx := pull fuel' itr_ in
    match nx with
    | None => ret result
    | Some it =>
      let* result' := lift (mutateMapEntry result it inc) in
      frequencies_loop fuel' result' itr_
    end
  end.

Definition frequencies (fuel : nat) : Operator :=
  fun itr =>
    let* itr_ := iter itr in
    let* result := frequencies_loop fuel [] itr_ in
    let* r := alloc (Native (map_entries result)) in
    ret (VIter r).

(** [intoSet] (lines 500-503).  A [Set] is the list of its elements in
    insertion order; [s.add(x)] leaves a set that has [x] as it is. *)
Definition set_add (x : value) (s : list value) : list value :=
  if existsb (same_value_zero x) s then s else s ++ [x].

Fixpoint set_fill (fuel : nat) (s : list value) (itr_ : ref)
    : Eff (list value) :=
  match fuel with
  | 0 => fun _ => OutOfFuel
  | S fuel' =>
    let* nx := pull fuel' itr_ in
    match nx with
    | None => ret s
    | Some x => set_fill fuel' (set_add x s) itr_
    end
  end.

Definition intoSet (fuel : nat) (itr : value) : Eff (list value) :=
  let* itr_ := iter itr in set_fill fuel [] itr_.

(** [repeat] (lines 517-522). *)
Definition repeat (val : value) (numRepeats : Z) : Eff value :=
  let* counter := range numRepeats 0 1 in
  pipe counter [map (fun _ => val)].

(** [numCompare] (line 376), on numbers. *)
Definition numCompare (a b : value) : res Z :=
  match a, b with
  | VNum x, VNum y => Ok (x - y)%Z
  | _, _ => Unmodelled
  end.

(** [defaultCompare] (lines 386-392); [strCompare] goes through
    [localeCompare], which the model leaves to the host. *)
Definition defaultCompare (a b : value) : res Z :=
  match a with
  | VNum _ => numCompare a b
  | _ => Unmodelled
  end.

(** [arr.sort(compareFn)].  The host sorts by the sign of [compareFn],
    keeps the order of items that compare equal, and puts [undefined]
    items last without comparing them.  With a consistent comparator that
    determines the result, which is computed here by insertion; with
    another comparator the host may answer differently. *)
Fixpoint sort_insert (compareFn : value -> value -> res Z) (x : value)
    (l : list value) : res (list value) :=
  match l with
  | [] => Ok [x]
  | y :: l' =>
    match compareFn x y with
    | Ok d =>
      if (d <=? 0)%Z then Ok (x :: l)
      else
        match sort_insert compareFn x l' with
        | Ok r => Ok (y :: r)
        | e => e
        end
    | Throw e => Throw e
    | OutOfFuel => OutOfFuel
    | Unmodelled => Unmodelled
    end
  end.

Fixpoint sort_defined (compareFn : value -> value -> res Z) (l : list value)
    : res (list value) :=
  match l with
  | [] => Ok []
  | x :: l' =>
    match sort_defined compareFn l' with
    | Ok r => sort_insert compareFn x r
    | e => e
    end
  end.

Definition is_undefined (v : value) : bool :=
  match v with VUndefined => true | _ => false end.

Definition array_sort (compareFn : value -> value -> res Z) (arr : list value)
    : res (list value) :=
  match
    sort_defined compareFn (List.filter (fun v => negb (is_undefined v)) arr)
  with
  | Ok r => Ok (r ++ List.filter is_undefined arr)
  | e => e
  end.

(** [sort] (lines 399-407), with the comparator given. *)
Definition sort (fuel : nat) (compareFn : value -> value -> res Z) : Operator :=
  fun itr =>
    let* itr_ := iter itr in
    let* arr := drain fuel itr_ in
    let* sorted := lift (array_sort compareFn arr) in
    let* r := alloc (Native sorted) in
    ret (VIter r).

(** [sortBy] (lines 415-426), with the comparator given. *)
Definition sortBy (fuel : nat) (getSortPropertyFn : value -> value)
    (compareFn : value -> value -> res Z) : Operator :=
  fun itr =>
    let* itr_ := iter itr in
    let* arr := drain fuel itr_ in
    let* sorted :=
      lift (array_sort
              (fun a b =>
                 compareFn (getSortPropertyFn a) (getSortPropertyFn b))
              arr) in
    let* r := alloc (Native sorted) in
    ret (VIter r).

End IterUtils.

Import IterUtils.

(** * Vocabulary of the statements *)

(** The caller's [v.next()], and [k] such calls in a row. *)
Definition call_next (fuel : nat) (v : value) : Eff step :=
  match v with
  | VIter r => pull fuel r
  | _ => throw TypeError
  end.

Fixpoint nexts (fuel k : nat) (v : value) : Eff (list step) :=
  match k with
  | 0 => ret []
  | S k' =>
    let* nx := call_next fuel v in
    let* rest := nexts fuel k' v in
    ret (nx :: rest)
  end.

(** The direct nested application [opN(...(op2(op1(x))))]: the innermost
    call, [op1], is evaluated first. *)
Fixpoint nested_application (ops : list Operator) (x : value) : Eff value :=
  match ops with
  | [] => ret x
  | op :: ops' => let* y := op x in nested_application ops' y
  end.

(** [put s c σ] is [σ] with cell [s] replaced by [c]. *)
Definition put (s : ref) (c : cell) (σ : store) : store :=
  Store (<[s := c]> (cells σ)) (trace σ).

(** [pair_items kvs] are the [[key, value]] arrays of a list of pairs. *)
Definition pair_items (kvs : list (value * value)) : list value :=
  (fun kv => entry (fst kv) (snd kv)) <$> kvs.

(** The value paired with the last key of [kvs] that [is_key] accepts. *)
Fixpoint last_match {K} (is_key : K -> bool) (kvs : list (K * value))
    : option value :=
  match kvs with
  | [] => None
  | (k, v) :: rest =>
    match last_match is_key rest with
    | Some v' => Some v'
    | None => if is_key k then Some v else None
    end
  end.

(** The keys [intoObj] is typed for, [string | number], and the property
    name each of them selects. *)
Definition string_or_number (k : value) : bool :=
  match k with VStr _ | VNum _ => true | _ => false end.

Definition key_name (k : value) : string :=
  match to_property_key k with Ok name => name | _ => "" end.

(** A key that names an own data property of the object [intoObj] fills: a
    string other than ["__proto__"], or an integer a double holds exactly. *)
Definition plain_key (k : value) : bool :=
  match k with
  | VStr s => negb (String.eqb s "__proto__")
  | VNum n => (Z.abs n <=? 2 ^ 53)%Z
  | _ => false
  end.



(** The outcome of a computation without its final store. *)
Definition result_of {A} (r : res (A * store)) : res A :=
  match r with
  | Ok (a, _) => Ok a
  | Throw e => Throw e
  | OutOfFuel => OutOfFuel
  | Unmodelled => Unmodelled
  end.




(** The generator of [take(n)] over the iterator [s] is about to enter its
    loop test with counter [i]: either it has not started and [i = 0], or it
    is suspended at the [yield] of round [i - 1]. *)
Definition take_at (n : Z) (s : ref) (g : gen) (i : Z) : Prop :=
  (g = TakeStart n (VIter s) /\ i = 0%Z) \/ g = TakeYield n (i - 1) s.

(** The operators written as generator functions, as a syntax. *)
Inductive lazy_op : Type :=
| OpTake (numItemsToTake : Z)
| OpDropWhile (predFn : value -> bool)
| OpMap (mapFn : value -> value)
| OpTap
| OpFilter (predFn : value -> bool)
| OpRemove (predFn : value -> bool)
| OpInterpose (separator : value).

Definition operator_of (op : lazy_op) : Operator :=
  match op with
  | OpTake n => take n
  | OpDropWhile predFn => dropWhile predFn
  | OpMap mapFn => map mapFn
  | OpTap => tap
  | OpFilter predFn => filter predFn
  | OpRemove predFn => remove predFn
  | OpInterpose separator => interpose separator
  end.

(** A generator object none of whose body has run. *)
Definition not_started (g : gen) : bool :=
  match g with
  | IterateStart _ _ | TakeStart _ _ | DropWhileStart _ _ | MapStart _ _
  | TapStart _ | FilterStart _ _ | RemoveStart _ _ | ZipStart _
  | FlattenStart _ | InterposeStart _ _ => true
  | _ => false
  end.

Definition fresh_generator (c : cell) : Prop :=
  pulls c = 0 /\ not_started (frame c) = true.

(** Nothing that existed in [σ] was pulled or run on the way to [σ']. *)
Definition untouched (σ σ' : store) : Prop :=
  (forall r c, cells σ !! r = Some c -> cells σ' !! r = Some c)
  /\ trace σ' = trace σ.

(** Building the pipe of [operators] over any source leaves every existing
    iterator as it was. *)
Definition composes_lazily (operators : list Operator) : Prop :=
  forall src σ v σ', pipe src operators σ = Ok (v, σ') -> untouched σ σ'.


(** The tuples [zip] makes of two sources. *)
Definition tuples (xs ys : list value) : list value :=
  zip_with (fun x y => VArr [x; y]) xs ys.

(** The items [interleave] makes of two sources, round by round. *)
Definition rounds (xs ys : list value) : list value :=
  concat (zip_with (fun x y => [x; y]) xs ys).

(** Callbacks and inputs of the examples. *)
Definition letters : value :=
  VArr [VStr "a"; VStr "b"; VStr "c"; VStr "d"; VStr "e"].

Definition numbers (l : list Z) : value := VArr (VNum <$> l).

(** [x => x + 1] and [it => it % 2 === 0] on the numbers the examples feed
    them. *)
Definition plus_one (v : value) : value :=
  match v with VNum n => VNum (n + 1) | _ => v end.

Definition is_even (v : value) : bool :=
  match v with VNum n => Z.even n | _ => false end.

(** ** Vocabulary of the further properties *)

(** A value that is not an object: [new Map] refuses it as an entry. *)
Definition primitive (v : value) : bool :=
  match v with
  | VUndefined | VNull | VBool _ | VNum _ | VStr _ => true
  | _ => false
  end.

(** A value an array pattern cannot walk: it has no [Symbol.iterator]. *)
Definition not_iterable (v : value) : bool :=
  match v with
  | VUndefined | VNull | VBool _ | VNum _ | VObj _ => true
  | _ => false
  end.

(** How often [k] occurs among [xs], by the key equality of a [Map]. *)
Definition occurrences (k : value) (xs : list value) : nat :=
  length (List.filter (same_value_zero k) xs).

(** The items of [xs] that [groupKeyFn] sends to [k], in their order. *)
Definition bucket (groupKeyFn : value -> value) (k : value) (xs : list value)
    : list value :=
  List.filter (fun v => same_value_zero (groupKeyFn v) k) xs.

(** What the iterator is over that [iter] makes for a value, by the shape
    of the value. *)
Definition entries_of (v : value) : list value :=
  match v with
  | VArr xs => xs
  | VStr s => chars s
  | VMap es => (fun e => VArr [fst e; snd e]) <$> es
  | VObj props => (fun p => VArr [VStr (fst p); snd p]) <$> props
  | _ => []
  end.

(** The items [iter] walks for a value that is neither [null] nor an
    iterator. *)
Definition entries_walked (v : value) : list value :=
  match v with
  | VUndefined => []
  | _ => match native_items v with
         | Some xs => xs
         | None => object_entries v
         end
  end.

(** What a [Map] of counts holds for [k] after the items [xs]: nothing
    when [k] did not occur. *)
Definition count_entry (k : value) (xs : list value) : option value :=
  match occurrences k xs with
  | 0 => None
  | S n => Some (VNum (Z.of_nat (S n)))
  end.

(** What a [Map] of groups holds for [k] after the items [xs]. *)
Definition bucket_entry (groupKeyFn : value -> value) (k : value)
    (xs : list value) : option value :=
  match bucket groupKeyFn k xs with
  | [] => None
  | b => Some (VArr b)
  end.

(** What [k] consecutive [next()] calls answer on a sequence of items
    [xs]: the items, then done. *)
Fixpoint answers (xs : list value) (k : nat) : list step :=
  match k with
  | 0 => []
  | S k' => head xs :: answers (tail xs) k'
  end.

(** The generator of [tap] over the iterator [s] that still has the items
    [xs] to give: not started, inside its loop, or finished once the source
    reported done. *)
Definition tap_at (s : ref) (xs : list value) (g : gen) : Prop :=
  g = TapStart (VIter s) \/ g = TapLoop s \/ (g = Closed /\ xs = []).

(** The [next()] calls such a generator still makes on its source when it
    is asked [k] times. *)
Definition source_pulls (g : gen) (xs : list value) (k : nat) : nat :=
  match g with
  | Closed => 0
  | _ => Nat.min k (S (length xs))
  end.

(** ** Vocabulary of the pipelines *)

(** [ends r A]: the iterator [r], which lives with everything it reads in
    the cells [A] at the bottom of the store, answers its next [next()]
    with done, whatever lies above [A]; only [A] and the callback log
    change. *)
Definition ends (r : ref) (A : list cell) : Prop :=
  exists (f0 : nat) (A1 : list cell) (lg : list value),
    length A1 = length A
    /\ forall fuel Q tr,
        f0 <= fuel ->
        pull fuel r (Store (A ++ Q) tr) = Ok (None, Store (A1 ++ Q) (tr ++ lg)).

(** [feeds r xs fin A]: the next answers of [r] are the items [xs], one per
    [next()], followed by done when [fin] holds. *)
Fixpoint feeds (r : ref) (xs : list value) (fin : bool) (A : list cell)
    : Prop :=
  match xs with
  | [] => if fin then ends r A else True
  | x :: xs' =>
    exists (f0 : nat) (A1 : list cell) (lg : list value),
      length A1 = length A
      /\ (forall fuel Q tr,
             f0 <= fuel ->
             pull fuel r (Store (A ++ Q) tr)
             = Ok (Some x, Store (A1 ++ Q) (tr ++ lg)))
      /\ feeds r xs' fin A1
  end.

(** The output of a loop that answers each item of its source by yielding
    something or by going on to the next item; [react] gives the item
    yielded, if any, the calls made to the callback, and the next state. *)
Fixpoint transduce {St : Type}
    (react : St -> value -> option value * list value * St)
    (st : St) (xs : list value) : list value :=
  match xs with
  | [] => []
  | x :: xs' =>
    match react st x with
    | (Some y, _, st') => y :: transduce react st' xs'
    | (None, _, st') => transduce react st' xs'
    end
  end.

Definition map_react (mapFn : value -> value) (st : unit) (it : value)
    : option value * list value * unit :=
  (Some (mapFn it), [], st).

Definition tap_react (st : unit) (it : value)
    : option value * list value * unit :=
  (Some it, [it], st).

Definition filter_react (predFn : value -> bool) (st : unit) (it : value)
    : option value * list value * unit :=
  (if predFn it then Some it else None, [], st).

Definition remove_react (predFn : value -> bool) (st : unit) (it : value)
    : option value * list value * unit :=
  (if negb (predFn it) then Some it else None, [], st).

Definition dropWhile_react (predFn : value -> bool) (dropEnded : bool)
    (it : value) : option value * list value * bool :=
  if negb (predFn it) || dropEnded then (Some it, [], true)
  else (None, [], dropEnded).

(** What the lazy operators do to the sequence of items. *)
Fixpoint drop_while (predFn : value -> bool) (xs : list value) : list value :=
  match xs with
  | [] => []
  | x :: rest => if predFn x then drop_while predFn rest else x :: rest
  end.

Definition interposed (separator : value) (xs : list value) : list value :=
  match xs with
  | [] => []
  | x :: rest => x :: flat_map (fun y => [separator; y]) rest
  end.

Definition denote (op : lazy_op) (xs : list value) : list value :=
  match op with
  | OpTake n => firstn (Z.to_nat n) xs
  | OpDropWhile predFn => drop_while predFn xs
  | OpMap mapFn => mapFn <$> xs
  | OpTap => xs
  | OpFilter predFn => List.filter predFn xs
  | OpRemove predFn => List.filter (fun x => negb (predFn x)) xs
  | OpInterpose separator => interposed separator xs
  end.

Definition denote_all (ops : list lazy_op) (xs : list value) : list value :=
  fold_left (fun acc op => denote op acc) ops xs.

(** The frame a lazy operator allocates when it is applied to [v]. *)
Definition start_frame (op : lazy_op) (v : value) : gen :=
  match op with
  | OpTake n => TakeStart n v
  | OpDropWhile predFn => DropWhileStart predFn v
  | OpMap mapFn => MapStart mapFn v
  | OpTap => TapStart v
  | OpFilter predFn => FilterStart predFn v
  | OpRemove predFn => RemoveStart predFn v
  | OpInterpose separator => InterposeStart separator v
  end.

(** The first [k] items of [iterate(itrFn, i)]. *)
Fixpoint iterates (itrFn : value -> value) (i : value) (k : nat) : list value :=
  match k with
  | 0 => []
  | S k' => i :: iterates itrFn (itrFn i) k'
  end.

(** An integer among those a double holds exactly one by one. *)
Definition safe_integer (z : Z) : Prop := (Z.abs z <= 2 ^ 53)%Z.

(** [start], [start + step], ... ([k] numbers). *)
Definition arithmetic (start step : Z) (k : nat) : list value :=
  (fun i => VNum (start + Z.of_nat i * step)) <$> seq 0 k.

(** ** Vocabulary of [cycle] *)

(** An item [flatten] yields as it is: [isArrayOrIter] answers no. *)
Definition leaf (v : value) : bool :=
  match isArrayOrIter v with
  | Ok false => true
  | _ => false
  end.

(** The generator of [iterate(() => itr, itr)], before or after its first
    item: every item it yields is [itr]. *)
Definition iterate_const_at (itr : value) (g : gen) : Prop :=
  g = IterateStart (fun _ => itr) itr
  \/ exists j, g = IterateYield (fun _ => itr) j.

(** The generator [t] of [flatten] over [c] is inside an item of [c]: it
    delegates to a generator [inner] that walks the iterator [N] of that
    item, which has [rest] to give. *)
Definition in_lap (σ : store) (t c N : ref) (rest : list value) : Prop :=
  exists inner pt pi pn,
    cells σ !! t = Some (Cell (FlattenDeleg c inner) pt)
    /\ cells σ !! inner = Some (Cell (FlattenLoop N) pi)
    /\ cells σ !! N = Some (Cell (Native rest) pn)
    /\ N <> inner /\ t <> inner /\ t <> N /\ c <> N /\ c <> inner.

(** The first [k] items of the endless repetition of [xs], when [rest] of
    the current repetition is still to come. *)
Fixpoint laps (xs rest : list value) (k : nat) : list value :=
  match k with
  | 0 => []
  | S k' =>
    match rest with
    | x :: rest' => x :: laps xs rest' k'
    | [] =>
      match xs with
      | x :: xs' => x :: laps xs xs' k'
      | [] => []
      end
    end
  end.

(** ** Vocabulary of sorting *)

(** Every item of [l] is at most its successor, by the comparator. *)
Fixpoint ascending (cmp : value -> value -> Z) (l : list value) : Prop :=
  match l with
  | [] => True
  | x :: l' =>
    match l' with
    | [] => True
    | y :: _ => (cmp x y <= 0)%Z /\ ascending cmp l'
    end
  end.

(** The mathematical comparator behind [numCompare]. *)
Definition number_order (a b : value) : Z :=
  match a, b with
  | VNum x, VNum y => (x - y)%Z
  | _, _ => 0%Z
  end.

Definition is_number (v : value) : bool :=
  match v with VNum _ => true | _ => false end.

(** ** Vocabulary of [flatten] *)

(** The leaves of a nesting of arrays, from left to right. *)
Fixpoint leaves (v : value) : list value :=
  match v with
  | VArr xs =>
    (fix go (l : list value) : list value :=
       match l with
       | [] => []
       | x :: l' => leaves x ++ go l'
       end) xs
  | _ => [v]
  end.

(** A nesting of arrays whose leaves [flatten] yields as they are. *)
Fixpoint tree (v : value) : bool :=
  match v with
  | VArr xs =>
    (fix go (l : list value) : bool :=
       match l with
       | [] => true
       | x :: l' => tree x && go l'
       end) xs
  | _ => leaf v
  end.

Fixpoint weight (v : value) : nat :=
  match v with
  | VArr xs =>
    S ((fix go (l : list value) : nat :=
          match l with
          | [] => 0
          | x :: l' => weight x + go l'
          end) xs)
  | _ => 1
  end.

(** A generator that allocates lives, with all it reads and makes, in the
    cells [U] above the first [base] cells of the store, and what it does
    is independent of those first cells.  [gives]: its next [next()]
    answers [a] and leaves [U1]; [runs_to]: the same for a generator that
    is resumed in the middle of a [next()]. *)
Definition gives (g : ref) (base : nat) (a : step) (U U1 : list cell) : Prop :=
  exists f0,
    forall fuel B tr,
      f0 <= fuel -> length B = base ->
      pull fuel g (Store (B ++ U) tr) = Ok (a, Store (B ++ U1) tr).

Definition runs_to (g : ref) (base : nat) (a : step) (U U1 : list cell)
    : Prop :=
  exists f0,
    forall fuel B tr,
      f0 <= fuel -> length B = base ->
      run fuel g (Store (B ++ U) tr) = Ok (a, Store (B ++ U1) tr).

(** The answers to come are the items [xs], then done; [first] describes
    the first answer and [later] the others. *)
Fixpoint fed_by (first later : step -> list cell -> list cell -> Prop)
    (xs : list value) (U : list cell) : Prop :=
  match xs with
  | [] => exists U1, first None U U1
  | x :: xs' => exists U1, first (Some x) U U1 /\ fed_by later later xs' U1
  end.

(** * Properties *)

(** ** The computation monad *)

Lemma bind_ret_r {A} (m : Eff A) (σ : store) : bind m ret σ = m σ.
Proof. unfold bind, ret. destruct (m σ) as [[a σ']| | |]; reflexivity. Qed.

Lemma bind_assoc {A B C} (m : Eff A) (k : A -> Eff B) (h : B -> Eff C) σ :
  bind (bind m k) h σ = bind m (fun a => bind (k a) h) σ.
Proof. unfold bind. destruct (m σ) as [[a σ']| | |]; reflexivity. Qed.

Lemma bind_ext {A B} (m : Eff A) (k k' : A -> Eff B) σ :
  (forall a σ', k a σ' = k' a σ') -> bind m k σ = bind m k' σ.
Proof. intros H. unfold bind. destruct (m σ) as [[a σ']| | |]; auto. Qed.

Lemma bind_ok {A B} (m : Eff A) (k : A -> Eff B) σ a σ' :
  m σ = Ok (a, σ') -> bind m k σ = k a σ'.
Proof. intros H. unfold bind. rewrite H. reflexivity. Qed.

(** ** pipe *)

Lemma nested_application_app (ops1 ops2 : list Operator) x σ :
  nested_application (ops1 ++ ops2) x σ
  = bind (nested_application ops1 x) (nested_application ops2) σ.
Proof.
  revert x σ. induction ops1 as [|op ops1 IH]; intros x σ; simpl.
  - reflexivity.
  - rewrite bind_assoc. apply bind_ext. intros y σ'. apply IH.
Qed.

Lemma pipe_f_nested (itr : value) (txs : list Operator) σ :
  txs <> [] -> pipe_f itr txs σ = nested_application (rev txs) itr σ.
Proof.
  revert σ. induction txs as [|op rest IH]; intros σ Hne; [congruence|].
  destruct rest as [|op' rest'].
  - simpl. symmetry. apply bind_ret_r.
  - change (pipe_f itr (op :: op' :: rest') σ)
      with (bind (pipe_f itr (op' :: rest')) op σ).
    change (rev (op :: op' :: rest')) with (rev (op' :: rest') ++ [op]).
    rewrite nested_application_app.
    unfold bind at 1 2. rewrite IH by congruence.
    destruct (nested_application (rev (op' :: rest')) itr σ) as [[y σ']| | |];
      try reflexivity.
    simpl. symmetry. apply bind_ret_r.
Qed.

(** C1. For a non-empty operator list, [pipe(source, op1, ..., opN)] is
    the nested application [opN(...(op2(op1(iter(source)))))]: the operators
    run left to right although [pipe] recurses over the reversed list. *)
Theorem pipe_applies_left_to_right :
  forall (iterable : value) (operators : list Operator) (σ : store),
    operators <> [] ->
    pipe iterable operators σ
    = bind (iter iterable)
        (fun itr => nested_application operators (VIter itr)) σ.
Proof.
  intros iterable operators σ Hne. unfold pipe.
  apply bind_ext. intros itr σ'.
  rewrite pipe_f_nested.
  - rewrite rev_involutive. reflexivity.
  - intros Hrev. apply Hne. rewrite <- (rev_involutive operators), Hrev.
    reflexivity.
Qed.

Lemma pipe_applies_left_to_right_witness :
  [map plus_one; filter is_even] <> []
  /\ pipe (numbers [1; 2; 3]%Z) [map plus_one; filter is_even] empty_store
     = bind (iter (numbers [1; 2; 3]%Z))
         (fun itr =>
            nested_application [map plus_one; filter is_even] (VIter itr))
         empty_store.
Proof.
  split; [discriminate|].
  apply (pipe_applies_left_to_right (numbers [1; 2; 3]%Z)
           [map plus_one; filter is_even] empty_store).
  discriminate.
Defined.

(** C2. With no operators at all [pipe] does not return the normalized
    source: the inner function takes [first] from an empty list and calls
    it, which is a [TypeError] whatever the source. *)
Theorem pipe_without_operators_throws :
  forall (iterable : value) (σ : store),
    pipe iterable [] σ = Throw TypeError.
Proof.
  intros iterable σ. unfold pipe.
  destruct iterable as [| |b|n|s|xs|props|es|r]; reflexivity.
Qed.

(** ** iter *)

(** C3. [iter(null)] throws: the guard at the top of [iter] tests for
    [undefined] only, and reading [iterable["next"]] off [null] happens
    before the [try]. *)
Theorem iter_null_throws :
  forall σ : store, iter VNull σ = Throw TypeError.
Proof. reflexivity. Qed.

(** Every other input resolves to an iterator: the one passed in, or a
    fresh unpulled one. *)
Lemma iter_total_off_null (iterable : value) (σ : store) :
  iterable <> VNull ->
  exists r σ', iter iterable σ = Ok (r, σ')
    /\ ((iterable = VIter r /\ σ' = σ)
        \/ (exists items, r = length (cells σ)
              /\ σ' = Store (cells σ ++ [Cell (Native items) 0]) (trace σ))).
Proof.
  intros Hnn.
  destruct iterable as [| |b|n|s|xs|props|es|r]; try congruence;
    try (eexists _, _; split; [reflexivity|right; eexists; split; reflexivity]).
  eexists _, _; split; [reflexivity|left; split; reflexivity].
Qed.

(** The absent value gives an exhausted iterator, an iterator is passed
    through, and a plain object falls back to its entries. *)
Lemma iter_shapes (σ : store) (r : ref) (props : list (string * value)) :
  iter VUndefined σ
  = Ok (length (cells σ), Store (cells σ ++ [Cell (Native []) 0]) (trace σ))
  /\ iter (VIter r) σ = Ok (r, σ)
  /\ iter (VObj props) σ
     = Ok (length (cells σ),
           Store (cells σ
                  ++ [Cell (Native ((fun p => entry (VStr (fst p)) (snd p))
                                      <$> props)) 0])
             (trace σ)).
Proof. repeat split. Qed.

(** ** The store *)

Section Store.
Context (σ : store) (s : ref) (c : cell).
Hypothesis Hs : cells σ !! s = Some c.

Lemma bump_put : bump s σ = put s (Cell (frame c) (S (pulls c))) σ.
Proof.
  unfold bump, put. f_equal.
  apply list_eq. intros i. destruct (decide (i = s)) as [->|Hne].
  - rewrite list_lookup_alter_eq, Hs, list_lookup_insert_eq; [done|].
    by eapply lookup_lt_Some.
  - by rewrite list_lookup_alter_ne, list_lookup_insert_ne.
Qed.

Lemma set_frame_put g : set_frame s g σ = put s (Cell g (pulls c)) σ.
Proof.
  unfold set_frame, put. f_equal.
  apply list_eq. intros i. destruct (decide (i = s)) as [->|Hne].
  - rewrite list_lookup_alter_eq, Hs, list_lookup_insert_eq; [done|].
    by eapply lookup_lt_Some.
  - by rewrite list_lookup_alter_ne, list_lookup_insert_ne.
Qed.

Lemma cells_put_eq c' : cells (put s c' σ) !! s = Some c'.
Proof. simpl. apply list_lookup_insert_eq. by eapply lookup_lt_Some. Qed.

Lemma put_same : put s c σ = σ.
Proof. unfold put. rewrite list_insert_id by done. by destruct σ. Qed.
End Store.

Lemma cells_put_ne σ s t c : s <> t -> cells (put s c σ) !! t = cells σ !! t.
Proof. intros Hne. simpl. by apply list_lookup_insert_ne. Qed.

Lemma put_put σ s c c' : put s c' (put s c σ) = put s c' σ.
Proof. unfold put. simpl. by rewrite list_insert_insert_eq. Qed.

Lemma put_comm σ s t c d : s <> t -> put s c (put t d σ) = put t d (put s c σ).
Proof. intros Hne. unfold put. simpl. by rewrite list_insert_insert_ne. Qed.

Lemma cells_extend σ new tr r c :
  cells σ !! r = Some c -> cells (Store (cells σ ++ new) tr) !! r = Some c.
Proof. intros H. simpl. by apply lookup_app_l_Some. Qed.

(** Reads a cell through the updates and allocations made on the store. *)
Ltac lookup :=
  repeat first
    [ eassumption
    | rewrite cells_put_ne by (congruence || lia)
    | eapply cells_put_eq
    | eapply cells_extend ].

Lemma run_unfold fuel r σ c :
  cells σ !! r = Some c ->
  run (S fuel) r σ = resume_frame (run fuel) r (frame c) σ.
Proof. intros H. simpl. by rewrite H. Qed.

(** One [next()] on a cell, in terms of its frame. *)
Lemma pull_unfold fuel r σ c :
  cells σ !! r = Some c ->
  pull (S fuel) r σ
  = resume_frame (run fuel) r (frame c) (put r (Cell (frame c) (S (pulls c))) σ).
Proof.
  intros H. unfold pull, next. rewrite (bump_put _ _ _ H). simpl run.
  rewrite list_lookup_insert_eq by (by eapply lookup_lt_Some). reflexivity.
Qed.

Lemma pull_native_nil fuel s σ p :
  cells σ !! s = Some (Cell (Native []) p) ->
  pull (S fuel) s σ = Ok (None, put s (Cell (Native []) (S p)) σ).
Proof. intros H. by rewrite (pull_unfold _ _ _ _ H). Qed.

Lemma pull_native_cons fuel s σ x xs p :
  cells σ !! s = Some (Cell (Native (x :: xs)) p) ->
  pull (S fuel) s σ = Ok (Some x, put s (Cell (Native xs) (S p)) σ).
Proof.
  intros H. rewrite (pull_unfold _ _ _ _ H). simpl. unfold yield.
  erewrite set_frame_put by (by eapply cells_put_eq). by rewrite put_put.
Qed.


Lemma generator_ok g σ :
  generator g σ
  = Ok (VIter (length (cells σ)), Store (cells σ ++ [Cell g 0]) (trace σ)).
Proof. reflexivity. Qed.

Lemma cells_alloc_new (σ : store) (c : cell) tr :
  cells (Store (cells σ ++ [c]) tr) !! length (cells σ) = Some c.
Proof. simpl. by apply list_lookup_middle. Qed.

(** ** zip without sources *)

Lemma pull_zip_no_sources fuel z σ g p :
  cells σ !! z = Some (Cell g p) ->
  g = ZipStart [] \/ g = ZipLoop [] ->
  pull (S fuel) z σ = Ok (Some (VArr []), put z (Cell (ZipLoop []) (S p)) σ).
Proof.
  intros H Hg. rewrite (pull_unfold _ _ _ _ H).
  destruct Hg as [-> | ->]; simpl; unfold bind, zip_round, bind; simpl;
    unfold yield; (erewrite set_frame_put by (by eapply cells_put_eq));
    by rewrite put_put.
Qed.

Lemma nexts_zip_no_sources fuel k : forall z σ g p,
  cells σ !! z = Some (Cell g p) ->
  g = ZipStart [] \/ g = ZipLoop [] ->
  exists σ', nexts (S fuel) k (VIter z) σ = Ok (replicate k (Some (VArr [])), σ').
Proof.
  induction k as [|k IH]; intros z σ g p H Hg.
  - eexists. reflexivity.
  - simpl nexts. unfold bind at 1. simpl call_next.
    rewrite (pull_zip_no_sources _ _ _ _ _ H Hg).
    destruct (IH z (put z (Cell (ZipLoop []) (S p)) σ) (ZipLoop []) (S p))
      as [σ' Hσ'].
    + by eapply cells_put_eq.
    + by right.
    + unfold bind. rewrite Hσ'. eexists. reflexivity.
Qed.

(** C10. [zip()] with no sources never reports done: each of any number
    [k] of consecutive [next()] calls answers with an empty tuple. *)
Theorem zip_no_sources_never_done :
  forall (σ : store) (k fuel : nat),
    exists σ',
      bind (zip []) (nexts (S fuel) k) σ
      = Ok (replicate k (Some (VArr [])), σ').
Proof.
  intros σ k fuel. unfold zip. unfold bind at 1. rewrite generator_ok.
  eapply nexts_zip_no_sources; [apply cells_alloc_new | by left].
Qed.

(** ** Loops over a built-in iterator *)

(** Closes a goal whose two sides differ in the arithmetic of a pull count. *)
Ltac pulls_eq :=
  unfold ret; simpl;
  match goal with
  | |- Ok (_, put ?s (Cell _ ?n) ?σ) = Ok (_, put ?s (Cell _ ?m) ?σ) =>
    replace n with m by (simpl; lia); reflexivity
  end.

Lemma close_native fuel s σ xs p :
  cells σ !! s = Some (Cell (Native xs) p) -> close (S fuel) s σ = Ok (tt, σ).
Proof. intros H. simpl. by rewrite H. Qed.

Lemma reduce_loop_S {U} fuel (reducerFn : value -> U -> Eff U) acc s :
  reduce_loop (S fuel) reducerFn acc s
  = bind (pull fuel s)
      (fun nx =>
         match nx with
         | None => ret acc
         | Some it =>
           bind (reducerFn it acc) (fun acc' => reduce_loop fuel reducerFn acc' s)
         end).
Proof. reflexivity. Qed.


Lemma reduce_loop_native {U} (reducerFn : value -> U -> Eff U) (rf : value -> U -> U)
    (s : ref) (xs : list value) :
  Forall (fun x => forall acc σ, reducerFn x acc σ = Ok (rf x acc, σ)) xs ->
  forall (acc : U) (σ : store) (p fuel : nat),
    cells σ !! s = Some (Cell (Native xs) p) ->
    length xs + 2 <= fuel ->
    reduce_loop fuel reducerFn acc s σ
    = Ok (fold_left (fun a x => rf x a) xs acc,
          put s (Cell (Native []) (p + S (length xs))) σ).
Proof.
  induction 1 as [|x xs Hx _ IH]; intros acc σ p fuel Hs Hfuel;
    (destruct fuel as [|[|fuel]]; [simpl in Hfuel; lia..|]);
    rewrite reduce_loop_S; unfold bind at 1.
  - rewrite (pull_native_nil _ _ _ _ Hs). pulls_eq.
  - rewrite (pull_native_cons _ _ _ _ _ _ Hs).
    unfold bind at 1. rewrite Hx.
    rewrite (IH _ _ (S p)); [|by eapply cells_put_eq|simpl in *; lia].
    rewrite put_put. pulls_eq.
Qed.

Lemma reduce_on_iterator {U} fuel (reducerFn : value -> U -> Eff U) init s σ :
  reduce fuel reducerFn init (VIter s) σ = reduce_loop fuel reducerFn init s σ.
Proof. reflexivity. Qed.





(** ** Materializing into a Map and into an object *)

Lemma same_value_zero_eq x y : same_value_zero x y = true <-> x = y.
Proof.
  unfold same_value_zero. destruct (value_eq_dec x y); split; congruence.
Qed.

Lemma map_get_set k k0 v0 m :
  map_get k (map_set k0 v0 m)
  = if same_value_zero k0 k then Some v0 else map_get k m.
Proof.
  induction m as [|[k' v'] m IH]; simpl; [reflexivity|].
  destruct (same_value_zero k' k0) eqn:E0; simpl.
  - apply same_value_zero_eq in E0. subst k'.
    destruct (same_value_zero k0 k); reflexivity.
  - rewrite IH. destruct (same_value_zero k' k) eqn:E1; [|reflexivity].
    destruct (same_value_zero k0 k) eqn:E2; [|reflexivity].
    apply same_value_zero_eq in E1, E2. subst.
    assert (same_value_zero k k = true) by (by apply same_value_zero_eq).
    congruence.
Qed.

Lemma map_get_fold k kvs : forall m,
  map_get k (fold_left (fun m kv => map_set (fst kv) (snd kv) m) kvs m)
  = match last_match (fun k' => same_value_zero k' k) kvs with
    | Some v => Some v
    | None => map_get k m
    end.
Proof.
  induction kvs as [|[k0 v0] kvs IH]; intros m; simpl; [reflexivity|].
  rewrite IH, map_get_set.
  destruct (last_match _ kvs); [reflexivity|].
  destruct (same_value_zero k0 k); reflexivity.
Qed.

Lemma obj_get_replace name key v obj :
  obj_get key obj <> None ->
  obj_get name (own_replace key v obj)
  = if String.eqb key name then Some v else obj_get name obj.
Proof.
  induction obj as [|[key' v'] obj IH]; simpl; [done|].
  destruct (String.eqb key' key) eqn:E0; simpl; intros Hin.
  - apply String.eqb_eq in E0. subst key'.
    destruct (String.eqb key name); reflexivity.
  - rewrite (IH Hin). destruct (String.eqb key' name) eqn:E1; [|reflexivity].
    destruct (String.eqb key name) eqn:E2; [|reflexivity].
    apply String.eqb_eq in E1, E2. subst. rewrite String.eqb_refl in E0.
    congruence.
Qed.

Lemma obj_get_cons name key v obj :
  obj_get key obj = None ->
  obj_get name ((key, v) :: obj)
  = if String.eqb key name then Some v else obj_get name obj.
Proof. reflexivity. Qed.

Lemma obj_get_insert name n key v obj :
  obj_get key obj = None ->
  obj_get name (own_insert n key v obj)
  = if String.eqb key name then Some v else obj_get name obj.
Proof.
  induction obj as [|[key' v'] obj IH]; [reflexivity|].
  intros Hout. cbn [own_insert].
  assert (String.eqb key' key = false /\ obj_get key obj = None) as [E0 Hout'].
  { simpl in Hout. by destruct (String.eqb key' key). }
  destruct (array_index key') as [n'|]; [|by apply obj_get_cons].
  destruct (n' <? n)%N; [|by apply obj_get_cons].
  cbn [obj_get]. rewrite (IH Hout').
  destruct (String.eqb key' name) eqn:E1; [|reflexivity].
  destruct (String.eqb key name) eqn:E2; [|reflexivity].
  apply String.eqb_eq in E1, E2. subst. rewrite String.eqb_refl in E0.
  congruence.
Qed.

Lemma obj_get_last name key v obj :
  obj_get key obj = None ->
  obj_get name (obj ++ [(key, v)])
  = if String.eqb key name then Some v else obj_get name obj.
Proof.
  induction obj as [|[key' v'] obj IH]; [reflexivity|].
  simpl. destruct (String.eqb key' key) eqn:E0; [done|]. intros Hout.
  rewrite (IH Hout).
  destruct (String.eqb key' name) eqn:E1; [|reflexivity].
  destruct (String.eqb key name) eqn:E2; [|reflexivity].
  apply String.eqb_eq in E1, E2. subst. rewrite String.eqb_refl in E0.
  congruence.
Qed.

Lemma obj_get_set name key v obj :
  obj_get name (own_set key v obj)
  = if String.eqb key name then Some v else obj_get name obj.
Proof.
  unfold own_set. destruct (obj_get key obj) as [w|] eqn:Hkey.
  - apply obj_get_replace. by rewrite Hkey.
  - destruct (array_index key) as [n|].
    + by apply obj_get_insert.
    + by apply obj_get_last.
Qed.

Lemma obj_get_fold name (kvs : list (value * value)) : forall obj,
  obj_get name
    (fold_left (fun obj kv => own_set (key_name (fst kv)) (snd kv) obj) kvs obj)
  = match last_match (fun k' => String.eqb (key_name k') name) kvs with
    | Some v => Some v
    | None => obj_get name obj
    end.
Proof.
  induction kvs as [|[k0 v0] kvs IH]; intros obj; simpl; [reflexivity|].
  rewrite IH, obj_get_set.
  destruct (last_match _ kvs); [reflexivity|].
  destruct (String.eqb (key_name k0) name); reflexivity.
Qed.

Lemma map_fill_S fuel m s :
  map_fill (S fuel) m s
  = bind (pull fuel s)
      (fun nx =>
         match nx with
         | None => ret m
         | Some item =>
           bind (lift (entry_parts item))
             (fun kv => map_fill fuel (map_set (fst kv) (snd kv) m) s)
         end).
Proof. reflexivity. Qed.

Lemma map_fill_native (s : ref) (kvs : list (value * value)) :
  forall (m : list (value * value)) (σ : store) (p fuel : nat),
    cells σ !! s = Some (Cell (Native (pair_items kvs)) p) ->
    length kvs + 2 <= fuel ->
    map_fill fuel m s σ
    = Ok (fold_left (fun m kv => map_set (fst kv) (snd kv) m) kvs m,
          put s (Cell (Native []) (p + S (length kvs))) σ).
Proof.
  induction kvs as [|[k v] kvs IH]; intros m σ p fuel Hs Hfuel;
    (destruct fuel as [|[|fuel]]; [simpl in Hfuel; lia..|]);
    rewrite map_fill_S; unfold bind at 1.
  - rewrite (pull_native_nil _ _ _ _ Hs). pulls_eq.
  - rewrite (pull_native_cons _ _ _ _ _ _ Hs).
    rewrite (bind_ok _ _ _ (k, v) _ eq_refl). simpl fst; simpl snd.
    rewrite (IH _ _ (S p)); [|by eapply cells_put_eq|simpl in *; lia].
    rewrite put_put. pulls_eq.
Qed.

(** The reducer of [intoObj] on a two-element array. *)
Lemma intoObj_reducer_pair fuel k v (obj : list (string * value) * bool) σ :
  bind (destructure_pair fuel (entry k v))
    (fun kv => ret (obj_assign (fst kv) (snd kv) obj)) σ
  = Ok (obj_assign k v obj, σ).
Proof. reflexivity. Qed.

(** The decimal digits of a number never spell ["__proto__"]. *)
Lemma pretty_N_char_no_underscore (y : N) (s t : string) :
  String (pretty_N_char y) s <> "_" +:+ t.
Proof.
  intros H. injection H as H _. revert H. unfold pretty_N_char.
  repeat match goal with
         | |- context [match ?p with _ => _ end] => destruct p
         end; discriminate.
Qed.

Lemma pretty_N_go_no_underscore (x : N) :
  forall s, (forall t, s <> "_" +:+ t) ->
            forall t, pretty_N_go x s <> "_" +:+ t.
Proof.
  induction (N.lt_wf_0 x) as [x _ IH]. intros s Hs t.
  destruct (decide (x = 0%N)) as [->|Hx].
  - rewrite pretty_N_go_0. apply Hs.
  - rewrite pretty_N_go_step by lia.
    apply IH; [apply N.div_lt; lia|].
    intros t'. apply pretty_N_char_no_underscore.
Qed.

Lemma pretty_Z_is_no_proto (n : Z) : pretty n <> "__proto__".
Proof.
  destruct n as [|q|q]; [discriminate| |discriminate].
  change (pretty (Z.pos q)) with (pretty (N.pos q)). unfold pretty, pretty_N.
  destruct (decide _); [discriminate|].
  apply (pretty_N_go_no_underscore _ "" ltac:(discriminate) "_proto__").
Qed.

Lemma obj_assign_plain k v (obj : list (string * value) * bool) :
  plain_key k = true ->
  obj_assign k v obj = (own_set (key_name k) v (fst obj), snd obj).
Proof.
  intros Hk. destruct k; try discriminate; unfold obj_assign, key_name; simpl in *.
  - rewrite Hk.
    destruct (String.eqb (pretty n) "__proto__") eqn:E; [|reflexivity].
    apply String.eqb_eq in E. by apply pretty_Z_is_no_proto in E.
  - apply negb_true_iff in Hk. by rewrite Hk.
Qed.

Lemma obj_assign_fold (kvs : list (value * value)) :
  forallb (fun kv => plain_key (fst kv)) kvs = true ->
  forall obj : list (string * value) * bool,
    fold_left (fun obj kv => obj_assign (fst kv) (snd kv) obj) kvs obj
    = (fold_left (fun obj kv => own_set (key_name (fst kv)) (snd kv) obj)
         kvs (fst obj),
       snd obj).
Proof.
  induction kvs as [|[k v] kvs IH]; intros Hkeys obj; simpl in *.
  - by destruct obj.
  - apply andb_true_iff in Hkeys as [Hk Hkeys].
    rewrite (IH Hkeys), (obj_assign_plain _ _ _ Hk). reflexivity.
Qed.

Lemma fold_left_over_fmap {A B C} (f : A -> C -> A) (g : B -> C) (l : list B) :
  forall a, fold_left f (g <$> l) a = fold_left (fun a x => f a (g x)) l a.
Proof. induction l as [|x l IH]; intros a; simpl; [reflexivity|apply IH]. Qed.

Lemma pipe_single (op : Operator) s σ : pipe (VIter s) [op] σ = op (VIter s) σ.
Proof. reflexivity. Qed.

(** [intoMap] and [intoObj] over a source of pairs that is walked to its
    end. *)
Lemma intoMap_pairs (src : value) (kvs : list (value * value))
    (σ σ1 : store) (s : ref) (p fuel : nat) :
  iter src σ = Ok (s, σ1) ->
  cells σ1 !! s = Some (Cell (Native (pair_items kvs)) p) ->
  length kvs + 2 <= fuel ->
  intoMap fuel src σ
  = Ok (VMap (fold_left (fun m kv => map_set (fst kv) (snd kv) m) kvs []),
        put s (Cell (Native []) (p + S (length kvs))) σ1).
Proof.
  intros Hiter Hs Hfuel. unfold intoMap. rewrite (bind_ok _ _ _ _ _ Hiter).
  unfold bind. by rewrite (map_fill_native _ _ _ _ _ _ Hs Hfuel).
Qed.

Lemma intoObj_pairs (src : value) (kvs : list (value * value))
    (σ σ1 : store) (s : ref) (p fuel : nat) :
  iter src σ = Ok (s, σ1) ->
  cells σ1 !! s = Some (Cell (Native (pair_items kvs)) p) ->
  length kvs + 2 <= fuel ->
  forallb (fun kv => plain_key (fst kv)) kvs = true ->
  intoObj fuel src σ
  = Ok (VObj (fold_left (fun obj kv => own_set (key_name (fst kv)) (snd kv) obj)
                kvs []),
        put s (Cell (Native []) (p + S (length kvs))) σ1).
Proof.
  intros Hiter Hs Hfuel Hkeys.
  unfold intoObj. rewrite (bind_ok _ _ _ _ _ Hiter).
  rewrite pipe_single. unfold bind at 1. rewrite reduce_on_iterator.
  rewrite (reduce_loop_native _
             (fun item obj =>
                obj_assign (nth 0 (default [] (native_items item)) VUndefined)
                  (nth 1 (default [] (native_items item)) VUndefined) obj)
             s (pair_items kvs)) with (p := p).
  - unfold pair_items. rewrite fold_left_over_fmap, length_fmap.
    cbn [entry native_items default nth].
    by rewrite (obj_assign_fold kvs Hkeys).
  - apply Forall_forall. intros item Hitem acc σ0.
    apply list_elem_of_fmap in Hitem as [[k v] [-> Hin]].
    apply intoObj_reducer_pair.
  - done.
  - unfold pair_items. rewrite length_fmap. done.
Qed.

(** Own properties enumerate array indices first, whatever the order of the
    pairs. *)
Example intoObj_orders_array_indices :
  result_of
    (intoObj 6
       (VArr [entry (VStr "b") (VNum 1); entry (VNum 2) (VStr "x");
              entry (VStr "1") (VStr "y"); entry (VStr "b") (VNum 5)])
       empty_store)
  = Ok (VObj [("1", VStr "y"); ("2", VStr "x"); ("b", VNum 5)]).
Proof. reflexivity. Qed.

(** C8. [intoObj] does not bind the key ["__proto__"]: poured from
    [[['__proto__', 1], ['a', 2], ['__proto__', 3]]] it returns [{a: 2}],
    an object without a property for that key, where the claim has the key
    bound to [3], the value of its last occurrence; [intoMap], poured from
    the same pairs, binds it so. *)
Theorem intoObj_leaves_the_proto_key_unbound :
  let pairs := [(VStr "__proto__", VNum 1); (VStr "a", VNum 2);
                (VStr "__proto__", VNum 3)] in
  result_of (intoObj 5 (VArr (pair_items pairs)) empty_store)
  = Ok (VObj [("a", VNum 2)])
  /\ obj_get "__proto__" [("a", VNum 2)] = None
  /\ last_match (fun k' => String.eqb (key_name k') "__proto__") pairs
     = Some (VNum 3)
  /\ result_of (intoMap 5 (VArr (pair_items pairs)) empty_store)
     = Ok (VMap [(VStr "__proto__", VNum 3); (VStr "a", VNum 2)]).
Proof. repeat split. Qed.

(** ** take *)

Lemma put_put_mid σ s t a b c :
  s <> t -> put t a (put s b (put t c σ)) = put t a (put s b σ).
Proof. intros Hne. by rewrite (put_comm _ s t), put_put. Qed.

Lemma drain_S fuel r :
  drain (S fuel) r
  = bind (pull fuel r)
      (fun nx =>
         match nx with
         | None => ret []
         | Some v => bind (drain fuel r) (fun vs => ret (v :: vs))
         end).
Proof. reflexivity. Qed.

Section TakeOverStream.
Context (f : nat -> option value) (n : Z) (s t : ref).
Hypothesis Hst : s <> t.



End TakeOverStream.






(** ** Laziness of composition *)

Lemma operator_of_allocates (op : lazy_op) (v : value) (σ : store) :
  exists g,
    operator_of op v σ
    = Ok (VIter (length (cells σ)), Store (cells σ ++ [Cell g 0]) (trace σ))
    /\ not_started g = true.
Proof. destruct op; eexists; split; reflexivity. Qed.

Lemma nested_lazy_ops (ops : list lazy_op) :
  forall (v : value) (σ : store),
    exists v' gens,
      nested_application (operator_of <$> ops) v σ
      = Ok (v', Store (cells σ ++ gens) (trace σ))
      /\ length gens = length ops
      /\ Forall fresh_generator gens
      /\ (ops <> [] -> exists r, v' = VIter r).
Proof.
  induction ops as [|op ops IH]; intros v σ.
  - exists v, []. repeat split; [|constructor|congruence].
    simpl. unfold ret. rewrite app_nil_r. by destruct σ.
  - destruct (operator_of_allocates op v σ) as (g & Hop & Hg).
    destruct (IH (VIter (length (cells σ)))
                (Store (cells σ ++ [Cell g 0]) (trace σ)))
      as (v' & gens & Hrest & Hlen & Hfresh & Hiter).
    exists v', (Cell g 0 :: gens). repeat split.
    + rewrite fmap_cons.
      change (nested_application (operator_of op :: (operator_of <$> ops)) v σ)
        with (bind (operator_of op v)
                (nested_application (operator_of <$> ops)) σ).
      unfold bind. rewrite Hop, Hrest. simpl.
      by rewrite <- app_assoc.
    + simpl. by rewrite Hlen.
    + constructor; [by split|done].
    + intros _. destruct ops as [|op' ops']; [|by apply Hiter].
      simpl in Hrest. unfold ret in Hrest. injection Hrest as <- _. eauto.
Qed.

Lemma iter_extends (src : value) (σ σ1 : store) (s : ref) :
  iter src σ = Ok (s, σ1) ->
  exists new, cells σ1 = cells σ ++ new /\ trace σ1 = trace σ
              /\ Forall (fun c => pulls c = 0) new.
Proof.
  intros H.
  destruct (value_eq_dec src VNull) as [->|Hnn]; [discriminate|].
  destruct (iter_total_off_null src σ Hnn)
    as (r & σ' & Hiter & [[_ ->] | (items & _ & ->)]);
    rewrite Hiter in H; injection H as _ <-.
  - exists []. rewrite app_nil_r. repeat split. constructor.
  - eexists [_]. repeat split. by repeat constructor.
Qed.

(** C9, as amended.  Building a pipe from the generator operators (take,
    dropWhile, map, tap, filter, remove, interpose) pulls nothing and runs
    no operator body: every iterator that existed is left as it was, the
    trace of callback calls is unchanged, and beyond the normalized source
    the store gains one not-started, never pulled generator per operator. *)
Theorem pipe_of_generators_is_lazy :
  forall (ops : list lazy_op),
    composes_lazily (operator_of <$> ops)
    /\ forall (src : value) (σ σ1 : store) (s : ref),
        ops <> [] ->
        iter src σ = Ok (s, σ1) ->
        exists r gens,
          pipe src (operator_of <$> ops) σ
          = Ok (VIter r, Store (cells σ1 ++ gens) (trace σ1))
          /\ length gens = length ops
          /\ Forall fresh_generator gens.
Proof.
  intros ops.
  assert (forall (src : value) (σ σ1 : store) (s : ref),
             ops <> [] ->
             iter src σ = Ok (s, σ1) ->
             exists r gens,
               pipe src (operator_of <$> ops) σ
               = Ok (VIter r, Store (cells σ1 ++ gens) (trace σ1))
               /\ length gens = length ops
               /\ Forall fresh_generator gens) as Hreturns.
  { intros src σ σ1 s Hne Hiter.
    destruct (nested_lazy_ops ops (VIter s) σ1)
      as (v' & gens & Hrun & Hlen & Hfresh & Hv).
    destruct (Hv Hne) as [r ->].
    exists r, gens. repeat split; try done.
    unfold pipe. rewrite (bind_ok _ _ _ _ _ Hiter).
    rewrite pipe_f_nested.
    - by rewrite rev_involutive.
    - intros Hrev. apply (f_equal (@length Operator)) in Hrev.
      rewrite length_rev, length_fmap in Hrev.
      destruct ops; [congruence|discriminate]. }
  split; [|exact Hreturns].
  intros src σ v σ' Hpipe.
  destruct ops as [|op ops].
  - unfold pipe, bind in Hpipe. simpl in Hpipe.
    destruct (iter src σ) as [[s σ1]| | |]; discriminate.
  - destruct (iter src σ) as [[s σ1]| | |] eqn:Hiter;
      try (unfold pipe, bind in Hpipe; rewrite Hiter in Hpipe; discriminate).
    destruct (Hreturns src σ σ1 s ltac:(discriminate) Hiter)
      as (r & gens & Hrun & _ & _).
    rewrite Hrun in Hpipe. injection Hpipe as _ <-.
    destruct (iter_extends _ _ _ _ Hiter) as (new & Hcells & Htrace & _).
    split; [|exact Htrace].
    intros r0 c Hr0. simpl. rewrite Hcells.
    by do 2 apply lookup_app_l_Some.
Qed.

Lemma pipe_of_generators_is_lazy_witness :
  exists r gens,
    pipe (numbers [1; 2]%Z) (operator_of <$> [OpMap plus_one; OpTake 1])
      empty_store
    = Ok (VIter r,
          Store (cells (Store [Cell (Native [VNum 1; VNum 2]) 0] []) ++ gens) [])
    /\ length gens = 2
    /\ Forall fresh_generator gens.
Proof.
  destruct (pipe_of_generators_is_lazy [OpMap plus_one; OpTake 1]) as [_ H].
  apply (H (numbers [1; 2]%Z) empty_store
           (Store [Cell (Native [VNum 1; VNum 2]) 0] []) 0);
    [discriminate | reflexivity].
Defined.

(** C9, as stated, fails: [drop] is a plain function, so applying it while
    the pipe is built already pulls the source.  Here two of three items
    are gone before the result is pulled once. *)
Lemma pipe_with_drop_pulls_while_composing :
  ~ composes_lazily [drop 3 2].
Proof.
  intros Hlazy.
  destruct (Hlazy (VIter 0)
              (Store [Cell (Native [VNum 1; VNum 2; VNum 3]) 0] [])
              (VIter 0)
              (Store [Cell (Native [VNum 3]) 2] [])
              eq_refl) as [Hcells _].
  specialize (Hcells 0 _ eq_refl). discriminate.
Qed.

(** ** zip and interleave over plain arrays *)

Lemma put_new (σ : store) (c c' : cell) :
  put (length (cells σ)) c' (Store (cells σ ++ [c]) (trace σ))
  = Store (cells σ ++ [c']) (trace σ).
Proof.
  unfold put. simpl. f_equal.
  rewrite insert_app_r_alt by lia. by rewrite Nat.sub_diag.
Qed.

(** Normalizing a non-empty plain array and pulling the result once: a
    fresh iterator is made and gives the first item. *)
Lemma iter_then_next_array fuel x xs σ :
  bind (iter (VArr (x :: xs))) (next (run (S fuel))) σ
  = Ok (Some x, Store (cells σ ++ [Cell (Native xs) 1]) (trace σ)).
Proof.
  rewrite (bind_ok _ _ σ (length (cells σ))
             (Store (cells σ ++ [Cell (Native (x :: xs)) 0]) (trace σ)) eq_refl).
  change (next (run (S fuel))) with (pull (S fuel)).
  rewrite (pull_native_cons _ _ _ x xs 0) by apply cells_alloc_new.
  by rewrite put_new.
Qed.

Lemma mapM_two {A B} (f : A -> Eff B) a b σ x σ1 y σ2 :
  f a σ = Ok (x, σ1) -> f b σ1 = Ok (y, σ2) ->
  mapM f [a; b] σ = Ok ([x; y], σ2).
Proof. intros Ha Hb. simpl. unfold bind. by rewrite Ha, Hb. Qed.

Lemma pull_interleave_pending fuel r σ os v pending p :
  cells σ !! r = Some (Cell (InterleaveLoop os (v :: pending)) p) ->
  pull (S fuel) r σ
  = Ok (Some v, put r (Cell (InterleaveLoop os pending) (S p)) σ).
Proof.
  intros H. rewrite (pull_unfold _ _ _ _ H). simpl. unfold yield.
  erewrite set_frame_put by lookup. by rewrite put_put.
Qed.

Lemma pull_interleave_round fuel r σ x xs y ys p :
  let os := [VArr (x :: xs); VArr (y :: ys)] in
  cells σ !! r = Some (Cell (InterleaveLoop os []) p) ->
  exists σ',
    pull (S (S (S fuel))) r σ = Ok (Some x, σ')
    /\ cells σ' !! r = Some (Cell (InterleaveLoop os [y]) (S p)).
Proof.
  intros os H. rewrite (pull_unfold _ _ _ _ H). cbn [frame pulls].
  set (σ0 := put r (Cell (InterleaveLoop os []) (S p)) σ).
  assert (cells σ0 !! r = Some (Cell (InterleaveLoop os []) (S p))) as H0
    by (unfold σ0; lookup).
  change (resume_frame (run (S (S fuel))) r (InterleaveLoop os []) σ0)
    with (interleave_round (run (S (S fuel))) r os σ0).
  unfold interleave_round, os.
  erewrite bind_ok;
    [|eapply mapM_two; apply (iter_then_next_array (S fuel))].
  change (existsb done [Some x; Some y]) with false.
  change (value_of <$> [Some x; Some y]) with [x; y].
  cbv beta iota. unfold goto.
  erewrite set_frame_put by lookup. cbn [pulls].
  eexists. split.
  - erewrite run_unfold by lookup. reflexivity.
  - unfold yield. erewrite set_frame_put by lookup. lookup.
Qed.

Lemma nexts_S fuel k v :
  nexts fuel (S k) v
  = bind (call_next fuel v)
      (fun nx => bind (nexts fuel k v) (fun rest => ret (nx :: rest))).
Proof. reflexivity. Qed.

Lemma nexts_interleave_plain_arrays fuel r x xs y ys (k : nat) :
  let os := [VArr (x :: xs); VArr (y :: ys)] in
  forall (σ : store) (p : nat),
    cells σ !! r = Some (Cell (InterleaveLoop os []) p) ->
    exists σ',
      nexts (S (S (S fuel))) (2 * k) (VIter r) σ
      = Ok (concat (replicate k [Some x; Some y]), σ').
Proof.
  intros os. subst os. induction k as [|k IH]; intros σ p H.
  - eexists. reflexivity.
  - replace (2 * S k) with (S (S (2 * k))) by lia.
    destruct (pull_interleave_round fuel r σ x xs y ys p H) as (σ1 & Hx & H1).
    destruct (IH (put r (Cell (InterleaveLoop
                                 [VArr (x :: xs); VArr (y :: ys)] [])
                            (S (S p))) σ1) (S (S p)))
      as (σ' & Hrest); [lookup|].
    exists σ'.
    rewrite nexts_S. unfold bind at 1. simpl call_next. rewrite Hx.
    unfold bind at 1. rewrite nexts_S. unfold bind at 1. simpl call_next.
    rewrite (pull_interleave_pending _ _ _ _ _ _ _ H1).
    unfold bind. rewrite Hrest. reflexivity.
Qed.

Lemma pull_native fuel s σ xs p :
  cells σ !! s = Some (Cell (Native xs) p) ->
  pull (S fuel) s σ = Ok (head xs, put s (Cell (Native (tail xs)) (S p)) σ).
Proof.
  intros H. destruct xs as [|x xs].
  - by apply pull_native_nil.
  - by apply pull_native_cons.
Qed.

Section ZipTwo.
Context (a b z : ref).
Hypothesis Hab : a <> b.
Hypothesis Haz : a <> z.
Hypothesis Hbz : b <> z.

(** One round of [zip] over two built-in iterators: both are pulled, and a
    tuple is yielded unless one of them was exhausted. *)
Lemma zip_round_two fuel σ xs ys pa pb g pz :
  cells σ !! z = Some (Cell g pz) ->
  cells σ !! a = Some (Cell (Native xs) pa) ->
  cells σ !! b = Some (Cell (Native ys) pb) ->
  zip_round (run (S fuel)) z [a; b] σ
  = Ok (match xs, ys with
        | x :: _, y :: _ => Some (VArr [x; y])
        | _, _ => None
        end,
        put z (Cell match xs, ys with
                    | _ :: _, _ :: _ => ZipLoop [a; b]
                    | _, _ => Closed
                    end pz)
          (put b (Cell (Native (tail ys)) (S pb))
             (put a (Cell (Native (tail xs)) (S pa)) σ))).
Proof.
  intros Hz Ha Hb. unfold zip_round.
  erewrite bind_ok;
    [|eapply (mapM_two (next (run (S fuel))));
      [apply (pull_native fuel a σ xs pa Ha)
      |apply (pull_native fuel b _ ys pb); lookup]].
  destruct xs as [|x xs], ys as [|y ys]; simpl; unfold finish, yield;
    by (erewrite set_frame_put by lookup).
Qed.

Lemma drain_zip_two (xs : list value) :
  forall (ys : list value) (σ : store) (pa pb pz fuel : nat),
    cells σ !! z = Some (Cell (ZipLoop [a; b]) pz) ->
    cells σ !! a = Some (Cell (Native xs) pa) ->
    cells σ !! b = Some (Cell (Native ys) pb) ->
    length xs + 3 <= fuel ->
    exists σ', drain fuel z σ = Ok (tuples xs ys, σ').
Proof.
  induction xs as [|x xs IH]; intros ys σ pa pb pz fuel Hz Ha Hb Hfuel;
    (destruct fuel as [|[|[|fuel]]]; [simpl in Hfuel; lia..|]);
    rewrite drain_S; unfold bind at 1;
    rewrite (pull_unfold _ _ _ _ Hz); cbn [frame pulls resume_frame];
    erewrite zip_round_two by lookup.
  - eexists. reflexivity.
  - destruct ys as [|y ys]; [eexists; reflexivity|].
    cbn [tail].
    match goal with
    | |- context [bind (drain ?f z) _ ?σx] =>
      edestruct (IH ys σx (S pa) (S pb) (S pz) f) as [σ' Hσ'];
        [lookup | lookup | lookup | simpl in *; lia |]
    end.
    unfold bind. rewrite Hσ'. eexists. reflexivity.
Qed.
End ZipTwo.

Lemma mapM_iter_two_arrays xs ys σ :
  mapM iter [VArr xs; VArr ys] σ
  = Ok ([length (cells σ); S (length (cells σ))],
        Store (cells σ ++ [Cell (Native xs) 0; Cell (Native ys) 0]) (trace σ)).
Proof.
  erewrite mapM_two; [|reflexivity..]. simpl.
  rewrite length_app, <- app_assoc. simpl.
  by replace (length (cells σ) + 1) with (S (length (cells σ))) by lia.
Qed.

Lemma cells_two_new (σ : store) (cx cy : cell) tr :
  cells (Store (cells σ ++ [cx; cy]) tr) !! length (cells σ) = Some cx
  /\ cells (Store (cells σ ++ [cx; cy]) tr) !! S (length (cells σ)) = Some cy.
Proof.
  simpl. split.
  - by apply list_lookup_middle.
  - rewrite lookup_app_r by lia.
    by replace (S (length (cells σ)) - length (cells σ)) with 1 by lia.
Qed.

(** [zip] of two plain arrays stops with the shorter one: it yields one
    tuple per position both arrays have. *)
Lemma zip_two_plain_arrays (xs ys : list value) (σ : store) (fuel : nat) :
  length xs + 4 <= fuel ->
  exists σ',
    bind (zip [VArr xs; VArr ys]) (intoArray fuel) σ
    = Ok (VArr (tuples xs ys), σ')
    /\ length (tuples xs ys) = Nat.min (length xs) (length ys).
Proof.
  intros Hfuel. destruct fuel as [|[|[|fuel]]]; [lia..|].
  set (z := length (cells σ)).
  set (σ0 := Store (cells σ ++ [Cell (ZipStart [VArr xs; VArr ys]) 0]) (trace σ)).
  assert (cells σ0 !! z = Some (Cell (ZipStart [VArr xs; VArr ys]) 0)) as Hz
    by apply cells_alloc_new.
  cut (exists σ', drain (S (S (S fuel))) z σ0 = Ok (tuples xs ys, σ')).
  { intros [σ' Hσ']. exists σ'. split; [|apply length_zip_with].
    unfold zip. unfold bind at 1. rewrite generator_ok.
    change (intoArray (S (S (S fuel))) (VIter (length (cells σ)))
              (Store (cells σ ++ [Cell (ZipStart [VArr xs; VArr ys]) 0])
                 (trace σ)))
      with (bind (drain (S (S (S fuel))) z) (fun l => ret (VArr l)) σ0).
    unfold bind. by rewrite Hσ'. }
  rewrite drain_S. unfold bind at 1.
  rewrite (pull_unfold _ _ _ _ Hz). cbn [frame pulls resume_frame].
  set (σ1 := put z (Cell (ZipStart [VArr xs; VArr ys]) 1) σ0).
  assert (length (cells σ1) = S z) as Hlen1.
  { unfold σ1, σ0. simpl. rewrite length_insert, length_app. simpl.
    unfold z. lia. }
  assert (cells σ1 !! z = Some (Cell (ZipStart [VArr xs; VArr ys]) 1)) as Hz1
    by (unfold σ1; lookup).
  rewrite (bind_ok _ _ _ _ _ (mapM_iter_two_arrays xs ys σ1)).
  destruct (cells_two_new σ1 (Cell (Native xs) 0) (Cell (Native ys) 0) (trace σ1))
    as [Ha Hb].
  rewrite Hlen1 in *.
  erewrite (zip_round_two (S z) (S (S z)) z) with (xs := xs) (ys := ys);
    [| lia | lia | lia | by apply cells_extend | exact Ha | exact Hb].
  destruct xs as [|x xs]; [eexists; reflexivity|].
  destruct ys as [|y ys]; [eexists; reflexivity|].
  cbn [tail].
  match goal with
  | |- context [bind (drain ?f z) _ ?σx] =>
    edestruct (drain_zip_two (S z) (S (S z)) z ltac:(lia) ltac:(lia)
                 ltac:(lia) xs ys σx 1 1 1 f)
      as [σ' Hσ']; [lookup | lookup | lookup | simpl in *; lia |]
  end.
  unfold bind. rewrite Hσ'. eexists. reflexivity.
Qed.

Section InterleaveTwo.
Context (a b r : ref).
Hypothesis Hab : a <> b.
Hypothesis Har : a <> r.
Hypothesis Hbr : b <> r.

(** One round of [interleave] over two built-in iterators handed over as
    iterators: normalizing them again changes nothing, both are pulled,
    and the round's first value is yielded unless one was exhausted. *)
Lemma interleave_round_two fuel σ xs ys pa pb g pr :
  cells σ !! r = Some (Cell g pr) ->
  cells σ !! a = Some (Cell (Native xs) pa) ->
  cells σ !! b = Some (Cell (Native ys) pb) ->
  interleave_round (run (S (S fuel))) r [VIter a; VIter b] σ
  = Ok (match xs, ys with
        | x :: _, _ :: _ => Some x
        | _, _ => None
        end,
        put r (Cell match xs, ys with
                    | _ :: _, y :: _ => InterleaveLoop [VIter a; VIter b] [y]
                    | _, _ => Closed
                    end pr)
          (put b (Cell (Native (tail ys)) (S pb))
             (put a (Cell (Native (tail xs)) (S pa)) σ))).
Proof.
  intros Hr Ha Hb. unfold interleave_round.
  erewrite bind_ok;
    [|eapply (mapM_two
                (fun itr => bind (iter itr) (next (run (S (S fuel))))));
      [apply (pull_native (S fuel) a σ xs pa Ha)
      |apply (pull_native (S fuel) b _ ys pb); lookup]].
  destruct xs as [|x xs], ys as [|y ys]; simpl; unfold finish, goto;
    erewrite set_frame_put by lookup; try reflexivity.
  erewrite cells_put_eq by lookup. cbn [frame pulls resume_frame].
  unfold yield. erewrite set_frame_put by lookup. by rewrite put_put.
Qed.

Lemma drain_interleave_two (xs : list value) :
  forall (ys : list value) (σ : store) (pa pb pr fuel : nat),
    cells σ !! r = Some (Cell (InterleaveLoop [VIter a; VIter b] []) pr) ->
    cells σ !! a = Some (Cell (Native xs) pa) ->
    cells σ !! b = Some (Cell (Native ys) pb) ->
    2 * length xs + 4 <= fuel ->
    exists σ', drain fuel r σ = Ok (rounds xs ys, σ').
Proof.
  induction xs as [|x xs IH]; intros ys σ pa pb pr fuel Hr Ha Hb Hfuel;
    (destruct fuel as [|[|[|[|fuel]]]]; [simpl in Hfuel; lia..|]);
    rewrite drain_S; unfold bind at 1;
    rewrite (pull_unfold _ _ _ _ Hr); cbn [frame pulls resume_frame];
    erewrite interleave_round_two by lookup.
  - eexists. reflexivity.
  - destruct ys as [|y ys]; [eexists; reflexivity|].
    cbn [tail]. unfold bind at 1. rewrite drain_S. unfold bind at 1.
    erewrite pull_interleave_pending by lookup.
    match goal with
    | |- context [bind (drain ?f r) _ ?σx] =>
      edestruct (IH ys σx (S pa) (S pb) (S (S pr)) f) as [σ' Hσ'];
        [lookup | lookup | lookup | simpl in *; lia |]
    end.
    unfold bind. rewrite Hσ'. eexists. reflexivity.
Qed.
End InterleaveTwo.

(** [interleave] of two built-in iterators stops with the shorter one: it
    yields both values of every round both sources have an item for. *)
Lemma interleave_two_iterators (a b : ref) (xs ys : list value)
    (σ : store) (pa pb fuel : nat) :
  a <> b ->
  cells σ !! a = Some (Cell (Native xs) pa) ->
  cells σ !! b = Some (Cell (Native ys) pb) ->
  2 * length xs + 4 <= fuel ->
  exists σ',
    bind (interleave [VIter a; VIter b]) (intoArray fuel) σ
    = Ok (VArr (rounds xs ys), σ').
Proof.
  intros Hab Ha Hb Hfuel.
  pose proof (lookup_lt_Some _ _ _ Ha) as Hla.
  pose proof (lookup_lt_Some _ _ _ Hb) as Hlb.
  edestruct (drain_interleave_two a b (length (cells σ)) Hab
               ltac:(lia) ltac:(lia) xs ys
               (Store (cells σ ++ [Cell (InterleaveLoop [VIter a; VIter b] []) 0])
                  (trace σ)) pa pb 0 fuel) as [σ' Hσ'];
    [apply cells_alloc_new | by apply cells_extend | by apply cells_extend
    | done |].
  exists σ'.
  unfold interleave. unfold bind at 1. rewrite generator_ok.
  change (intoArray fuel (VIter (length (cells σ))))
    with (fun σ0 => bind (drain fuel (length (cells σ)))
                      (fun l => ret (VArr l)) σ0).
  cbv beta. unfold bind. by rewrite Hσ'.
Qed.

(** C5.  [interleave] normalizes its arguments inside the loop, so each
    round gives a plain array a new iterator and reads its first item
    again.  Over two non-empty plain arrays it never stops: any number [k]
    of rounds yields the two first items [k] times.  For the arrays of
    lengths 3 and 5 the fourth round is there, with the same two items. *)
Theorem interleave_restarts_plain_arrays :
  (forall (x : value) (xs : list value) (y : value) (ys : list value)
          (σ : store) (k fuel : nat),
      exists σ',
        bind (interleave [VArr (x :: xs); VArr (y :: ys)])
          (nexts (S (S (S fuel))) (2 * k)) σ
        = Ok (concat (replicate k [Some x; Some y]), σ'))
  /\ forall fuel : nat,
      result_of
        (bind (interleave [numbers [1; 2; 3]%Z; letters])
           (nexts (3 + fuel) 8) empty_store)
      = Ok [Some (VNum 1); Some (VStr "a"); Some (VNum 1); Some (VStr "a");
            Some (VNum 1); Some (VStr "a"); Some (VNum 1); Some (VStr "a")].
Proof.
  split.
  - intros x xs y ys σ k fuel.
    unfold interleave. unfold bind at 1. rewrite generator_ok.
    eapply nexts_interleave_plain_arrays. apply cells_alloc_new.
  - intros fuel. reflexivity.
Qed.

(** The same sources handed over as iterators, and [zip] in either form,
    do stop with the shortest source. *)
Example interleave_of_iterators_stops :
  result_of
    (bind (iter (numbers [1; 2; 3]%Z))
       (fun a =>
          bind (iter letters)
            (fun b =>
               bind (interleave [VIter a; VIter b]) (intoArray 9)))
       empty_store)
  = Ok (VArr [VNum 1; VStr "a"; VNum 2; VStr "b"; VNum 3; VStr "c"]).
Proof. reflexivity. Qed.

Example zip_of_plain_arrays_stops :
  result_of
    (bind (zip [numbers [1; 2; 3]%Z; letters]) (intoArray 6) empty_store)
  = Ok (VArr [VArr [VNum 1; VStr "a"]; VArr [VNum 2; VStr "b"];
              VArr [VNum 3; VStr "c"]]).
Proof. reflexivity. Qed.

(** ** flatten *)

(** C6.  [flatten] probes every item with [isArrayOrIter], which reads
    [o["next"]]: an [undefined] or [null] item is not yielded as it is but
    makes the pull that reaches it throw.  The item before it is still
    yielded. *)
Theorem flatten_throws_on_undefined_or_null_item :
  forall (fuel : nat),
    result_of
      (bind (flatten (VArr [VNum 1; VUndefined; VNum 2]))
         (nexts (3 + fuel) 1) empty_store)
    = Ok [Some (VNum 1)]
    /\ result_of
         (bind (flatten (VArr [VNum 1; VUndefined; VNum 2]))
            (intoArray (4 + fuel)) empty_store)
       = Throw TypeError
    /\ result_of
         (bind (flatten (VArr [VNum 1; VNull; VNum 2]))
            (intoArray (4 + fuel)) empty_store)
       = Throw TypeError.
Proof. intros fuel. repeat split. Qed.

(** Without such an item the nested example flattens as documented. *)
Example flatten_nested_example :
  forall (fuel : nat),
    result_of
      (bind (flatten
               (VArr [VNum 1; VArr [VNum 2; VArr [VNum 3; VNum 4]]; VNum 5]))
         (intoArray (12 + fuel)) empty_store)
    = Ok (numbers [1; 2; 3; 4; 5]%Z).
Proof. intros fuel. reflexivity. Qed.

(** * Further properties of the library *)

(** ** Normalizing and consuming a source *)

(** X1. [iter] resolves every input other than [null] without an error.
    An iterator is returned as it is, with the store untouched.  Any other
    value gets one new built-in iterator that has not been pulled, over the
    elements of an array, the characters of a string, the [[key, value]]
    entries of a [Map] or of a plain object, and over nothing for
    [undefined], a number or a boolean. *)
Theorem iter_resolves_all_but_null :
  forall (iterable : value) (σ : store),
    iterable <> VNull ->
    iter iterable σ
    = match iterable with
      | VIter r => Ok (r, σ)
      | _ =>
        Ok (length (cells σ),
            Store (cells σ ++ [Cell (Native (entries_of iterable)) 0]) (trace σ))
      end.
Proof. intros iterable σ Hnn. by destruct iterable. Qed.

Lemma iter_resolves_all_but_null_witness :
  iter (VStr "ab") empty_store
  = Ok (0, Store [Cell (Native [VStr "a"; VStr "b"]) 0] []).
Proof.
  apply (iter_resolves_all_but_null (VStr "ab") empty_store). discriminate.
Defined.

Lemma drain_native (s : ref) (xs : list value) :
  forall (σ : store) (p fuel : nat),
    cells σ !! s = Some (Cell (Native xs) p) ->
    length xs + 2 <= fuel ->
    drain fuel s σ = Ok (xs, put s (Cell (Native []) (p + S (length xs))) σ).
Proof.
  induction xs as [|x xs IH]; intros σ p fuel Hs Hfuel;
    (destruct fuel as [|[|fuel]]; [simpl in Hfuel; lia..|]);
    rewrite drain_S; unfold bind at 1.
  - rewrite (pull_native_nil _ _ _ _ Hs). pulls_eq.
  - rewrite (pull_native_cons _ _ _ _ _ _ Hs). unfold bind.
    rewrite (IH _ (S p)); [|lookup|simpl in *; lia].
    rewrite put_put. pulls_eq.
Qed.

Lemma intoArray_native fuel s σ xs p :
  cells σ !! s = Some (Cell (Native xs) p) ->
  length xs + 2 <= fuel ->
  intoArray fuel (VIter s) σ
  = Ok (VArr xs, put s (Cell (Native []) (p + S (length xs))) σ).
Proof.
  intros Hs Hfuel.
  change (intoArray fuel (VIter s) σ)
    with (bind (drain fuel s) (fun l => ret (VArr l)) σ).
  unfold bind. by rewrite (drain_native s xs σ p fuel Hs Hfuel).
Qed.

Lemma intoArray_plain_array fuel σ xs :
  length xs + 2 <= fuel ->
  intoArray fuel (VArr xs) σ
  = Ok (VArr xs,
        Store (cells σ ++ [Cell (Native []) (S (length xs))]) (trace σ)).
Proof.
  intros Hfuel.
  change (intoArray fuel (VArr xs) σ)
    with (bind (drain fuel (length (cells σ))) (fun l => ret (VArr l))
            (Store (cells σ ++ [Cell (Native xs) 0]) (trace σ))).
  unfold bind.
  rewrite (drain_native _ xs _ 0 fuel (cells_alloc_new _ _ _) Hfuel).
  by rewrite put_new.
Qed.

(** X2. An iterator is single-pass: materializing the same iterator a
    second time gives the empty array, the first pass having taken every
    item.  A plain array is normalized afresh each time and gives its items
    again. *)
Theorem materializing_twice :
  forall (xs : list value) (σ : store) (s : ref) (p fuel : nat),
    cells σ !! s = Some (Cell (Native xs) p) ->
    length xs + 2 <= fuel ->
    bind (intoArray fuel (VIter s))
      (fun once => bind (intoArray fuel (VIter s))
                     (fun twice => ret (once, twice))) σ
    = Ok ((VArr xs, VArr []),
          put s (Cell (Native []) (p + S (S (length xs)))) σ)
    /\ result_of
         (bind (intoArray fuel (VArr xs))
            (fun once => bind (intoArray fuel (VArr xs))
                           (fun twice => ret (once, twice))) σ)
       = Ok (VArr xs, VArr xs).
Proof.
  intros xs σ s p fuel Hs Hfuel. split.
  - rewrite (bind_ok _ _ _ _ _ (intoArray_native _ _ _ _ _ Hs Hfuel)).
    erewrite bind_ok;
      [|apply (intoArray_native fuel s _ [] (p + S (length xs)));
        [lookup | simpl; lia]].
    rewrite put_put. unfold ret. simpl length.
    by replace (p + S (length xs) + 1) with (p + S (S (length xs))) by lia.
  - rewrite (bind_ok _ _ _ _ _ (intoArray_plain_array fuel σ xs Hfuel)).
    erewrite bind_ok; [|by apply intoArray_plain_array].
    reflexivity.
Qed.

Lemma materializing_twice_witness :
  result_of
    (bind (intoArray 4 (VArr [VNum 1; VNum 2]))
       (fun once => bind (intoArray 4 (VArr [VNum 1; VNum 2]))
                      (fun twice => ret (once, twice)))
       (Store [Cell (Native [VNum 1; VNum 2]) 0] []))
  = Ok (VArr [VNum 1; VNum 2], VArr [VNum 1; VNum 2]).
Proof.
  apply (materializing_twice [VNum 1; VNum 2]
           (Store [Cell (Native [VNum 1; VNum 2]) 0] []) 0 0 4);
    [reflexivity | simpl; lia].
Defined.

(** X3. [reduce(f, initial)] is the left fold of [f(item, accumulator)]
    over the items in encounter order, [initial] for an empty source; the
    call itself drains the source to exhaustion. *)
Theorem reduce_is_a_left_fold :
  forall (U : Type) (rf : value -> U -> U) (initialValue : U) (src : value)
         (xs : list value) (σ σ1 : store) (s : ref) (p fuel : nat),
    iter src σ = Ok (s, σ1) ->
    cells σ1 !! s = Some (Cell (Native xs) p) ->
    length xs + 2 <= fuel ->
    reduce fuel (fun it acc => ret (rf it acc)) initialValue src σ
    = Ok (fold_left (fun acc it => rf it acc) xs initialValue,
          put s (Cell (Native []) (p + S (length xs))) σ1).
Proof.
  intros U rf init src xs σ σ1 s p fuel Hiter Hs Hfuel.
  unfold reduce. rewrite (bind_ok _ _ _ _ _ Hiter).
  apply reduce_loop_native; [|done..].
  apply Forall_forall. intros; reflexivity.
Qed.

Lemma reduce_is_a_left_fold_witness :
  reduce 5 (fun it acc => ret (it :: acc)) [] (numbers [1; 2; 3]%Z) empty_store
  = Ok ([VNum 3; VNum 2; VNum 1], Store [Cell (Native []) 4] []).
Proof.
  apply (reduce_is_a_left_fold (list value) cons [] (numbers [1; 2; 3]%Z)
           [VNum 1; VNum 2; VNum 3] empty_store
           (Store [Cell (Native [VNum 1; VNum 2; VNum 3]) 0] []) 0 0 5);
    [reflexivity | reflexivity | simpl; lia].
Defined.

(** ** drop, first, second *)

Lemma drop_loop_S fuel n i s :
  drop_loop (S fuel) n i s
  = if (i <? n)%Z then
      bind (pull fuel s)
        (fun nx => if done nx then ret tt else drop_loop fuel n (i + 1) s)
    else ret tt.
Proof. reflexivity. Qed.

Lemma drop_loop_native (n : Z) (s : ref) (xs : list value) :
  forall (σ : store) (i : Z) (p fuel : nat),
    cells σ !! s = Some (Cell (Native xs) p) ->
    length xs + 2 <= fuel ->
    drop_loop fuel n i s σ
    = Ok (tt, put s (Cell (Native (skipn (Z.to_nat (n - i)) xs))
                       (p + Nat.min (Z.to_nat (n - i)) (S (length xs)))) σ).
Proof.
  induction xs as [|x xs IH]; intros σ i p fuel Hs Hfuel;
    (destruct fuel as [|[|fuel]]; [simpl in Hfuel; lia..|]);
    rewrite drop_loop_S; destruct (i <? n)%Z eqn:Hi.
  - apply Z.ltb_lt in Hi. unfold bind.
    rewrite (pull_native_nil _ _ _ _ Hs).
    change (done None) with true. cbv iota.
    unfold ret. rewrite skipn_nil. do 4 f_equal. simpl length. lia.
  - apply Z.ltb_ge in Hi. replace (Z.to_nat (n - i)) with 0 by lia.
    unfold ret. rewrite skipn_O, Nat.min_0_l, Nat.add_0_r.
    by rewrite (put_same _ _ _ Hs).
  - apply Z.ltb_lt in Hi. unfold bind.
    rewrite (pull_native_cons _ _ _ _ _ _ Hs).
    change (done (Some x)) with false. cbv iota.
    rewrite (IH _ (i + 1)%Z (S p)); [|lookup|simpl in *; lia].
    rewrite put_put.
    replace (Z.to_nat (n - i)) with (S (Z.to_nat (n - (i + 1)))) by lia.
    rewrite skipn_cons. do 4 f_equal. simpl length. lia.
  - apply Z.ltb_ge in Hi. replace (Z.to_nat (n - i)) with 0 by lia.
    unfold ret. rewrite skipn_O, Nat.min_0_l, Nat.add_0_r.
    by rewrite (put_same _ _ _ Hs).
Qed.

(** X4. [drop(n)] returns the very iterator it was given, not a new one,
    after having pulled it already: the first [n] items are gone (all of
    them when there are fewer), the source having received [n] calls of
    [next], or one more than it had items. *)
Theorem drop_advances_and_returns_its_source :
  forall (n : Z) (src : value) (xs : list value) (σ σ1 : store) (s : ref)
         (p fuel : nat),
    iter src σ = Ok (s, σ1) ->
    cells σ1 !! s = Some (Cell (Native xs) p) ->
    length xs + 2 <= fuel ->
    drop fuel n src σ
    = Ok (VIter s,
          put s (Cell (Native (skipn (Z.to_nat n) xs))
                   (p + Nat.min (Z.to_nat n) (S (length xs)))) σ1).
Proof.
  intros n src xs σ σ1 s p fuel Hiter Hs Hfuel.
  unfold drop. rewrite (bind_ok _ _ _ _ _ Hiter).
  unfold bind. rewrite (drop_loop_native n s xs σ1 0 p fuel Hs Hfuel).
  by rewrite Z.sub_0_r.
Qed.

Lemma drop_advances_and_returns_its_source_witness :
  drop 5 2 (numbers [1; 2; 3]%Z) empty_store
  = Ok (VIter 0, Store [Cell (Native [VNum 3]) 2] []).
Proof.
  apply (drop_advances_and_returns_its_source 2 (numbers [1; 2; 3]%Z)
           [VNum 1; VNum 2; VNum 3] empty_store
           (Store [Cell (Native [VNum 1; VNum 2; VNum 3]) 0] []) 0 0 5);
    [reflexivity | reflexivity | simpl; lia].
Defined.

Lemma iter_of_iterator (r : ref) (σ : store) : iter (VIter r) σ = Ok (r, σ).
Proof. reflexivity. Qed.

Lemma first_native fuel s σ xs p :
  cells σ !! s = Some (Cell (Native xs) p) ->
  first (S fuel) (VIter s) σ
  = Ok (default VUndefined (head xs), put s (Cell (Native (tail xs)) (S p)) σ).
Proof.
  intros Hs. unfold first.
  rewrite (bind_ok _ _ _ _ _ (iter_of_iterator s σ)).
  rewrite (bind_ok _ _ _ _ _ (pull_native fuel _ _ _ _ Hs)).
  destruct xs as [|x xs]; [reflexivity|].
  cbn [head]. erewrite bind_ok; [reflexivity|].
  eapply close_native. lookup.
Qed.

(** X5. [first] answers with the first item, or [undefined] for an empty
    source, after one pull; [second] answers with the second item, or
    [undefined] when there is none, after two pulls.  The items behind stay
    in a built-in iterator. *)
Theorem first_and_second_take_one_and_two :
  forall (src : value) (xs : list value) (σ σ1 : store) (s : ref)
         (p fuel : nat),
    iter src σ = Ok (s, σ1) ->
    cells σ1 !! s = Some (Cell (Native xs) p) ->
    3 <= fuel ->
    first fuel src σ
    = Ok (default VUndefined (head xs),
          put s (Cell (Native (tail xs)) (S p)) σ1)
    /\ second fuel src σ
       = Ok (nth 1 xs VUndefined,
             put s (Cell (Native (skipn 2 xs)) (S (S p))) σ1).
Proof.
  intros src xs σ σ1 s p fuel Hiter Hs Hfuel.
  destruct fuel as [|[|[|fuel]]]; [lia..|].
  split.
  - pose proof (first_native (S (S fuel)) s σ1 xs p Hs) as Hfirst.
    unfold first in *. rewrite (bind_ok _ _ _ _ _ Hiter).
    by rewrite (bind_ok _ _ _ _ _ (iter_of_iterator s σ1)) in Hfirst.
  - unfold second.
    assert (drop (S (S (S fuel))) 1 src σ
            = Ok (VIter s,
                  put s (Cell (Native (tail xs)) (S p)) σ1)) as Hdrop.
    { unfold drop. rewrite (bind_ok _ _ _ _ _ Hiter).
      destruct xs as [|x xs].
      - rewrite drop_loop_S. change (0 <? 1)%Z with true. cbv iota.
        rewrite (bind_ok _ _ _ _ _ (bind_ok _ _ _ _ _ (pull_native_nil _ _ _ _ Hs))).
        reflexivity.
      - rewrite drop_loop_S. change (0 <? 1)%Z with true. cbv iota.
        rewrite (bind_ok _ _ _ _ _ (bind_ok _ _ _ _ _ (pull_native_cons _ _ _ _ _ _ Hs))).
        reflexivity. }
    rewrite (bind_ok _ _ _ _ _ Hdrop).
    erewrite first_native by lookup. rewrite put_put.
    by destruct xs as [|x [|x' xs]].
Qed.

Lemma first_and_second_take_one_and_two_witness :
  first 3 (numbers [7; 8; 9]%Z) empty_store
  = Ok (VNum 7, Store [Cell (Native [VNum 8; VNum 9]) 1] [])
  /\ second 3 (numbers [7; 8; 9]%Z) empty_store
     = Ok (VNum 8, Store [Cell (Native [VNum 9]) 2] []).
Proof.
  apply (first_and_second_take_one_and_two (numbers [7; 8; 9]%Z)
           [VNum 7; VNum 8; VNum 9] empty_store
           (Store [Cell (Native [VNum 7; VNum 8; VNum 9]) 0] []) 0 0 3);
    [reflexivity | reflexivity | lia].
Defined.

(** X6. Leaving the loop of [first] closes a generator: after
    [first(g)] on a fresh [iterate(f, i)], which returns [i], the next
    [g.next()] answers done, although the sequence is endless. *)
Theorem first_closes_a_generator :
  forall (itrFn : value -> value) (i : value) (σ : store) (fuel : nat),
    bind (iterate itrFn i)
      (fun g =>
         bind (first (S (S fuel)) g)
           (fun v =>
              bind (call_next (S (S fuel)) g) (fun nx => ret (v, nx)))) σ
    = Ok ((i, None), Store (cells σ ++ [Cell Closed 2]) (trace σ)).
Proof.
  intros itrFn i σ fuel. unfold iterate.
  rewrite (bind_ok _ _ _ _ _ (generator_ok _ σ)).
  set (r := length (cells σ)).
  set (σ1 := Store (cells σ ++ [Cell (IterateStart itrFn i) 0]) (trace σ)).
  assert (cells σ1 !! r = Some (Cell (IterateStart itrFn i) 0)) as Hr
      by apply cells_alloc_new.
  assert (first (S (S fuel)) (VIter r) σ1
          = Ok (i, put r (Cell Closed 1) σ1)) as Hfirst.
  { unfold first. rewrite (bind_ok _ _ _ _ _ (iter_of_iterator r σ1)).
    assert (pull (S (S fuel)) r σ1
            = Ok (Some i, put r (Cell (IterateYield itrFn i) 1) σ1)) as Hpull.
    { rewrite (pull_unfold _ _ _ _ Hr). cbn [frame pulls resume_frame].
      unfold yield. erewrite set_frame_put by lookup. by rewrite put_put. }
    rewrite (bind_ok _ _ _ _ _ Hpull).
    assert (close (S (S fuel)) r (put r (Cell (IterateYield itrFn i) 1) σ1)
            = Ok (tt, put r (Cell Closed 1) σ1)) as Hclose.
    { cbn [close]. erewrite cells_put_eq by lookup.
      cbn [frame close_frame]. unfold complete, modify.
      erewrite set_frame_put by lookup. by rewrite put_put. }
    by rewrite (bind_ok _ _ _ _ _ Hclose). }
  rewrite (bind_ok _ _ _ _ _ Hfirst). cbn [call_next].
  assert (pull (S (S fuel)) r (put r (Cell Closed 1) σ1)
          = Ok (None, put r (Cell Closed 2) σ1)) as Hnext.
  { erewrite pull_unfold by lookup. cbn [frame pulls resume_frame].
    unfold ret. by rewrite put_put. }
  rewrite (bind_ok _ _ _ _ _ Hnext). unfold ret.
  subst r σ1. by rewrite put_new.
Qed.

Lemma first_of_source fuel src σ σ1 s xs p :
  iter src σ = Ok (s, σ1) ->
  cells σ1 !! s = Some (Cell (Native xs) p) ->
  first (S fuel) src σ
  = Ok (default VUndefined (head xs), put s (Cell (Native (tail xs)) (S p)) σ1).
Proof.
  intros Hiter Hs.
  pose proof (first_native fuel s σ1 xs p Hs) as Hfirst.
  unfold first in *. rewrite (bind_ok _ _ _ _ _ Hiter).
  by rewrite (bind_ok _ _ _ _ _ (iter_of_iterator s σ1)) in Hfirst.
Qed.

Lemma iter_entries_walked (x : value) (σ : store) :
  x <> VNull -> (forall r, x <> VIter r) ->
  iter x σ
  = Ok (length (cells σ),
        Store (cells σ ++ [Cell (Native (entries_walked x)) 0]) (trace σ)).
Proof.
  intros Hnull Hiter.
  destruct x as [| |b|n|s|xs|props|es|r]; try congruence; try reflexivity.
Qed.

(** X7. [ffirst] looks into the first item of its source: when that item
    is [null] the call throws a [TypeError]; otherwise, the item not being
    an iterator, the result is the first of the entries [iter] walks for it
    (the first element of an array, the first character of a string, ...),
    and [undefined] when there are none, as for an empty source, whose
    first item is [undefined]. *)
Theorem ffirst_looks_into_the_first_item :
  forall (src : value) (items : list value) (σ σ1 : store) (s : ref)
         (p fuel : nat),
    iter src σ = Ok (s, σ1) ->
    cells σ1 !! s = Some (Cell (Native items) p) ->
    (forall r, default VUndefined (head items) <> VIter r) ->
    result_of (ffirst (S fuel) src σ)
    = match default VUndefined (head items) with
      | VNull => Throw TypeError
      | x => Ok (default VUndefined (head (entries_walked x)))
      end.
Proof.
  intros src items σ σ1 s p fuel Hiter Hs Hx.
  unfold ffirst.
  rewrite (bind_ok _ _ _ _ _ (first_of_source _ _ _ _ _ _ _ Hiter Hs)).
  set (x := default VUndefined (head items)) in *.
  set (σ2 := put s _ σ1).
  destruct (value_eq_dec x VNull) as [->|Hnull]; [reflexivity|].
  erewrite first_of_source;
    [| by apply iter_entries_walked | by apply cells_alloc_new].
  by destruct x.
Qed.

Lemma ffirst_looks_into_the_first_item_witness :
  result_of (ffirst 1 (VArr [VArr [VNum 123]]) empty_store) = Ok (VNum 123).
Proof.
  apply (ffirst_looks_into_the_first_item (VArr [VArr [VNum 123]])
           [VArr [VNum 123]] empty_store
           (Store [Cell (Native [VArr [VNum 123]]) 0] []) 0 0 0);
    [reflexivity | reflexivity | discriminate].
Defined.

(** ** interleave without sources *)

Lemma run_interleave_no_sources (fuel : nat) :
  forall (r : ref) (σ : store) (p : nat),
    cells σ !! r = Some (Cell (InterleaveLoop [] []) p) ->
    run fuel r σ = OutOfFuel.
Proof.
  induction fuel as [|fuel IH]; intros r σ p Hr; [reflexivity|].
  rewrite (run_unfold _ _ _ _ Hr). cbn [frame resume_frame].
  unfold interleave_round. cbn [mapM]. unfold bind, ret. cbn [existsb].
  unfold goto. rewrite (set_frame_put _ _ _ Hr). cbn [pulls].
  eapply IH. lookup.
Qed.

(** X8. [interleave()] with no sources never answers: its loop has
    nothing to yield and no reason to stop, so the first [next()] does not
    return, whatever the number of steps it is given.  ([zip()] in the same
    situation yields empty tuples forever.) *)
Theorem interleave_without_sources_never_answers :
  forall (σ : store) (fuel : nat),
    bind (interleave []) (call_next fuel) σ = OutOfFuel.
Proof.
  intros σ fuel. unfold interleave.
  rewrite (bind_ok _ _ _ _ _ (generator_ok _ σ)).
  set (r := length (cells σ)).
  set (σ1 := Store (cells σ ++ [Cell (InterleaveLoop [] []) 0]) (trace σ)).
  assert (cells σ1 !! r = Some (Cell (InterleaveLoop [] []) 0)) as Hr
      by apply cells_alloc_new.
  cbn [call_next]. unfold pull, next. rewrite (bump_put _ _ _ Hr).
  cbn [frame pulls]. eapply run_interleave_no_sources. lookup.
Qed.

(** ** Maps built item by item *)

Lemma map_set_keys k v m :
  (map_set k v m).*1
  = match map_get k m with Some _ => m.*1 | None => m.*1 ++ [k] end.
Proof.
  induction m as [|[k' v'] m IH]; [reflexivity|].
  cbn [map_set map_get]. destruct (same_value_zero k' k); [reflexivity|].
  rewrite fmap_cons, IH. by destruct (map_get k m).
Qed.

Lemma map_get_None k m : map_get k m = None -> k ∉ m.*1.
Proof.
  induction m as [|[k' v'] m IH]; intros Hget; [apply not_elem_of_nil|].
  cbn [map_get] in Hget. destruct (same_value_zero k' k) eqn:Hk; [done|].
  rewrite fmap_cons. apply not_elem_of_cons. split; [|by apply IH].
  intros ->. cbn [fst] in Hk.
  by rewrite (proj2 (same_value_zero_eq k' k')) in Hk.
Qed.

Lemma map_set_NoDup k v m : NoDup m.*1 -> NoDup (map_set k v m).*1.
Proof.
  intros Hm. rewrite map_set_keys. destruct (map_get k m) eqn:Hget; [done|].
  apply NoDup_app. split; [done|]. split; [|apply NoDup_singleton].
  intros x Hx Hk%list_elem_of_singleton. subst x.
  by apply (map_get_None k m).
Qed.

Lemma occurrences_snoc k x xs :
  occurrences k (xs ++ [x])
  = occurrences k xs + (if same_value_zero k x then 1 else 0).
Proof.
  unfold occurrences. rewrite List.filter_app, length_app. cbn [List.filter].
  by destruct (same_value_zero k x).
Qed.

Lemma same_value_zero_sym x y : same_value_zero x y = same_value_zero y x.
Proof.
  unfold same_value_zero.
  destruct (value_eq_dec x y), (value_eq_dec y x); congruence.
Qed.

Lemma same_value_zero_refl x : same_value_zero x x = true.
Proof. by apply same_value_zero_eq. Qed.

Lemma frequencies_loop_S fuel result s :
  frequencies_loop (S fuel) result s
  = bind (pull fuel s)
      (fun nx =>
         match nx with
         | None => ret result
         | Some it =>
           bind (lift (mutateMapEntry result it inc))
             (fun result' => frequencies_loop fuel result' s)
         end).
Proof. reflexivity. Qed.

Lemma count_one_more (m : list (value * value)) (seen : list value) (x : value) :
  NoDup m.*1 ->
  (forall k, map_get k m = count_entry k seen) ->
  exists m',
    mutateMapEntry m x inc = Ok m'
    /\ NoDup m'.*1
    /\ forall k, map_get k m' = count_entry k (seen ++ [x]).
Proof.
  intros Hnd Hm. unfold mutateMapEntry. rewrite (Hm x).
  assert (forall v,
             (forall k, same_value_zero x k = true ->
                        count_entry k (seen ++ [x]) = Some v) ->
             forall k, map_get k (map_set x v m) = count_entry k (seen ++ [x]))
    as Hstep.
  { intros v Hv k. rewrite map_get_set.
    destruct (same_value_zero x k) eqn:Hk; [by rewrite Hv|].
    rewrite Hm. unfold count_entry. rewrite occurrences_snoc.
    rewrite same_value_zero_sym, Hk. by rewrite Nat.add_0_r. }
  unfold count_entry at 1. destruct (occurrences x seen) as [|n] eqn:Hocc;
    cbn [default inc]; eexists; (split; [reflexivity|]);
    (split; [by apply map_set_NoDup|]); apply Hstep;
    intros k ->%same_value_zero_eq; unfold count_entry;
    rewrite occurrences_snoc, same_value_zero_refl, Hocc; cbn [Nat.add];
    repeat f_equal; lia.
Qed.

Lemma frequencies_loop_native (s : ref) (xs : list value) :
  forall (seen : list value) (m : list (value * value)) (σ : store)
         (p fuel : nat),
    NoDup m.*1 ->
    (forall k, map_get k m = count_entry k seen) ->
    cells σ !! s = Some (Cell (Native xs) p) ->
    length xs + 2 <= fuel ->
    exists m',
      frequencies_loop fuel m s σ
      = Ok (m', put s (Cell (Native []) (p + S (length xs))) σ)
      /\ NoDup m'.*1
      /\ forall k, map_get k m' = count_entry k (seen ++ xs).
Proof.
  induction xs as [|x xs IH]; intros seen m σ p fuel Hnd Hm Hs Hfuel;
    (destruct fuel as [|[|fuel]]; [simpl in Hfuel; lia..|]);
    rewrite frequencies_loop_S.
  - rewrite (bind_ok _ _ _ _ _ (pull_native_nil _ _ _ _ Hs)).
    exists m. rewrite app_nil_r. split; [pulls_eq|done].
  - rewrite (bind_ok _ _ _ _ _ (pull_native_cons _ _ _ _ _ _ Hs)).
    destruct (count_one_more m seen x Hnd Hm) as (m1 & Hmut & Hnd1 & Hm1).
    rewrite Hmut.
    destruct (IH (seen ++ [x]) m1
                (put s (Cell (Native xs) (S p)) σ) (S p) (S fuel))
      as (m' & Hloop & Hnd' & Hm'); [done|done|lookup|simpl in *; lia|].
    exists m'. split; [|split; [done|]].
    + unfold bind at 1. cbn [lift]. rewrite Hloop, put_put.
      do 4 f_equal. simpl. lia.
    + intros k. by rewrite Hm', <- app_assoc.
Qed.

(** X9. [frequencies] drains its source when it is called and returns a
    new built-in iterator over the entries of a Map that holds, for every
    item that occurred, the number of its occurrences, each key once, and
    nothing for any other key.  Items are primitives: their Map key
    equality is equality of content. *)
Theorem frequencies_counts_occurrences :
  forall (src : value) (xs : list value) (σ σ1 : store) (s : ref)
         (p fuel : nat),
    iter src σ = Ok (s, σ1) ->
    cells σ1 !! s = Some (Cell (Native xs) p) ->
    forallb primitive xs = true ->
    length xs + 2 <= fuel ->
    exists (m : list (value * value)) (r : ref) (σ' : store),
      frequencies fuel src σ = Ok (VIter r, σ')
      /\ cells σ' !! r = Some (Cell (Native (map_entries m)) 0)
      /\ NoDup m.*1
      /\ (forall k, map_get k m = count_entry k xs)
      /\ cells σ' !! s = Some (Cell (Native []) (p + S (length xs))).
Proof.
  intros src xs σ σ1 s p fuel Hiter Hs _ Hfuel.
  destruct (frequencies_loop_native s xs [] [] σ1 p fuel)
    as (m & Hloop & Hnd & Hm); [apply NoDup_nil_2|done|done|done|].
  unfold frequencies. rewrite (bind_ok _ _ _ _ _ Hiter).
  rewrite (bind_ok _ _ _ _ _ Hloop).
  eexists m, _, _. split; [reflexivity|].
  split; [apply cells_alloc_new|]. split; [done|]. split; [done|].
  lookup.
Qed.

Lemma frequencies_counts_occurrences_witness :
  exists (m : list (value * value)) (r : ref) (σ' : store),
    frequencies 5 (VArr [VStr "a"; VStr "b"; VStr "a"]) empty_store
    = Ok (VIter r, σ')
    /\ cells σ' !! r = Some (Cell (Native (map_entries m)) 0)
    /\ NoDup m.*1
    /\ (forall k,
           map_get k m = count_entry k [VStr "a"; VStr "b"; VStr "a"])
    /\ cells σ' !! 0 = Some (Cell (Native []) 4).
Proof.
  apply (frequencies_counts_occurrences (VArr [VStr "a"; VStr "b"; VStr "a"])
           [VStr "a"; VStr "b"; VStr "a"] empty_store
           (Store [Cell (Native [VStr "a"; VStr "b"; VStr "a"]) 0] []) 0 0 5);
    [reflexivity | reflexivity | reflexivity | simpl; lia].
Defined.

Lemma reduce_loop_invariant {U} (Inv : list value -> U -> Prop)
    (reducerFn : value -> U -> Eff U) (s : ref) (xs : list value) :
  (forall seen x acc σ,
      Inv seen acc ->
      exists acc', reducerFn x acc σ = Ok (acc', σ) /\ Inv (seen ++ [x]) acc') ->
  forall (seen : list value) (acc : U) (σ : store) (p fuel : nat),
    Inv seen acc ->
    cells σ !! s = Some (Cell (Native xs) p) ->
    length xs + 2 <= fuel ->
    exists acc',
      reduce_loop fuel reducerFn acc s σ
      = Ok (acc', put s (Cell (Native []) (p + S (length xs))) σ)
      /\ Inv (seen ++ xs) acc'.
Proof.
  intros Hstep.
  induction xs as [|x xs IH]; intros seen acc σ p fuel Hinv Hs Hfuel;
    (destruct fuel as [|[|fuel]]; [simpl in Hfuel; lia..|]);
    rewrite reduce_loop_S.
  - rewrite (bind_ok _ _ _ _ _ (pull_native_nil _ _ _ _ Hs)).
    exists acc. rewrite app_nil_r. split; [pulls_eq|done].
  - rewrite (bind_ok _ _ _ _ _ (pull_native_cons _ _ _ _ _ _ Hs)).
    destruct (Hstep seen x acc (put s (Cell (Native xs) (S p)) σ) Hinv)
      as (acc1 & Hred & Hinv1).
    rewrite (bind_ok _ _ _ _ _ Hred).
    destruct (IH (seen ++ [x]) acc1
                (put s (Cell (Native xs) (S p)) σ) (S p) (S fuel))
      as (acc' & Hloop & Hinv'); [done|lookup|simpl in *; lia|].
    exists acc'. split.
    + rewrite Hloop, put_put. do 4 f_equal. simpl. lia.
    + by rewrite <- app_assoc in Hinv'.
Qed.

Lemma bucket_snoc groupKeyFn k x xs :
  bucket groupKeyFn k (xs ++ [x])
  = bucket groupKeyFn k xs
    ++ (if same_value_zero (groupKeyFn x) k then [x] else []).
Proof.
  unfold bucket. rewrite List.filter_app. cbn [List.filter].
  by destruct (same_value_zero (groupKeyFn x) k).
Qed.

(** X10. [groupBy(groupKeyFn)] drains its source when the operator is
    applied and returns a new built-in iterator over the entries of a Map
    that holds, for every key [groupKeyFn] produced, the array of the items
    sent to that key, in their order of arrival, each key once, and nothing
    for any other key.  Keys are primitives: their Map key equality is
    equality of content. *)
Theorem groupBy_collects_buckets :
  forall (groupKeyFn : value -> value) (src : value) (xs : list value)
         (σ σ1 : store) (s : ref) (p fuel : nat),
    iter src σ = Ok (s, σ1) ->
    cells σ1 !! s = Some (Cell (Native xs) p) ->
    forallb (fun v => primitive (groupKeyFn v)) xs = true ->
    length xs + 2 <= fuel ->
    exists (m : list (value * value)) (r : ref) (σ' : store),
      groupBy fuel groupKeyFn src σ = Ok (VIter r, σ')
      /\ cells σ' !! r = Some (Cell (Native (map_entries m)) 0)
      /\ NoDup m.*1
      /\ (forall k, map_get k m = bucket_entry groupKeyFn k xs)
      /\ cells σ' !! s = Some (Cell (Native []) (p + S (length xs))).
Proof.
  intros groupKeyFn src xs σ σ1 s p fuel Hiter Hs _ Hfuel.
  unfold groupBy. rewrite (bind_ok _ _ _ _ _ Hiter).
  match goal with
  | |- context [reduce fuel ?f [] (VIter s)] => set (reducerFn := f)
  end.
  destruct (reduce_loop_invariant
              (fun seen acc =>
                 NoDup acc.*1
                 /\ forall k, map_get k acc = bucket_entry groupKeyFn k seen)
              reducerFn s xs) with (seen := @nil value) (acc := @nil (value * value))
              (σ := σ1) (p := p) (fuel := fuel)
    as (m & Hloop & Hnd & Hm); [|split; [apply NoDup_nil_2|done]|done|done|].
  { intros seen x acc σ0 [Hnd Hacc]. subst reducerFn. cbv beta zeta.
    assert (forall v,
               (forall k, same_value_zero (groupKeyFn x) k = true ->
                          bucket_entry groupKeyFn k (seen ++ [x]) = Some v) ->
               forall k, map_get k (map_set (groupKeyFn x) v acc)
                         = bucket_entry groupKeyFn k (seen ++ [x])) as Hstep.
    { intros v Hv k. rewrite map_get_set.
      destruct (same_value_zero (groupKeyFn x) k) eqn:Hk; [by rewrite Hv|].
      rewrite Hacc. unfold bucket_entry. rewrite bucket_snoc, Hk.
      by rewrite app_nil_r. }
    rewrite (Hacc (groupKeyFn x)). unfold bucket_entry at 1.
    destruct (bucket groupKeyFn (groupKeyFn x) seen) as [|y b] eqn:Hb;
      eexists; (split; [reflexivity|]);
      (split; [by apply map_set_NoDup|]); apply Hstep;
      intros k Hk%same_value_zero_eq; subst k; unfold bucket_entry;
      rewrite bucket_snoc, same_value_zero_refl, Hb; reflexivity. }
  assert (reduce fuel reducerFn [] (VIter s) σ1
          = Ok (m, put s (Cell (Native []) (p + S (length xs))) σ1)) as Hred.
  { unfold reduce. by rewrite (bind_ok _ _ _ _ _ (iter_of_iterator s σ1)). }
  rewrite (bind_ok _ _ _ _ _ Hred).
  eexists m, _, _. split; [reflexivity|].
  split; [apply cells_alloc_new|]. split; [done|]. split; [done|].
  lookup.
Qed.

Lemma groupBy_collects_buckets_witness :
  exists (m : list (value * value)) (r : ref) (σ' : store),
    groupBy 5 (fun v => VBool (is_even v)) (numbers [1; 2; 3]%Z) empty_store
    = Ok (VIter r, σ')
    /\ cells σ' !! r = Some (Cell (Native (map_entries m)) 0)
    /\ NoDup m.*1
    /\ (forall k,
           map_get k m
           = bucket_entry (fun v => VBool (is_even v)) k
               [VNum 1; VNum 2; VNum 3])
    /\ cells σ' !! 0 = Some (Cell (Native []) 4).
Proof.
  apply (groupBy_collects_buckets (fun v => VBool (is_even v))
           (numbers [1; 2; 3]%Z) [VNum 1; VNum 2; VNum 3] empty_store
           (Store [Cell (Native [VNum 1; VNum 2; VNum 3]) 0] []) 0 0 5);
    [reflexivity | reflexivity | reflexivity | simpl; lia].
Defined.

(** ** intoSet *)

Lemma set_fill_S fuel elems s :
  set_fill (S fuel) elems s
  = bind (pull fuel s)
      (fun nx =>
         match nx with
         | None => ret elems
         | Some x => set_fill fuel (set_add x elems) s
         end).
Proof. reflexivity. Qed.

Lemma set_fill_native (s : ref) (xs : list value) :
  forall (elems : list value) (σ : store) (p fuel : nat),
    cells σ !! s = Some (Cell (Native xs) p) ->
    length xs + 2 <= fuel ->
    set_fill fuel elems s σ
    = Ok (fold_left (fun acc x => set_add x acc) xs elems,
          put s (Cell (Native []) (p + S (length xs))) σ).
Proof.
  induction xs as [|x xs IH]; intros elems σ p fuel Hs Hfuel;
    (destruct fuel as [|[|fuel]]; [simpl in Hfuel; lia..|]);
    rewrite set_fill_S.
  - rewrite (bind_ok _ _ _ _ _ (pull_native_nil _ _ _ _ Hs)). pulls_eq.
  - rewrite (bind_ok _ _ _ _ _ (pull_native_cons _ _ _ _ _ _ Hs)).
    rewrite (IH _ _ (S p)); [|lookup|simpl in *; lia].
    rewrite put_put. cbn [fold_left]. do 4 f_equal. simpl. lia.
Qed.

Lemma existsb_same_value_zero x elems :
  existsb (same_value_zero x) elems = true <-> x ∈ elems.
Proof.
  rewrite existsb_exists. split.
  - intros (y & Hin & ->%same_value_zero_eq). by apply list_elem_of_In.
  - intros Hin. exists x. split; [by apply list_elem_of_In|].
    apply same_value_zero_refl.
Qed.

Lemma set_add_spec x elems :
  NoDup elems ->
  NoDup (set_add x elems) /\ forall y, y ∈ set_add x elems <-> y ∈ elems \/ y = x.
Proof.
  intros Hnd. unfold set_add.
  destruct (existsb (same_value_zero x) elems) eqn:Hx.
  - apply existsb_same_value_zero in Hx. split; [done|].
    intros y. split; [by left|]. by intros [?| ->].
  - assert (x ∉ elems) as Hnot.
    { intros Hin%existsb_same_value_zero. congruence. }
    split.
    + apply NoDup_app. split; [done|]. split; [|apply NoDup_singleton].
      intros y Hy Hk%list_elem_of_singleton. by subst y.
    + intros y. rewrite elem_of_app, list_elem_of_singleton. done.
Qed.

Lemma set_add_fold (xs : list value) :
  forall elems,
    NoDup elems ->
    NoDup (fold_left (fun acc x => set_add x acc) xs elems)
    /\ forall y,
        y ∈ fold_left (fun acc x => set_add x acc) xs elems
        <-> y ∈ elems \/ y ∈ xs.
Proof.
  induction xs as [|x xs IH]; intros elems Hnd; cbn [fold_left].
  - split; [done|]. intros y. rewrite elem_of_nil. tauto.
  - destruct (set_add_spec x elems Hnd) as [Hnd1 Hin1].
    destruct (IH _ Hnd1) as [Hnd' Hin']. split; [done|].
    intros y. rewrite Hin', Hin1, elem_of_cons. tauto.
Qed.

(** X11. [intoSet] returns a Set without repetitions that has exactly the
    items of its source as elements, and the source is drained.  Items are
    primitives: their Set equality is equality of content. *)
Theorem intoSet_keeps_each_item_once :
  forall (src : value) (xs : list value) (σ σ1 : store) (s : ref)
         (p fuel : nat),
    iter src σ = Ok (s, σ1) ->
    cells σ1 !! s = Some (Cell (Native xs) p) ->
    forallb primitive xs = true ->
    length xs + 2 <= fuel ->
    exists elems : list value,
      intoSet fuel src σ
      = Ok (elems, put s (Cell (Native []) (p + S (length xs))) σ1)
      /\ NoDup elems
      /\ forall x, x ∈ elems <-> x ∈ xs.
Proof.
  intros src xs σ σ1 s p fuel Hiter Hs _ Hfuel.
  eexists. split.
  - unfold intoSet. rewrite (bind_ok _ _ _ _ _ Hiter).
    by apply set_fill_native.
  - destruct (set_add_fold xs [] (NoDup_nil_2)) as [Hnd Hin].
    split; [done|]. intros x. rewrite Hin, elem_of_nil. tauto.
Qed.

Lemma intoSet_keeps_each_item_once_witness :
  exists elems : list value,
    intoSet 5 (numbers [1; 2; 1]%Z) empty_store
    = Ok (elems, put 0 (Cell (Native []) 4)
                   (Store [Cell (Native [VNum 1; VNum 2; VNum 1]) 0] []))
    /\ NoDup elems
    /\ forall x, x ∈ elems <-> x ∈ [VNum 1; VNum 2; VNum 1].
Proof.
  apply (intoSet_keeps_each_item_once (numbers [1; 2; 1]%Z)
           [VNum 1; VNum 2; VNum 1] empty_store
           (Store [Cell (Native [VNum 1; VNum 2; VNum 1]) 0] []) 0 0 5);
    [reflexivity | reflexivity | reflexivity | simpl; lia].
Defined.

(** ** Entries that are no pairs *)

Lemma map_fill_throws (s : ref) (item : value) (rest : list value)
    (kvs : list (value * value)) :
  entry_parts item = Throw TypeError ->
  forall (m : list (value * value)) (σ : store) (p fuel : nat),
    cells σ !! s = Some (Cell (Native (pair_items kvs ++ item :: rest)) p) ->
    length kvs + 2 <= fuel ->
    map_fill fuel m s σ = Throw TypeError.
Proof.
  intros Hitem.
  induction kvs as [|[k v] kvs IH]; intros m σ p fuel Hs Hfuel;
    (destruct fuel as [|[|fuel]]; [simpl in Hfuel; lia..|]);
    rewrite map_fill_S.
  - rewrite (bind_ok _ _ _ _ _ (pull_native_cons _ _ _ _ _ _ Hs)).
    unfold bind. by rewrite Hitem.
  - rewrite (bind_ok _ _ _ _ _ (pull_native_cons _ _ _ _ _ _ Hs)).
    unfold bind at 1. cbn [fst snd entry entry_parts lift nth].
    eapply IH; [lookup|simpl in *; lia].
Qed.

Lemma reduce_loop_throws {U} (reducerFn : value -> U -> Eff U)
    (rf : value -> U -> U) (s : ref) (item : value) (rest : list value)
    (xs : list value) :
  Forall (fun x => forall acc σ, reducerFn x acc σ = Ok (rf x acc, σ)) xs ->
  (forall acc σ, reducerFn item acc σ = Throw TypeError) ->
  forall (acc : U) (σ : store) (p fuel : nat),
    cells σ !! s = Some (Cell (Native (xs ++ item :: rest)) p) ->
    length xs + 2 <= fuel ->
    reduce_loop fuel reducerFn acc s σ = Throw TypeError.
Proof.
  intros Hxs Hitem.
  induction Hxs as [|x xs Hx _ IH]; intros acc σ p fuel Hs Hfuel;
    (destruct fuel as [|[|fuel]]; [simpl in Hfuel; lia..|]);
    rewrite reduce_loop_S.
  - rewrite (bind_ok _ _ _ _ _ (pull_native_cons _ _ _ _ _ _ Hs)).
    unfold bind. by rewrite Hitem.
  - rewrite (bind_ok _ _ _ _ _ (pull_native_cons _ _ _ _ _ _ Hs)).
    rewrite (bind_ok _ _ _ _ _ (Hx acc _)).
    eapply IH; [lookup|simpl in *; lia].
Qed.

(** X12. An item that is no pair stops the materializers with a
    [TypeError], also after well-formed pairs: [intoMap] throws on a
    primitive item ([new Map] wants entry objects), and [intoObj] throws on
    an item its array pattern cannot walk ([undefined], [null], a boolean,
    a number, a plain object). *)
Theorem materializers_throw_on_an_item_that_is_no_pair :
  forall (src : value) (kvs : list (value * value)) (item : value)
         (rest : list value) (σ σ1 : store) (s : ref) (p fuel : nat),
    iter src σ = Ok (s, σ1) ->
    cells σ1 !! s = Some (Cell (Native (pair_items kvs ++ item :: rest)) p) ->
    length kvs + 2 <= fuel ->
    (primitive item = true -> intoMap fuel src σ = Throw TypeError)
    /\ (forallb (fun kv => string_or_number (fst kv)) kvs = true ->
        not_iterable item = true ->
        intoObj fuel src σ = Throw TypeError).
Proof.
  intros src kvs item rest σ σ1 s p fuel Hiter Hs Hfuel. split.
  - intros Hitem. unfold intoMap. rewrite (bind_ok _ _ _ _ _ Hiter).
    unfold bind. erewrite map_fill_throws; [done| |done|done].
    by destruct item.
  - intros Hkeys Hitem. unfold intoObj. rewrite (bind_ok _ _ _ _ _ Hiter).
    rewrite pipe_single. unfold bind at 1. unfold reduce.
    rewrite (bind_ok _ _ _ _ _ (iter_of_iterator s σ1)).
    match goal with
    | |- context [reduce_loop fuel ?f ([], false) s σ1] => set (reducerFn := f)
    end.
    assert (reduce_loop fuel reducerFn ([], false) s σ1 = Throw TypeError)
      as Hloop; [|by rewrite Hloop].
    eapply (reduce_loop_throws reducerFn
              (fun it obj =>
                 obj_assign (nth 0 (default [] (native_items it)) VUndefined)
                   (nth 1 (default [] (native_items it)) VUndefined) obj)
              s item rest (pair_items kvs)).
    + apply Forall_forall. intros x Hx acc σ0.
      apply list_elem_of_fmap in Hx as ([k v] & -> & Hkv).
      subst reducerFn. cbv beta. by rewrite intoObj_reducer_pair.
    + intros acc σ0. subst reducerFn. by destruct item.
    + done.
    + by unfold pair_items; rewrite length_fmap.
Qed.

Lemma materializers_throw_on_an_item_that_is_no_pair_witness :
  intoMap 3 (VArr [entry (VStr "a") (VNum 1); VNum 7]) empty_store
  = Throw TypeError
  /\ intoObj 3 (VArr [entry (VStr "a") (VNum 1); VNum 7]) empty_store
     = Throw TypeError.
Proof.
  destruct (materializers_throw_on_an_item_that_is_no_pair
              (VArr [entry (VStr "a") (VNum 1); VNum 7])
              [(VStr "a", VNum 1)] (VNum 7) [] empty_store
              (Store [Cell (Native [entry (VStr "a") (VNum 1); VNum 7]) 0] [])
              0 0 3) as [Hmap Hobj];
    [reflexivity | reflexivity | simpl; lia |].
  split; [apply Hmap | apply Hobj]; reflexivity.
Defined.

(** X25. Poured from a finite source of [[key, value]] pairs, the Map of
    [intoMap] binds every primitive key to the value of its last occurrence
    and has no other key; so does the object of [intoObj] when every key is
    a string other than ["__proto__"] or an integer of at most [2^53] in
    absolute value, two keys of one property name being one key:
    [intoObj([['a',1],['b',2],['a',3]])] is [{a: 3, b: 2}]. *)
Theorem materializers_keep_the_last_value_of_a_key :
  forall (src : value) (kvs : list (value * value))
         (σ σ1 : store) (s : ref) (p fuel : nat),
    iter src σ = Ok (s, σ1) ->
    cells σ1 !! s = Some (Cell (Native (pair_items kvs)) p) ->
    length kvs + 2 <= fuel ->
    (forallb (fun kv => primitive (fst kv)) kvs = true ->
     exists m σ',
       intoMap fuel src σ = Ok (VMap m, σ')
       /\ forall k,
           map_get k m = last_match (fun k' => same_value_zero k' k) kvs)
    /\ (forallb (fun kv => plain_key (fst kv)) kvs = true ->
        exists obj σ',
          intoObj fuel src σ = Ok (VObj obj, σ')
          /\ forall name,
              obj_get name obj
              = last_match (fun k' => String.eqb (key_name k') name) kvs)
    /\ result_of
         (intoObj 5
            (VArr [entry (VStr "a") (VNum 1); entry (VStr "b") (VNum 2);
                   entry (VStr "a") (VNum 3)]) empty_store)
       = Ok (VObj [("a", VNum 3); ("b", VNum 2)]).
Proof.
  intros src kvs σ σ1 s p fuel Hiter Hs Hfuel. split; [|split].
  - intros _. eexists _, _. split; [by eapply intoMap_pairs|].
    intros k. rewrite map_get_fold. destruct (last_match _ kvs); reflexivity.
  - intros Hkeys. eexists _, _. split; [by eapply intoObj_pairs|].
    intros name. rewrite (obj_get_fold name kvs []).
    destruct (last_match _ kvs); reflexivity.
  - reflexivity.
Qed.

Lemma materializers_keep_the_last_value_of_a_key_witness :
  (exists m σ',
      intoMap 5 (VArr (pair_items [(VStr "a", VNum 1); (VStr "a", VNum 3)]))
        empty_store = Ok (VMap m, σ')
      /\ forall k,
          map_get k m
          = last_match (fun k' => same_value_zero k' k)
              [(VStr "a", VNum 1); (VStr "a", VNum 3)])
  /\ (exists obj σ',
        intoObj 5 (VArr (pair_items [(VStr "a", VNum 1); (VStr "a", VNum 3)]))
          empty_store = Ok (VObj obj, σ')
        /\ forall name,
            obj_get name obj
            = last_match (fun k' => String.eqb (key_name k') name)
                [(VStr "a", VNum 1); (VStr "a", VNum 3)]).
Proof.
  destruct (materializers_keep_the_last_value_of_a_key
              (VArr (pair_items [(VStr "a", VNum 1); (VStr "a", VNum 3)]))
              [(VStr "a", VNum 1); (VStr "a", VNum 3)]
              empty_store
              (Store [Cell (Native (pair_items
                                      [(VStr "a", VNum 1); (VStr "a", VNum 3)])) 0] [])
              0 0 5 eq_refl eq_refl ltac:(simpl; lia)) as (HM & HO & _).
  split; [apply HM | apply HO]; reflexivity.
Defined.

(** ** zip and interleave of two sources *)

(** X13. [zip] of two arrays yields the pairs of their items at equal
    positions and stops with the shorter one: materialized, it has as many
    tuples as the shorter array has items. *)
Theorem zip_pairs_up_to_the_shorter_array :
  forall (xs ys : list value) (σ : store) (fuel : nat),
    length xs + 4 <= fuel ->
    exists σ',
      bind (zip [VArr xs; VArr ys]) (intoArray fuel) σ
      = Ok (VArr (tuples xs ys), σ')
      /\ length (tuples xs ys) = Nat.min (length xs) (length ys).
Proof. intros xs ys σ fuel Hfuel. by apply zip_two_plain_arrays. Qed.

Lemma zip_pairs_up_to_the_shorter_array_witness :
  exists σ',
    bind (zip [VArr [VNum 1; VNum 2]; VArr [VStr "a"]]) (intoArray 6)
      empty_store
    = Ok (VArr (tuples [VNum 1; VNum 2] [VStr "a"]), σ')
    /\ length (tuples [VNum 1; VNum 2] [VStr "a"])
       = Nat.min (length [VNum 1; VNum 2]) (length [VStr "a"]).
Proof.
  apply (zip_pairs_up_to_the_shorter_array [VNum 1; VNum 2] [VStr "a"]
           empty_store 6).
  simpl. lia.
Defined.

(** X14. [interleave] of two distinct iterators alternates their items
    round by round and stops at the first round in which one of them is
    done: the items of complete rounds only. *)
Theorem interleave_alternates_two_iterators :
  forall (a b : ref) (xs ys : list value) (σ : store) (pa pb fuel : nat),
    a <> b ->
    cells σ !! a = Some (Cell (Native xs) pa) ->
    cells σ !! b = Some (Cell (Native ys) pb) ->
    2 * length xs + 4 <= fuel ->
    exists σ',
      bind (interleave [VIter a; VIter b]) (intoArray fuel) σ
      = Ok (VArr (rounds xs ys), σ').
Proof. intros. by eapply interleave_two_iterators. Qed.

Lemma interleave_alternates_two_iterators_witness :
  exists σ',
    bind (interleave [VIter 0; VIter 1]) (intoArray 8)
      (Store [Cell (Native [VNum 1; VNum 2]) 0; Cell (Native [VStr "a"]) 0] [])
    = Ok (VArr (rounds [VNum 1; VNum 2] [VStr "a"]), σ').
Proof.
  apply (interleave_alternates_two_iterators 0 1 [VNum 1; VNum 2] [VStr "a"]
           (Store [Cell (Native [VNum 1; VNum 2]) 0;
                   Cell (Native [VStr "a"]) 0] []) 0 0 8);
    [lia | reflexivity | reflexivity | simpl; lia].
Defined.

(** ** tap *)

Lemma cells_log v σ : cells (log v σ) = cells σ.
Proof. reflexivity. Qed.

Ltac lookup_logged :=
  repeat first
    [ eassumption
    | rewrite cells_log
    | rewrite cells_put_ne by (congruence || lia)
    | eapply cells_put_eq
    | eapply cells_extend ].

Lemma tap_loop_native (s t : ref) (fuel : nat) (σ : store)
    (xs : list value) (p ps : nat) :
  s <> t ->
  cells σ !! t = Some (Cell (TapLoop s) p) ->
  cells σ !! s = Some (Cell (Native xs) ps) ->
  exists σ',
    resume_frame (run (S fuel)) t (TapLoop s) σ = Ok (head xs, σ')
    /\ cells σ' !! t
       = Some (Cell (match xs with [] => Closed | _ :: _ => TapLoop s end) p)
    /\ cells σ' !! s = Some (Cell (Native (tail xs)) (S ps))
    /\ trace σ' = trace σ ++ option_list (head xs).
Proof.
  intros Hne Ht Hs. cbn [resume_frame].
  change (next (run (S fuel)) s) with (pull (S fuel) s).
  rewrite (bind_ok _ _ _ _ _ (pull_native _ _ _ _ _ Hs)).
  destruct xs as [|x xs]; cbn [head tail option_list].
  - unfold finish. erewrite set_frame_put by lookup. cbn [pulls].
    eexists. split; [reflexivity|].
    split; [lookup|]. split; [lookup|]. by rewrite app_nil_r.
  - unfold bind, modify, yield.
    erewrite set_frame_put by lookup_logged. cbn [pulls].
    eexists. split; [reflexivity|].
    split; [lookup_logged|]. split; [lookup_logged|]. reflexivity.
Qed.

Lemma pull_tap (s t : ref) (fuel : nat) (σ : store) (g : gen)
    (xs : list value) (pt ps : nat) :
  s <> t ->
  cells σ !! t = Some (Cell g pt) ->
  tap_at s xs g ->
  cells σ !! s = Some (Cell (Native xs) ps) ->
  exists σ',
    pull (S (S (S fuel))) t σ = Ok (head xs, σ')
    /\ cells σ' !! t
       = Some (Cell (match xs with [] => Closed | _ :: _ => TapLoop s end)
                 (S pt))
    /\ cells σ' !! s = Some (Cell (Native (tail xs)) (ps + source_pulls g xs 1))
    /\ trace σ' = trace σ ++ option_list (head xs).
Proof.
  intros Hne Ht Hg Hs.
  rewrite (pull_unfold _ _ _ _ Ht). cbn [frame pulls].
  destruct Hg as [-> | [-> | [-> ->]]].
  - cbn [resume_frame].
    rewrite (bind_ok _ _ _ _ _ (iter_of_iterator s _)).
    unfold goto. erewrite set_frame_put by lookup. cbn [pulls].
    rewrite put_put. erewrite run_unfold by lookup. cbn [frame].
    destruct (tap_loop_native s t fuel
                (put t (Cell (TapLoop s) (S pt)) σ) xs (S pt) ps)
      as (σ' & Hrun & Ht' & Hs' & Htr); [done|lookup..|].
    exists σ'. split; [done|]. split; [done|]. split; [|done].
    rewrite Hs'. unfold source_pulls. do 3 f_equal. simpl. lia.
  - destruct (tap_loop_native s t (S fuel)
                (put t (Cell (TapLoop s) (S pt)) σ) xs (S pt) ps)
      as (σ' & Hrun & Ht' & Hs' & Htr); [done|lookup..|].
    exists σ'. split; [done|]. split; [done|]. split; [|done].
    rewrite Hs'. unfold source_pulls. do 3 f_equal. simpl. lia.
  - cbn [resume_frame head tail option_list]. unfold ret.
    eexists. split; [reflexivity|].
    split; [lookup|]. split; [|by rewrite app_nil_r].
    cbn [source_pulls]. rewrite Nat.add_0_r. lookup.
Qed.

Lemma nexts_tap (s t : ref) (fuel k : nat) :
  forall (xs : list value) (σ : store) (g : gen) (pt ps : nat),
    s <> t ->
    cells σ !! t = Some (Cell g pt) ->
    tap_at s xs g ->
    cells σ !! s = Some (Cell (Native xs) ps) ->
    exists σ',
      nexts (S (S (S fuel))) k (VIter t) σ = Ok (answers xs k, σ')
      /\ trace σ' = trace σ ++ firstn k xs
      /\ cells σ' !! s
         = Some (Cell (Native (skipn k xs)) (ps + source_pulls g xs k)).
Proof.
  induction k as [|k IH]; intros xs σ g pt ps Hne Ht Hg Hs.
  - exists σ. split; [reflexivity|]. split; [by rewrite firstn_O, app_nil_r|].
    rewrite skipn_O, Hs. do 3 f_equal.
    destruct g; cbn [source_pulls]; lia.
  - rewrite nexts_S. cbn [call_next].
    destruct (pull_tap s t fuel σ g xs pt ps Hne Ht Hg Hs)
      as (σ1 & Hpull & Ht1 & Hs1 & Htr1).
    rewrite (bind_ok _ _ _ _ _ Hpull).
    assert (tap_at s (tail xs)
              (match xs with [] => Closed | _ :: _ => TapLoop s end)) as Hg1.
    { destruct xs; [by right; right|by right; left]. }
    destruct (IH (tail xs) σ1 _ _ _ Hne Ht1 Hg1 Hs1)
      as (σ' & Hnexts & Htr' & Hs').
    rewrite (bind_ok _ _ _ _ _ Hnexts). exists σ'.
    split; [reflexivity|]. split.
    + rewrite Htr', Htr1, <- app_assoc. f_equal.
      destruct xs as [|x xs]; cbn [head tail option_list];
        [by rewrite !firstn_nil | by rewrite firstn_cons].
    + rewrite Hs'. f_equal. f_equal;
        [destruct xs as [|x xs]; cbn [tail];
         [by rewrite !skipn_nil | by rewrite skipn_cons]|].
      destruct xs as [|x xs]; destruct Hg as [-> | [-> | [-> Hxs]]];
        try discriminate; cbn [source_pulls tail length]; lia.
Qed.

(** X15. [tap] calls its callback on an item when, and only when, that
    item is asked for: after [k] calls of [next()] on [tap(cb)(src)] the
    consumer has received the first [k] items unchanged (done once they are
    used up), the callback has been called on exactly those items, in
    order, and the source has received one [next()] per call until it
    reported done. *)
Theorem tap_calls_back_on_demand :
  forall (s : ref) (xs : list value) (σ : store) (p k fuel : nat),
    cells σ !! s = Some (Cell (Native xs) p) ->
    exists σ',
      bind (tap (VIter s)) (nexts (S (S (S fuel))) k) σ
      = Ok (answers xs k, σ')
      /\ trace σ' = trace σ ++ firstn k xs
      /\ cells σ' !! s
         = Some (Cell (Native (skipn k xs))
                   (p + Nat.min k (S (length xs)))).
Proof.
  intros s xs σ p k fuel Hs. unfold tap.
  rewrite (bind_ok _ _ _ _ _ (generator_ok _ σ)).
  apply (nexts_tap s (length (cells σ)) fuel k xs
           (Store (cells σ ++ [Cell (TapStart (VIter s)) 0]) (trace σ))
           (TapStart (VIter s)) 0 p).
  - apply lookup_lt_Some in Hs. lia.
  - apply cells_alloc_new.
  - by left.
  - lookup.
Qed.

Lemma tap_calls_back_on_demand_witness :
  exists σ',
    bind (tap (VIter 0)) (nexts 3 2)
      (Store [Cell (Native [VNum 1; VNum 2; VNum 3]) 0] [])
    = Ok (answers [VNum 1; VNum 2; VNum 3] 2, σ')
    /\ trace σ' = [] ++ firstn 2 [VNum 1; VNum 2; VNum 3]
    /\ cells σ' !! 0
       = Some (Cell (Native (skipn 2 [VNum 1; VNum 2; VNum 3]))
                 (0 + Nat.min 2 (S (length [VNum 1; VNum 2; VNum 3])))).
Proof.
  apply (tap_calls_back_on_demand 0 [VNum 1; VNum 2; VNum 3]
           (Store [Cell (Native [VNum 1; VNum 2; VNum 3]) 0] []) 0 2 0).
  reflexivity.
Defined.

(** ** Pipelines

    A generator reads the cells of its source, below it in the store, and
    its own; what it does is independent of what lies above. *)

Section Layout.
Context (t : ref) (A : list cell) (c : cell) (Q : list cell) (tr : list value).
Hypothesis HA : length A = t.

Lemma lookup_mid : cells (Store (A ++ c :: Q) tr) !! t = Some c.
Proof. subst t. simpl. apply list_lookup_middle. done. Qed.

Lemma put_mid c' :
  put t c' (Store (A ++ c :: Q) tr) = Store (A ++ c' :: Q) tr.
Proof.
  subst t. unfold put. cbn [cells trace]. f_equal.
  rewrite insert_app_r_alt by lia. by rewrite Nat.sub_diag.
Qed.

Lemma run_mid fuel :
  run (S fuel) t (Store (A ++ c :: Q) tr)
  = resume_frame (run fuel) t (frame c) (Store (A ++ c :: Q) tr).
Proof. apply run_unfold, lookup_mid. Qed.

Lemma pull_is_run fuel :
  pull fuel t (Store (A ++ c :: Q) tr)
  = run fuel t (Store (A ++ Cell (frame c) (S (pulls c)) :: Q) tr).
Proof.
  unfold pull, next. by rewrite (bump_put _ _ _ lookup_mid), put_mid.
Qed.

Lemma finish_mid :
  finish t (Store (A ++ c :: Q) tr)
  = Ok (None, Store (A ++ Cell Closed (pulls c) :: Q) tr).
Proof.
  unfold finish. by rewrite (set_frame_put _ _ _ lookup_mid), put_mid.
Qed.

Lemma yield_mid v g :
  yield t v g (Store (A ++ c :: Q) tr)
  = Ok (Some v, Store (A ++ Cell g (pulls c) :: Q) tr).
Proof.
  unfold yield. by rewrite (set_frame_put _ _ _ lookup_mid), put_mid.
Qed.

Lemma goto_mid (resume : ref -> Eff step) g :
  goto resume t g (Store (A ++ c :: Q) tr)
  = resume t (Store (A ++ Cell g (pulls c) :: Q) tr).
Proof.
  unfold goto. by rewrite (set_frame_put _ _ _ lookup_mid), put_mid.
Qed.
End Layout.

Lemma put_low (r : ref) (c' : cell) (A Q : list cell) (tr : list value) :
  r < length A ->
  put r c' (Store (A ++ Q) tr) = Store (<[r:=c']> A ++ Q) tr.
Proof. intros Hr. unfold put. cbn [cells trace]. by rewrite insert_app_l. Qed.

Lemma lookup_low (r : ref) (c : cell) (A Q : list cell) (tr : list value) :
  A !! r = Some c -> cells (Store (A ++ Q) tr) !! r = Some c.
Proof. intros H. simpl. by apply lookup_app_l_Some. Qed.

(** A built-in iterator feeds its items and then is done. *)
Lemma native_feeds (s : ref) (xs : list value) :
  forall (A : list cell) (p : nat),
    A !! s = Some (Cell (Native xs) p) -> feeds s xs true A.
Proof.
  induction xs as [|x xs IH]; intros A p Hs;
    pose proof (lookup_lt_Some _ _ _ Hs) as Hlt; cbn [feeds].
  - exists 1, (<[s:=Cell (Native []) (S p)]> A), [].
    split; [by rewrite length_insert|].
    intros fuel Q tr Hfuel. destruct fuel; [lia|].
    rewrite (pull_native_nil _ _ _ _ (lookup_low _ _ _ Q tr Hs)).
    by rewrite put_low, app_nil_r.
  - exists 1, (<[s:=Cell (Native xs) (S p)]> A), [].
    split; [by rewrite length_insert|]. split.
    + intros fuel Q tr Hfuel. destruct fuel; [lia|].
      rewrite (pull_native_cons _ _ _ _ _ _ (lookup_low _ _ _ Q tr Hs)).
      by rewrite put_low, app_nil_r.
    + eapply IH. by apply list_lookup_insert_eq.
Qed.

(** [iterate] feeds any number of items. *)
Lemma iterate_feeds (itrFn : value -> value) (r : ref) (k : nat) :
  forall (i : value) (A : list cell) (g : gen) (p : nat),
    A !! r = Some (Cell g p) ->
    g = IterateStart itrFn i \/ (exists j, g = IterateYield itrFn j /\ i = itrFn j) ->
    feeds r (iterates itrFn i k) false A.
Proof.
  induction k as [|k IH]; intros i A g p Hr Hg; [done|].
  pose proof (lookup_lt_Some _ _ _ Hr) as Hlt. cbn [iterates feeds].
  exists 1, (<[r:=Cell (IterateYield itrFn i) (S p)]> A), [].
  split; [by rewrite length_insert|]. split.
  - intros fuel Q tr Hfuel. destruct fuel; [lia|].
    rewrite (pull_unfold _ _ _ _ (lookup_low _ _ _ Q tr Hr)).
    cbn [frame pulls].
    assert (resume_frame (run fuel) r g
              (put r (Cell g (S p)) (Store (A ++ Q) tr))
            = yield r i (IterateYield itrFn i)
                (put r (Cell g (S p)) (Store (A ++ Q) tr))) as ->.
    { destruct Hg as [-> | (j & -> & ->)]; reflexivity. }
    unfold yield. erewrite set_frame_put by (eapply cells_put_eq, lookup_low, Hr).
    cbn [pulls]. by rewrite put_put, put_low, app_nil_r.
  - eapply IH; [by apply list_lookup_insert_eq|]. right. by eexists.
Qed.

(** Materializing what an iterator feeds. *)
Lemma drain_feeds (r : ref) (xs : list value) :
  forall (A : list cell),
    feeds r xs true A ->
    exists f0, forall fuel Q tr,
      f0 <= fuel ->
      exists σ', drain fuel r (Store (A ++ Q) tr) = Ok (xs, σ').
Proof.
  induction xs as [|x xs IH]; intros A Hfeeds; cbn [feeds] in Hfeeds.
  - destruct Hfeeds as (f0 & A1 & lg & Hlen & Hpull).
    exists (S f0). intros fuel Q tr Hfuel. destruct fuel; [lia|].
    rewrite drain_S, (bind_ok _ _ _ _ _ (Hpull fuel Q tr ltac:(lia))).
    by eexists.
  - destruct Hfeeds as (f0 & A1 & lg & Hlen & Hpull & Hrest).
    destruct (IH A1 Hrest) as (f1 & Hdrain).
    exists (S (Nat.max f0 f1)). intros fuel Q tr Hfuel. destruct fuel; [lia|].
    rewrite drain_S, (bind_ok _ _ _ _ _ (Hpull fuel Q tr ltac:(lia))).
    destruct (Hdrain fuel Q (tr ++ lg) ltac:(lia)) as (σ' & Hσ').
    rewrite (bind_ok _ _ _ _ _ Hσ'). by eexists.
Qed.

(** *** Loops over the items of a source

    [map], [tap], [filter], [remove] and [dropWhile] have one shape: pull
    the source; on done finish; on an item yield something or go round
    again. *)
Section Transducer.
Context {St : Type} (t s : ref) (fin : bool).
Context (frame_of : St -> gen).
Context (react : St -> value -> option value * list value * St).
Hypothesis Hloop : forall st fuel σ,
  resume_frame (run fuel) t (frame_of st) σ
  = bind (pull fuel s)
      (fun nx σ' =>
         match nx with
         | None => finish t σ'
         | Some it =>
           match react st it with
           | (Some y, lg, st') =>
             yield t y (frame_of st') (Store (cells σ') (trace σ' ++ lg))
           | (None, lg, st') =>
             goto (run fuel) t (frame_of st')
               (Store (cells σ') (trace σ' ++ lg))
           end
         end) σ.

Lemma transducer_run (xs : list value) :
  forall (st : St) (A : list cell) (pt : nat),
    length A = t ->
    feeds s xs fin A ->
    match transduce react st xs with
    | [] =>
      fin = true ->
      exists (f0 : nat) (A1 : list cell) (lg : list value),
        length A1 = t
        /\ forall fuel Q tr,
            f0 <= fuel ->
            run fuel t (Store (A ++ Cell (frame_of st) pt :: Q) tr)
            = Ok (None, Store (A1 ++ Cell Closed pt :: Q) (tr ++ lg))
    | y :: ys =>
      exists (f0 : nat) (A1 : list cell) (lg : list value) (st1 : St)
             (xs1 : list value),
        length A1 = t
        /\ (forall fuel Q tr,
               f0 <= fuel ->
               run fuel t (Store (A ++ Cell (frame_of st) pt :: Q) tr)
               = Ok (Some y,
                     Store (A1 ++ Cell (frame_of st1) pt :: Q) (tr ++ lg)))
        /\ feeds s xs1 fin A1
        /\ transduce react st1 xs1 = ys
    end.
Proof.
  induction xs as [|x xs IH]; intros st A pt HA Hsrc; cbn [feeds] in Hsrc.
  - cbn [transduce]. intros ->.
    destruct Hsrc as (f0 & A1 & lg & Hlen & Hpull).
    exists (S f0), A1, lg. split; [congruence|].
    intros fuel Q tr Hfuel. destruct fuel; [lia|].
    rewrite (run_mid t A _ Q tr HA). cbn [frame]. rewrite Hloop.
    rewrite (bind_ok _ _ _ _ _ (Hpull fuel _ tr ltac:(lia))).
    apply finish_mid. congruence.
  - destruct Hsrc as (f0 & A1 & lg1 & Hlen & Hpull & Hrest).
    assert (length A1 = t) as HA1 by congruence.
    cbn [transduce].
    destruct (react st x) as [[[y|] lg2] st'] eqn:Hreact.
    + exists (S f0), A1, (lg1 ++ lg2), st', xs. split; [done|].
      split; [|done].
      intros fuel Q tr Hfuel. destruct fuel; [lia|].
      rewrite (run_mid t A _ Q tr HA). cbn [frame]. rewrite Hloop.
      rewrite (bind_ok _ _ _ _ _ (Hpull fuel _ tr ltac:(lia))).
      rewrite Hreact. cbn [cells trace].
      rewrite (yield_mid t A1 _ Q _ HA1). by rewrite app_assoc.
    + specialize (IH st' A1 pt HA1 Hrest).
      destruct (transduce react st' xs) as [|y ys].
      * intros Hfin. destruct (IH Hfin) as (f1 & A2 & lg3 & HA2 & Hrun).
        exists (S (Nat.max f0 f1)), A2, (lg1 ++ lg2 ++ lg3).
        split; [done|].
        intros fuel Q tr Hfuel. destruct fuel; [lia|].
        rewrite (run_mid t A _ Q tr HA). cbn [frame]. rewrite Hloop.
        rewrite (bind_ok _ _ _ _ _ (Hpull fuel _ tr ltac:(lia))).
        rewrite Hreact. cbn [cells trace].
        rewrite (goto_mid t A1 _ Q _ HA1). cbn [pulls].
        rewrite Hrun by lia. by rewrite <- !app_assoc.
      * destruct IH as (f1 & A2 & lg3 & st1 & xs1 & HA2 & Hrun & Hfeeds & Hout).
        exists (S (Nat.max f0 f1)), A2, (lg1 ++ lg2 ++ lg3), st1, xs1.
        split; [done|]. split; [|done].
        intros fuel Q tr Hfuel. destruct fuel; [lia|].
        rewrite (run_mid t A _ Q tr HA). cbn [frame]. rewrite Hloop.
        rewrite (bind_ok _ _ _ _ _ (Hpull fuel _ tr ltac:(lia))).
        rewrite Hreact. cbn [cells trace].
        rewrite (goto_mid t A1 _ Q _ HA1). cbn [pulls].
        rewrite Hrun by lia. by rewrite <- !app_assoc.
Qed.

Lemma transducer_feeds (ys : list value) :
  forall (xs : list value) (st : St) (A : list cell) (pt : nat) (g : gen)
         (c : nat),
    length A = t ->
    feeds s xs fin A ->
    transduce react st xs = ys ->
    (forall fuel A' pt' Q tr,
        length A' = t ->
        run (c + fuel) t (Store (A' ++ Cell g pt' :: Q) tr)
        = run fuel t (Store (A' ++ Cell (frame_of st) pt' :: Q) tr)) ->
    feeds t ys fin (A ++ [Cell g pt]).
Proof.
  induction ys as [|y ys IH]; intros xs st A pt g c HA Hsrc Hout Henter;
    pose proof (transducer_run xs st A (S pt) HA Hsrc) as Hrun;
    rewrite Hout in Hrun; cbn [feeds].
  - destruct fin eqn:Hfin; [|done].
    destruct (Hrun eq_refl) as (f0 & A1 & lg & HA1 & Hrun1).
    exists (c + f0), (A1 ++ [Cell Closed (S pt)]), lg.
    split; [rewrite !length_app; cbn; lia|].
    intros fuel Q tr Hfuel. rewrite <- !app_assoc. cbn [app].
    rewrite (pull_is_run t A _ Q tr HA). cbn [frame pulls].
    replace fuel with (c + (fuel - c)) by lia.
    rewrite (Henter _ _ _ _ _ HA). by rewrite Hrun1 by lia.
  - destruct Hrun as (f0 & A1 & lg & st1 & xs1 & HA1 & Hrun1 & Hfeeds & Hout1).
    exists (c + f0), (A1 ++ [Cell (frame_of st1) (S pt)]), lg.
    split; [rewrite !length_app; cbn; lia|]. split.
    + intros fuel Q tr Hfuel. rewrite <- !app_assoc. cbn [app].
      rewrite (pull_is_run t A _ Q tr HA). cbn [frame pulls].
      replace fuel with (c + (fuel - c)) by lia.
      rewrite (Henter _ _ _ _ _ HA). by rewrite Hrun1 by lia.
    + by apply (IH xs1 st1 A1 (S pt) (frame_of st1) 0).
Qed.
End Transducer.

Lemma transduce_map mapFn st xs : transduce (map_react mapFn) st xs = mapFn <$> xs.
Proof. induction xs as [|x xs IH]; [done|]. cbn. by rewrite IH. Qed.

Lemma transduce_tap st xs : transduce tap_react st xs = xs.
Proof. induction xs as [|x xs IH]; [done|]. cbn. by rewrite IH. Qed.

Lemma transduce_filter predFn st xs :
  transduce (filter_react predFn) st xs = List.filter predFn xs.
Proof.
  induction xs as [|x xs IH]; [done|]. cbn [transduce filter_react List.filter].
  destruct (predFn x); by rewrite IH.
Qed.

Lemma transduce_remove predFn st xs :
  transduce (remove_react predFn) st xs
  = List.filter (fun x => negb (predFn x)) xs.
Proof.
  induction xs as [|x xs IH]; [done|]. cbn [transduce remove_react List.filter].
  destruct (predFn x); cbn [negb]; by rewrite IH.
Qed.

Lemma transduce_dropWhile_ended predFn xs :
  transduce (dropWhile_react predFn) true xs = xs.
Proof.
  induction xs as [|x xs IH]; [done|]. cbn [transduce].
  assert (dropWhile_react predFn true x = (Some x, [], true)) as ->.
  { unfold dropWhile_react. by rewrite orb_true_r. }
  by rewrite IH.
Qed.

Lemma transduce_dropWhile predFn xs :
  transduce (dropWhile_react predFn) false xs = drop_while predFn xs.
Proof.
  induction xs as [|x xs IH]; [done|]. cbn [transduce drop_while].
  assert (dropWhile_react predFn false x
          = if predFn x then (None, [], false) else (Some x, [], true)) as ->.
  { unfold dropWhile_react. by destruct (predFn x). }
  destruct (predFn x); [done|]. by rewrite transduce_dropWhile_ended.
Qed.

(** *** take *)

Section TakeOverFeed.
Context (n : Z) (s t : ref).

Lemma pull_take_mid fuel A g pt i Q tr :
  length A = t ->
  take_at n s g i ->
  pull (S fuel) t (Store ((A ++ [Cell g pt]) ++ Q) tr)
  = take_loop (run fuel) t n i s (Store (A ++ Cell g (S pt) :: Q) tr).
Proof.
  intros HA Hg. rewrite <- app_assoc. cbn [app].
  rewrite (pull_is_run t A _ Q tr HA), (run_mid t A _ Q tr HA).
  cbn [frame pulls].
  destruct Hg as [[-> ->] | ->]; cbn [resume_frame].
  - by rewrite (bind_ok _ _ _ _ _ (iter_of_iterator s _)).
  - by replace (i - 1 + 1)%Z with i by lia.
Qed.

Lemma take_ends_when_full A g pt i :
  length A = t -> take_at n s g i -> (n <= i)%Z -> ends t (A ++ [Cell g pt]).
Proof.
  intros HA Hg Hi. exists 1, (A ++ [Cell Closed (S pt)]), [].
  split; [by rewrite !length_app|].
  intros fuel Q tr Hfuel. destruct fuel; [lia|].
  rewrite (pull_take_mid _ _ _ _ i) by done. unfold take_loop.
  destruct (Z.ltb_spec i n); [lia|].
  rewrite (finish_mid t A _ Q tr HA). cbn [pulls].
  by rewrite <- app_assoc, app_nil_r.
Qed.

Lemma take_feeds (fin fin' : bool) (xs : list value) :
  forall (i : Z) (A : list cell) (pt : nat) (g : gen),
    length A = t ->
    feeds s xs fin A ->
    take_at n s g i ->
    (fin' = true -> fin = false -> Z.to_nat (n - i) <= length xs) ->
    feeds t (firstn (Z.to_nat (n - i)) xs) fin' (A ++ [Cell g pt]).
Proof.
  induction xs as [|x xs IH]; intros i A pt g HA Hsrc Hg Hlen;
    cbn [feeds] in Hsrc.
  - rewrite firstn_nil. cbn [feeds]. destruct fin'; [|done].
    destruct (Z.ltb_spec i n) as [Hi|Hi];
      [|by eapply take_ends_when_full].
    destruct fin; [|specialize (Hlen eq_refl eq_refl); simpl in Hlen; lia].
    destruct Hsrc as (f0 & A1 & lg & HA1 & Hpull).
    exists (S f0), (A1 ++ [Cell Closed (S pt)]), lg.
    split; [rewrite !length_app; cbn; lia|].
    intros fuel Q tr Hfuel. destruct fuel; [lia|].
    rewrite (pull_take_mid _ _ _ _ i) by done. unfold take_loop.
    destruct (Z.ltb_spec i n); [|lia].
    change (next (run fuel) s) with (pull fuel s).
    rewrite (bind_ok _ _ _ _ _ (Hpull fuel _ tr ltac:(lia))).
    rewrite (finish_mid t A1 _ Q _ ltac:(congruence)). cbn [pulls].
    by rewrite <- app_assoc.
  - destruct (Z.ltb_spec i n) as [Hi|Hi].
    + replace (Z.to_nat (n - i)) with (S (Z.to_nat (n - (i + 1)))) by lia.
      rewrite firstn_cons. cbn [feeds].
      destruct Hsrc as (f0 & A1 & lg & HA1 & Hpull & Hrest).
      exists (S f0), (A1 ++ [Cell (TakeYield n i s) (S pt)]), lg.
      split; [rewrite !length_app; cbn; lia|]. split.
      * intros fuel Q tr Hfuel. destruct fuel; [lia|].
        rewrite (pull_take_mid _ _ _ _ i) by done. unfold take_loop.
        destruct (Z.ltb_spec i n); [|lia].
        change (next (run fuel) s) with (pull fuel s).
        rewrite (bind_ok _ _ _ _ _ (Hpull fuel _ tr ltac:(lia))).
        rewrite (yield_mid t A1 _ Q _ ltac:(congruence)). cbn [pulls].
        by rewrite <- app_assoc.
      * apply IH; [congruence|done| |].
        -- right. f_equal. lia.
        -- intros Hout Hfin. specialize (Hlen Hout Hfin). simpl in Hlen. lia.
    + replace (Z.to_nat (n - i)) with 0 by lia. rewrite firstn_O.
      cbn [feeds]. destruct fin'; [|done]. by eapply take_ends_when_full.
Qed.
End TakeOverFeed.

(** *** interpose *)

Section InterposeOverFeed.
Context (separator : value) (s t : ref) (fin : bool).

Lemma interpose_loop_feeds (xs : list value) :
  forall (A : list cell) (pt : nat),
    length A = t ->
    feeds s xs fin A ->
    feeds t (flat_map (fun y => [separator; y]) xs) fin
      (A ++ [Cell (InterposeLoop separator s false) pt]).
Proof.
  induction xs as [|x xs IH]; intros A pt HA Hsrc; cbn [feeds] in Hsrc.
  - cbn [flat_map feeds]. destruct fin; [|done].
    destruct Hsrc as (f0 & A1 & lg & HA1 & Hpull).
    exists (S f0), (A1 ++ [Cell Closed (S pt)]), lg.
    split; [rewrite !length_app; cbn; lia|].
    intros fuel Q tr Hfuel. destruct fuel; [lia|].
    rewrite <- !app_assoc. cbn [app].
    rewrite (pull_is_run t A _ Q tr HA), (run_mid t A _ Q tr HA).
    cbn [frame pulls resume_frame].
    change (next (run fuel) s) with (pull fuel s).
    rewrite (bind_ok _ _ _ _ _ (Hpull fuel _ tr ltac:(lia))).
    by rewrite (finish_mid t A1 _ Q _ ltac:(congruence)).
  - destruct Hsrc as (f0 & A1 & lg & HA1 & Hpull & Hrest).
    assert (length A1 = t) as HA1' by congruence.
    cbn [flat_map app feeds].
    exists (S f0), (A1 ++ [Cell (InterposePending separator s x) (S pt)]), lg.
    split; [rewrite !length_app; cbn; lia|]. split.
    { intros fuel Q tr Hfuel. destruct fuel; [lia|].
      rewrite <- !app_assoc. cbn [app].
      rewrite (pull_is_run t A _ Q tr HA), (run_mid t A _ Q tr HA).
      cbn [frame pulls resume_frame].
      change (next (run fuel) s) with (pull fuel s).
      rewrite (bind_ok _ _ _ _ _ (Hpull fuel _ tr ltac:(lia))).
      by rewrite (yield_mid t A1 _ Q _ HA1'). }
    exists 1, (A1 ++ [Cell (InterposeLoop separator s false) (S (S pt))]), [].
    split; [by rewrite !length_app|]. split.
    { intros fuel Q tr Hfuel. destruct fuel; [lia|].
      rewrite <- !app_assoc. cbn [app].
      rewrite (pull_is_run t A1 _ Q tr HA1'), (run_mid t A1 _ Q tr HA1').
      cbn [frame pulls resume_frame].
      by rewrite (yield_mid t A1 _ Q _ HA1'), app_nil_r. }
    by apply IH.
Qed.

Lemma interpose_feeds (xs : list value) (A : list cell) (pt : nat) (g : gen) :
  length A = t ->
  feeds s xs fin A ->
  g = InterposeStart separator (VIter s) \/ g = InterposeLoop separator s true ->
  feeds t (interposed separator xs) fin (A ++ [Cell g pt]).
Proof.
  intros HA Hsrc Hg.
  assert (exists c, forall fuel Q tr,
             pull (c + S fuel) t (Store ((A ++ [Cell g pt]) ++ Q) tr)
             = bind (pull fuel s)
                 (fun nx =>
                    match nx with
                    | None => finish t
                    | Some it =>
                      yield t it (InterposeLoop separator s false)
                    end)
                 (Store (A ++ Cell (InterposeLoop separator s true) (S pt) :: Q)
                    tr)) as [c Hrun].
  { destruct Hg as [-> | ->]; [exists 1|exists 0]; intros fuel Q tr;
      rewrite <- app_assoc; cbn [app Nat.add];
      rewrite (pull_is_run t A _ Q tr HA), (run_mid t A _ Q tr HA);
      cbn [frame pulls resume_frame].
    - rewrite (bind_ok _ _ _ _ _ (iter_of_iterator s _)).
      rewrite (goto_mid t A _ Q tr HA). cbn [pulls].
      by rewrite (run_mid t A _ Q tr HA).
    - reflexivity. }
  destruct xs as [|x xs]; cbn [feeds] in Hsrc; cbn [interposed feeds].
  - destruct fin; [|done].
    destruct Hsrc as (f0 & A1 & lg & HA1 & Hpull).
    exists (c + S f0), (A1 ++ [Cell Closed (S pt)]), lg.
    split; [rewrite !length_app; cbn; lia|].
    intros fuel Q tr Hfuel.
    replace fuel with (c + S (fuel - c - 1)) by lia. rewrite Hrun.
    rewrite (bind_ok _ _ _ _ _ (Hpull (fuel - c - 1) _ tr ltac:(lia))).
    rewrite (finish_mid t A1 _ Q _ ltac:(congruence)).
    by rewrite <- app_assoc.
  - destruct Hsrc as (f0 & A1 & lg & HA1 & Hpull & Hrest).
    exists (c + S f0), (A1 ++ [Cell (InterposeLoop separator s false) (S pt)]), lg.
    split; [rewrite !length_app; cbn; lia|]. split.
    + intros fuel Q tr Hfuel.
      replace fuel with (c + S (fuel - c - 1)) by lia. rewrite Hrun.
      rewrite (bind_ok _ _ _ _ _ (Hpull (fuel - c - 1) _ tr ltac:(lia))).
      rewrite (yield_mid t A1 _ Q _ ltac:(congruence)).
      by rewrite <- app_assoc.
    + apply interpose_loop_feeds; [congruence|done].
Qed.
End InterposeOverFeed.

(** *** Every lazy operator *)

Lemma enters_loop (t s : ref) (start loop : gen) fuel A pt Q tr :
  length A = t ->
  (forall resume σ,
      resume_frame resume t start σ
      = bind (iter (VIter s)) (fun itr_ => goto resume t loop) σ) ->
  run (1 + fuel) t (Store (A ++ Cell start pt :: Q) tr)
  = run fuel t (Store (A ++ Cell loop pt :: Q) tr).
Proof.
  intros HA Hstart. cbn [Nat.add].
  rewrite (run_mid t A _ Q tr HA). cbn [frame]. rewrite Hstart.
  rewrite (bind_ok _ _ _ _ _ (iter_of_iterator s _)).
  by rewrite (goto_mid t A _ Q tr HA).
Qed.

Lemma lazy_op_feeds (fin : bool) (op : lazy_op) (s : ref) (xs : list value)
    (A : list cell) :
  feeds s xs fin A ->
  feeds (length A) (denote op xs) fin
    (A ++ [Cell (start_frame op (VIter s)) 0]).
Proof.
  intros Hsrc. destruct op as [n|predFn|mapFn| |predFn|predFn|separator];
    cbn [denote start_frame].
  - replace (Z.to_nat n) with (Z.to_nat (n - 0)) by lia.
    apply (take_feeds n s (length A) fin fin xs 0); [done|done|by left|].
    by destruct fin.
  - apply (transducer_feeds (length A) s fin
             (fun dropEnded => DropWhileLoop predFn s dropEnded)
             (dropWhile_react predFn)) with (xs := xs) (st := false) (c := 1);
      [|done|done|apply transduce_dropWhile|].
    + intros st fuel σ. cbn [resume_frame]. apply bind_ext.
      intros [it|] [C tr']; [|reflexivity]. unfold dropWhile_react.
      destruct (negb (predFn it) || st); cbn [cells trace];
        by rewrite app_nil_r.
    + intros. by apply (enters_loop _ s).
  - apply (transducer_feeds (length A) s fin (fun _ : unit => MapLoop mapFn s)
             (map_react mapFn)) with (xs := xs) (st := tt) (c := 1);
      [|done|done|apply transduce_map|].
    + intros st fuel σ. cbn [resume_frame]. apply bind_ext.
      intros [it|] [C tr']; [|reflexivity]. cbn [map_react cells trace].
      by rewrite app_nil_r.
    + intros. by apply (enters_loop _ s).
  - apply (transducer_feeds (length A) s fin (fun _ : unit => TapLoop s)
             tap_react) with (xs := xs) (st := tt) (c := 1);
      [|done|done|apply transduce_tap|].
    + intros st fuel σ. cbn [resume_frame]. apply bind_ext.
      intros [it|] [C tr']; reflexivity.
    + intros. by apply (enters_loop _ s).
  - apply (transducer_feeds (length A) s fin
             (fun _ : unit => FilterLoop predFn s) (filter_react predFn))
      with (xs := xs) (st := tt) (c := 1);
      [|done|done|apply transduce_filter|].
    + intros st fuel σ. cbn [resume_frame]. apply bind_ext.
      intros [it|] [C tr']; [|reflexivity]. unfold filter_react.
      destruct (predFn it); cbn [cells trace]; by rewrite app_nil_r.
    + intros. by apply (enters_loop _ s).
  - apply (transducer_feeds (length A) s fin
             (fun _ : unit => RemoveLoop predFn s) (remove_react predFn))
      with (xs := xs) (st := tt) (c := 1);
      [|done|done|apply transduce_remove|].
    + intros st fuel σ. cbn [resume_frame]. apply bind_ext.
      intros [it|] [C tr']; [|reflexivity]. unfold remove_react.
      destruct (negb (predFn it)); cbn [cells trace]; by rewrite app_nil_r.
    + intros. by apply (enters_loop _ s).
  - apply (interpose_feeds separator s (length A) fin); [done|done|by left].
Qed.

Lemma operator_of_start (op : lazy_op) (v : value) (σ : store) :
  operator_of op v σ
  = Ok (VIter (length (cells σ)),
        Store (cells σ ++ [Cell (start_frame op v) 0]) (trace σ)).
Proof. destruct op; reflexivity. Qed.

Lemma chain_feeds (fin : bool) (ops : list lazy_op) :
  forall (s : ref) (xs : list value) (A : list cell) (tr : list value),
    feeds s xs fin A ->
    exists r gens,
      nested_application (operator_of <$> ops) (VIter s) (Store A tr)
      = Ok (VIter r, Store (A ++ gens) tr)
      /\ feeds r (denote_all ops xs) fin (A ++ gens).
Proof.
  induction ops as [|op ops IH]; intros s xs A tr Hsrc.
  - exists s, []. rewrite app_nil_r. by split.
  - rewrite fmap_cons. cbn [nested_application].
    rewrite (bind_ok _ _ _ _ _ (operator_of_start op _ _)). cbn [cells trace].
    destruct (IH (length A) (denote op xs) _ tr
                (lazy_op_feeds fin op s xs A Hsrc))
      as (r & gens & Hnest & Hfeeds).
    exists r, ([Cell (start_frame op (VIter s)) 0] ++ gens).
    rewrite app_assoc. by split.
Qed.

Lemma intoArray_feeds (r : ref) (xs : list value) (A : list cell) :
  feeds r xs true A ->
  exists f0, forall fuel tr,
    f0 <= fuel ->
    result_of (intoArray fuel (VIter r) (Store A tr)) = Ok (VArr xs).
Proof.
  intros Hfeeds. destruct (drain_feeds r xs A Hfeeds) as (f0 & Hdrain).
  exists f0. intros fuel tr Hfuel.
  destruct (Hdrain fuel [] tr Hfuel) as (σ' & Hσ'). rewrite app_nil_r in Hσ'.
  unfold intoArray. rewrite (bind_ok _ _ _ _ _ (iter_of_iterator r _)).
  by rewrite (bind_ok _ _ _ _ _ Hσ').
Qed.

(** X16. A pipe of lazy operators, materialized by [intoArray], computes
    the composition of what the operators do to a sequence: [take(n)] keeps
    the first [n] items, [dropWhile(p)] drops the longest prefix satisfying
    [p], [map(f)] applies [f] to each item, [tap(cb)] passes everything on,
    [filter(p)] keeps and [remove(p)] drops the items satisfying [p], and
    [interpose(sep)] puts [sep] between consecutive items; the operators
    apply in the order in which they are written. *)
Theorem pipe_computes_the_composition_of_its_operators :
  forall (ops : list lazy_op) (src : value) (xs : list value)
         (σ σ1 : store) (s : ref) (p : nat),
    iter src σ = Ok (s, σ1) ->
    cells σ1 !! s = Some (Cell (Native xs) p) ->
    exists fuel0, forall fuel,
      fuel0 <= fuel ->
      result_of (pipe src ((operator_of <$> ops) ++ [intoArray fuel]) σ)
      = Ok (VArr (denote_all ops xs)).
Proof.
  intros ops src xs σ [A tr] s p Hiter Hs. cbn [cells] in Hs.
  destruct (chain_feeds true ops s xs A tr (native_feeds s xs A p Hs))
    as (r & gens & Hnest & Hfeeds).
  destruct (intoArray_feeds r _ _ Hfeeds) as (f0 & Hinto).
  exists f0. intros fuel Hfuel. unfold pipe.
  rewrite (bind_ok _ _ _ _ _ Hiter).
  rewrite pipe_f_nested, rev_involutive, nested_application_app.
  - rewrite (bind_ok _ _ _ _ _ Hnest). cbn [nested_application].
    rewrite bind_ret_r. by apply Hinto.
  - rewrite rev_app_distr. discriminate.
Qed.

Lemma pipe_computes_the_composition_of_its_operators_witness :
  exists fuel0, forall fuel,
    fuel0 <= fuel ->
    result_of
      (pipe (numbers [1; 2; 3; 4]%Z)
         ((operator_of <$> [OpFilter is_even; OpMap plus_one; OpTake 1])
          ++ [intoArray fuel]) empty_store)
    = Ok (VArr (denote_all [OpFilter is_even; OpMap plus_one; OpTake 1]
                  [VNum 1; VNum 2; VNum 3; VNum 4])).
Proof.
  apply (pipe_computes_the_composition_of_its_operators
           [OpFilter is_even; OpMap plus_one; OpTake 1]
           (numbers [1; 2; 3; 4]%Z) [VNum 1; VNum 2; VNum 3; VNum 4]
           empty_store
           (Store [Cell (Native [VNum 1; VNum 2; VNum 3; VNum 4]) 0] []) 0 0);
    reflexivity.
Defined.

(** *** range and repeat *)

Lemma iterates_length itrFn k : forall i, length (iterates itrFn i k) = k.
Proof. induction k as [|k IH]; intros i; [done|]. cbn. by rewrite IH. Qed.

Lemma iterates_arithmetic (step : Z) (k : nat) :
  forall start : Z,
    iterates (fun i => match i with VNum n => VNum (n + step) | _ => i end)
      (VNum start) k
    = arithmetic start step k.
Proof.
  induction k as [|k IH]; intros start; [done|].
  cbn [iterates]. rewrite IH. unfold arithmetic. cbn [seq fmap list_fmap].
  f_equal; [f_equal; lia|].
  rewrite <- fmap_S_seq, <- list_fmap_compose.
  apply list_fmap_ext. intros i x _. cbn. f_equal. lia.
Qed.

Lemma iterates_arithmetic_length start step k :
  length (arithmetic start step k) = k.
Proof. unfold arithmetic. by rewrite length_fmap, length_seq. Qed.

Lemma const_over_arithmetic (val : value) start step k :
  (fun _ => val) <$> arithmetic start step k = replicate k val.
Proof.
  unfold arithmetic. rewrite <- list_fmap_compose.
  generalize 0. induction k as [|k IH]; intros j; [done|].
  cbn. by rewrite (IH (S j)).
Qed.

Lemma range_feeds (n start step : Z) (σ : store) :
  exists r A,
    range n start step σ = Ok (VIter r, Store A (trace σ))
    /\ feeds r (arithmetic start step (Z.to_nat n)) true A.
Proof.
  unfold range, iterate, take.
  rewrite (bind_ok _ _ _ _ _ (generator_ok _ σ)), generator_ok.
  cbn [cells trace]. eexists _, _. split; [reflexivity|].
  set (itrFn := fun i => match i with VNum m => VNum (m + step) | _ => i end).
  set (A := cells σ ++ [Cell (IterateStart itrFn (VNum start)) 0]).
  assert (feeds (length (cells σ))
            (iterates itrFn (VNum start) (Z.to_nat n)) false A) as Hsrc.
  { eapply iterate_feeds; [apply list_lookup_middle; done|by left]. }
  pose proof (take_feeds n (length (cells σ)) (length A) false true _ 0 A 0
                (TakeStart n (VIter (length (cells σ)))) eq_refl Hsrc) as Htake.
  rewrite Z.sub_0_r in Htake.
  rewrite firstn_all2 in Htake by (by rewrite iterates_length).
  subst itrFn. rewrite iterates_arithmetic in Htake.
  apply Htake; [by left|]. intros _ _. by rewrite iterates_arithmetic_length.
Qed.

(** X17. [range(n, start, step)] enumerates the [n] numbers [start],
    [start + step], [start + 2 * step], ...; none for [n <= 0].  This is
    stated where the sums of the code are exact: [n], [step] and the
    numbers enumerated are integers of at most [2^53] in absolute value. *)
Theorem range_enumerates_an_arithmetic_progression :
  forall (n start step : Z) (σ : store),
    safe_integer n ->
    safe_integer step ->
    (forall i : Z, (0 <= i < n)%Z -> safe_integer (start + i * step)) ->
    exists fuel0, forall fuel,
      fuel0 <= fuel ->
      result_of (bind (range n start step) (intoArray fuel) σ)
      = Ok (VArr (arithmetic start step (Z.to_nat n))).
Proof.
  intros n start step σ _ _ _.
  destruct (range_feeds n start step σ) as (r & A & Hrange & Hfeeds).
  destruct (intoArray_feeds r _ _ Hfeeds) as (f0 & Hinto).
  exists f0. intros fuel Hfuel. rewrite (bind_ok _ _ _ _ _ Hrange).
  by apply Hinto.
Qed.

Lemma range_enumerates_an_arithmetic_progression_witness :
  exists fuel0, forall fuel,
    fuel0 <= fuel ->
    result_of (bind (range 3 1 2) (intoArray fuel) empty_store)
    = Ok (VArr [VNum 1; VNum 3; VNum 5]).
Proof.
  apply (range_enumerates_an_arithmetic_progression 3 1 2 empty_store).
  - unfold safe_integer. lia.
  - unfold safe_integer. lia.
  - intros i Hi. unfold safe_integer. lia.
Defined.

(** X18. [repeat(val, n)] yields [val] exactly [n] times; nothing for
    [n <= 0]. *)
Theorem repeat_yields_the_value_n_times :
  forall (val : value) (n : Z) (σ : store),
    exists fuel0, forall fuel,
      fuel0 <= fuel ->
      result_of (bind (repeat val n) (intoArray fuel) σ)
      = Ok (VArr (replicate (Z.to_nat n) val)).
Proof.
  intros val n σ. unfold repeat.
  destruct (range_feeds n 0 1 σ) as (r & A & Hrange & Hfeeds).
  pose proof (lazy_op_feeds true (OpMap (fun _ => val)) r _ A Hfeeds) as Hmap.
  destruct (intoArray_feeds _ _ _ Hmap) as (f0 & Hinto).
  exists f0. intros fuel Hfuel.
  rewrite bind_assoc, (bind_ok _ _ _ _ _ Hrange).
  unfold pipe. rewrite bind_assoc, (bind_ok _ _ _ _ _ (iter_of_iterator r _)).
  cbn [rev app pipe_f]. unfold map.
  rewrite (bind_ok _ _ _ _ _ (generator_ok _ _)). cbn [cells trace].
  rewrite (Hinto fuel _ Hfuel). do 2 f_equal.
  cbn [denote]. apply const_over_arithmetic.
Qed.

(** ** cycle

    [cycle(itr)] is [flatten] over the endless sequence [itr, itr, ...]:
    for every item of that sequence [flatten] asks [iter] for an iterator
    and delegates to a nested generator that walks it. *)

Ltac lookup_new :=
  repeat first
    [ eassumption
    | rewrite cells_put_ne by (congruence || lia)
    | eapply cells_put_eq
    | apply cells_alloc_new
    | eapply cells_extend ].

Lemma leaf_not_nested y : leaf y = true -> isArrayOrIter y = Ok false.
Proof. unfold leaf. by destruct (isArrayOrIter y) as [[|]| | |]. Qed.

Lemma length_put s c σ : length (cells (put s c σ)) = length (cells σ).
Proof. simpl. apply length_insert. Qed.

(** The nested generator over the iterator [N]. *)
Lemma flatten_loop_leaves (inner N : ref) (fuel : nat) (σ : store)
    (pi pn : nat) (rest : list value) :
  N <> inner ->
  cells σ !! inner = Some (Cell (FlattenLoop N) pi) ->
  cells σ !! N = Some (Cell (Native rest) pn) ->
  Forall (fun y => leaf y = true) rest ->
  resume_frame (run (S fuel)) inner (FlattenLoop N) σ
  = Ok (head rest,
        put inner
          (Cell (match rest with [] => Closed | _ :: _ => FlattenLoop N end) pi)
          (put N (Cell (Native (tail rest)) (S pn)) σ)).
Proof.
  intros Hne Hi HN Hleaf. cbn [resume_frame].
  change (next (run (S fuel)) N) with (pull (S fuel) N).
  rewrite (bind_ok _ _ _ _ _ (pull_native _ _ _ _ _ HN)).
  destruct rest as [|y ys]; cbn [head tail].
  - unfold finish. by erewrite set_frame_put by lookup.
  - apply Forall_cons_1 in Hleaf as [Hy _].
    unfold bind, lift. rewrite (leaf_not_nested y Hy).
    unfold yield. by erewrite set_frame_put by lookup.
Qed.

Lemma pull_flatten_inner (inner N : ref) (fuel : nat) (σ : store) (gi : gen)
    (pi pn : nat) (rest : list value) :
  N <> inner ->
  cells σ !! inner = Some (Cell gi pi) ->
  gi = FlattenStart (VIter N) \/ gi = FlattenLoop N ->
  cells σ !! N = Some (Cell (Native rest) pn) ->
  Forall (fun y => leaf y = true) rest ->
  pull (S (S (S fuel))) inner σ
  = Ok (head rest,
        put inner
          (Cell (match rest with [] => Closed | _ :: _ => FlattenLoop N end)
             (S pi))
          (put N (Cell (Native (tail rest)) (S pn)) σ)).
Proof.
  intros Hne Hi Hgi HN Hleaf. rewrite (pull_unfold _ _ _ _ Hi).
  cbn [frame pulls]. destruct Hgi as [-> | ->].
  - cbn [resume_frame get_iterator]. unfold bind at 1, ret at 1.
    unfold goto. erewrite set_frame_put by lookup. cbn [pulls].
    rewrite put_put. erewrite run_unfold by lookup. cbn [frame].
    erewrite flatten_loop_leaves by (first [done | lookup]).
    by rewrite put_put_mid.
  - erewrite flatten_loop_leaves by (first [done | lookup]).
    by rewrite put_put_mid.
Qed.

(** With any fuel the nested generator answers or runs out. *)
Lemma pull_flatten_inner_cases (inner N : ref) (fuel : nat) (σ : store)
    (gi : gen) (pi pn : nat) (rest : list value) :
  N <> inner ->
  cells σ !! inner = Some (Cell gi pi) ->
  gi = FlattenStart (VIter N) \/ gi = FlattenLoop N ->
  cells σ !! N = Some (Cell (Native rest) pn) ->
  Forall (fun y => leaf y = true) rest ->
  pull fuel inner σ = OutOfFuel
  \/ pull fuel inner σ
     = Ok (head rest,
           put inner
             (Cell (match rest with [] => Closed | _ :: _ => FlattenLoop N end)
                (S pi))
             (put N (Cell (Native (tail rest)) (S pn)) σ)).
Proof.
  intros Hne Hi Hgi HN Hleaf.
  destruct fuel as [|[|[|fuel]]];
    [| | |right; by eapply pull_flatten_inner].
  - by left.
  - rewrite (pull_unfold _ _ _ _ Hi). cbn [frame pulls].
    destruct Hgi as [-> | ->]; by left.
  - rewrite (pull_unfold _ _ _ _ Hi). cbn [frame pulls].
    destruct Hgi as [-> | ->].
    + left. cbn [resume_frame get_iterator]. unfold bind at 1, ret at 1.
      unfold goto. erewrite set_frame_put by lookup.
      erewrite run_unfold by lookup. reflexivity.
    + right. erewrite flatten_loop_leaves by (first [done | lookup]).
      by rewrite put_put_mid.
Qed.

Lemma pull_iterate_const (c : ref) (fuel : nat) (σ : store) (gc : gen)
    (pc : nat) (itr : value) :
  cells σ !! c = Some (Cell gc pc) ->
  iterate_const_at itr gc ->
  pull (S fuel) c σ
  = Ok (Some itr, put c (Cell (IterateYield (fun _ => itr) itr) (S pc)) σ).
Proof.
  intros Hc Hgc. rewrite (pull_unfold _ _ _ _ Hc). cbn [frame pulls].
  destruct Hgc as [-> | [j ->]]; cbn [resume_frame]; unfold yield;
    (erewrite set_frame_put by lookup); by rewrite put_put.
Qed.

(** The loop of [flatten] meets an item that is an array or an iterator. *)
Lemma flatten_enters_item (t c : ref) (fuel : nat) (σ : store) (gc : gen)
    (pc : nat) (itr : value) :
  cells σ !! c = Some (Cell gc pc) ->
  iterate_const_at itr gc ->
  isArrayOrIter itr = Ok true ->
  resume_frame (run (S fuel)) t (FlattenLoop c) σ
  = bind (iter itr)
      (fun sub =>
         bind (alloc (FlattenStart (VIter sub)))
           (fun inner => goto (run (S fuel)) t (FlattenDeleg c inner)))
      (put c (Cell (IterateYield (fun _ => itr) itr) (S pc)) σ).
Proof.
  intros Hc Hgc Hitr. cbn [resume_frame].
  change (next (run (S fuel)) c) with (pull (S fuel) c).
  rewrite (bind_ok _ _ _ _ _ (pull_iterate_const _ _ _ _ _ _ Hc Hgc)).
  unfold bind at 1, lift. by rewrite Hitr.
Qed.

Section FlattenItem.
Context (t c inner N : ref) (σ : store) (pt pn : nat) (rest : list value).
Hypothesis Ht : cells σ !! t = Some (Cell (FlattenLoop c) pt).
Hypothesis Hi : cells σ !! inner = Some (Cell (FlattenStart (VIter N)) 0).
Hypothesis HN : cells σ !! N = Some (Cell (Native rest) pn).
Hypothesis Hleaf : Forall (fun y => leaf y = true) rest.
Hypothesis Hne : N <> inner /\ t <> inner /\ t <> N.

(** The item has something to give: its first leaf is yielded. *)
Lemma flatten_item_yields (fuel : nat) :
  rest <> [] ->
  goto (run (S (S (S (S fuel))))) t (FlattenDeleg c inner) σ
  = Ok (head rest,
        put t (Cell (FlattenDeleg c inner) pt)
          (put inner (Cell (FlattenLoop N) 1)
             (put N (Cell (Native (tail rest)) (S pn)) σ))).
Proof.
  intros Hrest. destruct Hne as (? & ? & ?).
  unfold goto. erewrite set_frame_put by lookup. cbn [pulls].
  erewrite run_unfold by lookup. cbn [frame resume_frame].
  change (next (run (S (S (S fuel)))) inner) with (pull (S (S (S fuel))) inner).
  erewrite bind_ok;
    [|eapply (pull_flatten_inner inner N) with (rest := rest);
      [done|lookup|by left|lookup|done]].
  destruct rest as [|y ys]; [done|]. cbn [head tail].
  unfold yield. erewrite set_frame_put by lookup. cbn [pulls].
  rewrite (put_comm _ N t) by done.
  rewrite (put_comm _ inner t) by done.
  by rewrite put_put.
Qed.

(** The item has nothing to give: the loop goes round, or runs out. *)
Lemma flatten_item_empty_cases (fuel : nat) :
  rest = [] ->
  goto (run fuel) t (FlattenDeleg c inner) σ = OutOfFuel
  \/ exists fuel',
      fuel' < fuel
      /\ goto (run fuel) t (FlattenDeleg c inner) σ
         = run fuel' t
             (put t (Cell (FlattenLoop c) pt)
                (put inner (Cell Closed 1)
                   (put N (Cell (Native []) (S pn)) σ))).
Proof.
  intros Hrest. destruct Hne as (? & ? & ?).
  unfold goto. erewrite set_frame_put by lookup. cbn [pulls].
  destruct fuel as [|fuel]; [by left|].
  erewrite run_unfold by lookup. cbn [frame resume_frame].
  change (next (run fuel) inner) with (pull fuel inner).
  destruct (pull_flatten_inner_cases inner N fuel
              (put t (Cell (FlattenDeleg c inner) pt) σ)
              (FlattenStart (VIter N)) 0 pn rest)
    as [Hpull | Hpull]; [done|lookup|by left|lookup|done| |].
  { left. unfold bind at 1. by rewrite Hpull. }
  right. exists fuel. split; [lia|].
  unfold bind at 1. rewrite Hpull. subst rest. cbn [head tail].
  unfold goto. erewrite set_frame_put by lookup. cbn [pulls].
  rewrite (put_comm _ N t) by done.
  rewrite (put_comm _ inner t) by done.
  by rewrite put_put.
Qed.
End FlattenItem.

Lemma alloc_ok (g : gen) (σ : store) :
  alloc g σ = Ok (length (cells σ), Store (cells σ ++ [Cell g 0]) (trace σ)).
Proof. reflexivity. Qed.

Lemma iter_array_ok (xs : list value) (σ : store) :
  iter (VArr xs) σ
  = Ok (length (cells σ), Store (cells σ ++ [Cell (Native xs) 0]) (trace σ)).
Proof. reflexivity. Qed.

Lemma alloc_facts (σ : store) (cnew : cell) (r : ref) (cr : cell) :
  cells σ !! r = Some cr ->
  cells (Store (cells σ ++ [cnew]) (trace σ)) !! r = Some cr
  /\ r <> length (cells σ).
Proof.
  intros Hr. split; [by apply cells_extend|].
  apply lookup_lt_Some in Hr. lia.
Qed.

(** [flatten] over a sequence of items that have nothing to give never
    yields and never finishes. *)
Lemma flatten_spins (t c : ref) (itr : value) :
  forall (fuel : nat) (σ : store) (pt : nat) (gc : gen) (pc : nat),
    c <> t ->
    cells σ !! t = Some (Cell (FlattenLoop c) pt) ->
    cells σ !! c = Some (Cell gc pc) ->
    iterate_const_at itr gc ->
    itr = VArr []
    \/ (exists s ps,
          itr = VIter s /\ cells σ !! s = Some (Cell (Native []) ps)
          /\ s <> t /\ s <> c) ->
    run fuel t σ = OutOfFuel.
Proof.
  induction fuel as [fuel IH] using lt_wf_ind.
  intros σ pt gc pc Hct Ht Hc Hgc Hitr.
  destruct fuel as [|[|fuel]]; [done| |].
  { by rewrite (run_unfold _ _ _ _ Ht). }
  rewrite (run_unfold _ _ _ _ Ht). cbn [frame].
  rewrite (flatten_enters_item t c _ σ gc pc itr Hc Hgc)
    by (by destruct Hitr as [-> | (s & ps & -> & _)]).
  set (σ1 := put c (Cell (IterateYield (fun _ => itr) itr) (S pc)) σ).
  assert (cells σ1 !! t = Some (Cell (FlattenLoop c) pt)) as Ht1
      by (subst σ1; lookup).
  assert (cells σ1 !! c
          = Some (Cell (IterateYield (fun _ => itr) itr) (S pc))) as Hc1
      by (subst σ1; lookup).
  destruct Hitr as [-> | (s & ps & -> & Hs & Hst & Hsc)].
  - rewrite (bind_ok _ _ _ _ _ (iter_array_ok [] σ1)).
    set (N := length (cells σ1)).
    set (σ2 := Store (cells σ1 ++ [Cell (Native []) 0]) (trace σ1)).
    rewrite (bind_ok _ _ _ _ _ (alloc_ok _ σ2)).
    set (inner := length (cells σ2)).
    set (σ3 := Store (cells σ2 ++ [Cell (FlattenStart (VIter N)) 0]) (trace σ2)).
    destruct (alloc_facts σ1 (Cell (Native []) 0) t _ Ht1) as [Ht2 HtN].
    destruct (alloc_facts σ1 (Cell (Native []) 0) c _ Hc1) as [Hc2 HcN].
    assert (cells σ2 !! N = Some (Cell (Native []) 0)) as HN2
        by apply cells_alloc_new.
    destruct (alloc_facts σ2 (Cell (FlattenStart (VIter N)) 0) t _ Ht2)
      as [Ht3 Hti].
    destruct (alloc_facts σ2 (Cell (FlattenStart (VIter N)) 0) c _ Hc2)
      as [Hc3 Hci].
    destruct (alloc_facts σ2 (Cell (FlattenStart (VIter N)) 0) N _ HN2)
      as [HN3 HNi].
    assert (cells σ3 !! inner = Some (Cell (FlattenStart (VIter N)) 0)) as Hi3
        by apply cells_alloc_new.
    fold N in HtN, HcN. fold inner in Hti, Hci, HNi.
    destruct (flatten_item_empty_cases t c inner N σ3 pt 0 [] Ht3 Hi3 HN3
                (Forall_nil_2 _) ltac:(done) (S fuel) eq_refl)
      as [-> | (f' & Hlt & ->)]; [done|].
    eapply (IH f'); [lia|done|lookup|lookup|by right; eexists|by left].
  - rewrite (bind_ok _ _ _ _ _ (iter_of_iterator s σ1)).
    rewrite (bind_ok _ _ _ _ _ (alloc_ok _ σ1)).
    set (inner := length (cells σ1)).
    set (σ3 := Store (cells σ1 ++ [Cell (FlattenStart (VIter s)) 0]) (trace σ1)).
    assert (cells σ1 !! s = Some (Cell (Native []) ps)) as Hs1
        by (subst σ1; lookup).
    destruct (alloc_facts σ1 (Cell (FlattenStart (VIter s)) 0) t _ Ht1)
      as [Ht3 Hti].
    destruct (alloc_facts σ1 (Cell (FlattenStart (VIter s)) 0) c _ Hc1)
      as [Hc3 Hci].
    destruct (alloc_facts σ1 (Cell (FlattenStart (VIter s)) 0) s _ Hs1)
      as [Hs3 Hsi].
    assert (cells σ3 !! inner = Some (Cell (FlattenStart (VIter s)) 0)) as Hi3
        by apply cells_alloc_new.
    fold inner in Hti, Hci, Hsi.
    destruct (flatten_item_empty_cases t c inner s σ3 pt ps [] Ht3 Hi3 Hs3
                (Forall_nil_2 _) ltac:(done) (S fuel) eq_refl)
      as [-> | (f' & Hlt & ->)]; [done|].
    eapply (IH f'); [lia|done|lookup|lookup|by right; eexists|].
    right. exists s, (S ps). split; [done|]. split; [lookup|done].
Qed.

(** The loop of [flatten] meets an item that has something to give: the
    first leaf is yielded from inside the item. *)
Lemma flatten_lap (t c : ref) (itr : value) (xs : list value) :
  forall (fuel : nat) (σ : store) (pt : nat) (gc : gen) (pc : nat),
    c <> t ->
    cells σ !! t = Some (Cell (FlattenLoop c) pt) ->
    cells σ !! c = Some (Cell gc pc) ->
    iterate_const_at itr gc ->
    itr = VArr xs
    \/ (exists s ps,
          itr = VIter s /\ cells σ !! s = Some (Cell (Native xs) ps)
          /\ s <> t /\ s <> c) ->
    xs <> [] ->
    Forall (fun y => leaf y = true) xs ->
    exists σ' N,
      run (S (S (S (S (S (S fuel)))))) t σ = Ok (head xs, σ')
      /\ in_lap σ' t c N (tail xs)
      /\ (forall s, itr = VIter s -> N = s)
      /\ exists gc' pc',
          cells σ' !! c = Some (Cell gc' pc') /\ iterate_const_at itr gc'.
Proof.
  intros fuel σ pt gc pc Hct Ht Hc Hgc Hitr Hxs Hleaf.
  rewrite (run_unfold _ _ _ _ Ht). cbn [frame].
  rewrite (flatten_enters_item t c _ σ gc pc itr Hc Hgc)
    by (by destruct Hitr as [-> | (s & ps & -> & _)]).
  set (σ1 := put c (Cell (IterateYield (fun _ => itr) itr) (S pc)) σ).
  assert (cells σ1 !! t = Some (Cell (FlattenLoop c) pt)) as Ht1
      by (subst σ1; lookup).
  assert (cells σ1 !! c
          = Some (Cell (IterateYield (fun _ => itr) itr) (S pc))) as Hc1
      by (subst σ1; lookup).
  destruct Hitr as [-> | (s & ps & -> & Hs & Hst & Hsc)].
  - rewrite (bind_ok _ _ _ _ _ (iter_array_ok xs σ1)).
    set (N := length (cells σ1)).
    set (σ2 := Store (cells σ1 ++ [Cell (Native xs) 0]) (trace σ1)).
    rewrite (bind_ok _ _ _ _ _ (alloc_ok _ σ2)).
    set (inner := length (cells σ2)).
    set (σ3 := Store (cells σ2 ++ [Cell (FlattenStart (VIter N)) 0]) (trace σ2)).
    destruct (alloc_facts σ1 (Cell (Native xs) 0) t _ Ht1) as [Ht2 HtN].
    destruct (alloc_facts σ1 (Cell (Native xs) 0) c _ Hc1) as [Hc2 HcN].
    assert (cells σ2 !! N = Some (Cell (Native xs) 0)) as HN2
        by apply cells_alloc_new.
    destruct (alloc_facts σ2 (Cell (FlattenStart (VIter N)) 0) t _ Ht2)
      as [Ht3 Hti].
    destruct (alloc_facts σ2 (Cell (FlattenStart (VIter N)) 0) c _ Hc2)
      as [Hc3 Hci].
    destruct (alloc_facts σ2 (Cell (FlattenStart (VIter N)) 0) N _ HN2)
      as [HN3 HNi].
    assert (cells σ3 !! inner = Some (Cell (FlattenStart (VIter N)) 0)) as Hi3
        by apply cells_alloc_new.
    fold N in HtN, HcN. fold inner in Hti, Hci, HNi.
    rewrite (flatten_item_yields t c inner N σ3 pt 0 xs Ht3 Hi3 HN3 Hleaf
               ltac:(done) (S fuel) Hxs).
    eexists _, N. split; [reflexivity|]. split; [|split; [done|]].
    + exists inner, pt, 1, 1. repeat split; try done; lookup.
    + eexists _, _. split; [lookup|]. by right; eexists.
  - rewrite (bind_ok _ _ _ _ _ (iter_of_iterator s σ1)).
    rewrite (bind_ok _ _ _ _ _ (alloc_ok _ σ1)).
    set (inner := length (cells σ1)).
    set (σ3 := Store (cells σ1 ++ [Cell (FlattenStart (VIter s)) 0]) (trace σ1)).
    assert (cells σ1 !! s = Some (Cell (Native xs) ps)) as Hs1
        by (subst σ1; lookup).
    destruct (alloc_facts σ1 (Cell (FlattenStart (VIter s)) 0) t _ Ht1)
      as [Ht3 Hti].
    destruct (alloc_facts σ1 (Cell (FlattenStart (VIter s)) 0) c _ Hc1)
      as [Hc3 Hci].
    destruct (alloc_facts σ1 (Cell (FlattenStart (VIter s)) 0) s _ Hs1)
      as [Hs3 Hsi].
    assert (cells σ3 !! inner = Some (Cell (FlattenStart (VIter s)) 0)) as Hi3
        by apply cells_alloc_new.
    fold inner in Hti, Hci, Hsi.
    rewrite (flatten_item_yields t c inner s σ3 pt ps xs Ht3 Hi3 Hs3 Hleaf
               ltac:(done) (S fuel) Hxs).
    eexists _, s. split; [reflexivity|]. split; [|split; [congruence|]].
    + exists inner, pt, 1, (S ps). repeat split; try done; lookup.
    + eexists _, _. split; [lookup|]. by right; eexists.
Qed.

(** Inside an item, a [next()] passes on its next leaf. *)
Lemma pull_in_lap (t c N : ref) (fuel : nat) (σ : store) (y : value)
    (ys : list value) (cc : cell) :
  c <> t ->
  in_lap σ t c N (y :: ys) ->
  Forall (fun y => leaf y = true) (y :: ys) ->
  cells σ !! c = Some cc ->
  exists σ',
    pull (S (S (S (S fuel)))) t σ = Ok (Some y, σ')
    /\ in_lap σ' t c N ys
    /\ cells σ' !! c = Some cc.
Proof.
  intros Hct (inner & pt & pi & pn & Ht & Hi & HN & ? & ? & ? & ? & ?) Hy Hc.
  rewrite (pull_unfold _ _ _ _ Ht). cbn [frame pulls resume_frame].
  change (next (run (S (S (S fuel)))) inner) with (pull (S (S (S fuel))) inner).
  erewrite bind_ok.
  2:{ eapply (pull_flatten_inner inner N) with (rest := y :: ys);
        [done|lookup|by right|lookup|done]. }
  cbn [head tail]. unfold yield. erewrite set_frame_put by lookup.
  cbn [pulls].
  eexists. split; [reflexivity|]. split; [|lookup].
  exists inner, (S pt), (S pi), (S pn). repeat split; try done; lookup.
Qed.

(** At the end of an item, a [next()] takes the loop of [flatten] to the
    next item. *)
Lemma pull_lap_end (t c N : ref) (fuel : nat) (σ : store) (cc : cell) :
  c <> t ->
  in_lap σ t c N [] ->
  cells σ !! c = Some cc ->
  exists σ' pt pn,
    cells σ' !! t = Some (Cell (FlattenLoop c) pt)
    /\ cells σ' !! c = Some cc
    /\ cells σ' !! N = Some (Cell (Native []) pn)
    /\ (pull fuel t σ = OutOfFuel \/ pull fuel t σ = run (fuel - 1) t σ')
    /\ (4 <= fuel -> pull fuel t σ = run (fuel - 1) t σ').
Proof.
  intros Hct (inner & pt & pi & pn & Ht & Hi & HN & ? & ? & ? & ? & ?) Hc.
  exists (put t (Cell (FlattenLoop c) (S pt))
            (put inner (Cell Closed (S pi))
               (put N (Cell (Native []) (S pn))
                  (put t (Cell (FlattenDeleg c inner) (S pt)) σ)))),
    (S pt), (S pn).
  split; [lookup|]. split; [lookup|]. split; [lookup|].
  assert (forall f,
             pull f inner (put t (Cell (FlattenDeleg c inner) (S pt)) σ)
             = Ok (None,
                   put inner (Cell Closed (S pi))
                     (put N (Cell (Native []) (S pn))
                        (put t (Cell (FlattenDeleg c inner) (S pt)) σ))) ->
             pull (S f) t σ
             = run f t
                 (put t (Cell (FlattenLoop c) (S pt))
                    (put inner (Cell Closed (S pi))
                       (put N (Cell (Native []) (S pn))
                          (put t (Cell (FlattenDeleg c inner) (S pt)) σ)))))
    as Hstep.
  { intros f Hpull. rewrite (pull_unfold _ _ _ _ Ht).
    cbn [frame pulls resume_frame].
    change (next (run f) inner) with (pull f inner).
    rewrite (bind_ok _ _ _ _ _ Hpull). unfold goto.
    by erewrite set_frame_put by lookup. }
  split.
  - destruct fuel as [|fuel]; [by left|].
    destruct (pull_flatten_inner_cases inner N fuel
                (put t (Cell (FlattenDeleg c inner) (S pt)) σ)
                (FlattenLoop N) pi pn [])
      as [Hpull | Hpull]; [done|lookup|by right|lookup|done| |].
    + left. rewrite (pull_unfold _ _ _ _ Ht).
      cbn [frame pulls resume_frame].
      change (next (run fuel) inner) with (pull fuel inner).
      unfold bind. by rewrite Hpull.
    + right. cbn [Nat.sub]. rewrite Nat.sub_0_r. by apply Hstep.
  - intros Hfuel. destruct fuel as [|[|[|[|fuel]]]]; [lia..|].
    cbn [Nat.sub]. apply Hstep.
    eapply (pull_flatten_inner inner N) with (rest := []);
      [done|lookup|by right|lookup|done].
Qed.

Lemma pull_flatten_start (t c : ref) (fuel : nat) (σ : store) (pt : nat) :
  cells σ !! t = Some (Cell (FlattenStart (VIter c)) pt) ->
  pull (S fuel) t σ = run fuel t (put t (Cell (FlattenLoop c) (S pt)) σ).
Proof.
  intros Ht. rewrite (pull_unfold _ _ _ _ Ht).
  cbn [frame pulls resume_frame get_iterator]. unfold bind, ret, goto.
  erewrite set_frame_put by lookup. by rewrite put_put.
Qed.

Lemma laps_firstn (xs : list value) (k : nat) :
  xs <> [] ->
  forall (rest : list value) (m : nat),
    k <= m ->
    laps xs rest k = firstn k (rest ++ concat (replicate m xs)).
Proof.
  intros Hxs. induction k as [|k IH]; intros rest m Hm; [done|].
  cbn [laps]. destruct rest as [|y ys].
  - destruct xs as [|x xs']; [done|]. destruct m as [|m]; [lia|].
    cbn [replicate concat app]. rewrite firstn_cons. f_equal.
    apply IH. lia.
  - cbn [app]. rewrite firstn_cons. f_equal. apply IH. lia.
Qed.

Section CycleArray.
Context (t c : ref) (xs : list value) (fuel : nat).
Hypothesis Hct : c <> t.
Hypothesis Hxs : xs <> [].
Hypothesis Hleaf : Forall (fun y => leaf y = true) xs.

Lemma nexts_cycle_array (k : nat) :
  forall (rest : list value) (σ : store),
    (exists gc pc,
        cells σ !! c = Some (Cell gc pc) /\ iterate_const_at (VArr xs) gc) ->
    Forall (fun y => leaf y = true) rest ->
    ((exists pt, cells σ !! t = Some (Cell (FlattenStart (VIter c)) pt))
     /\ rest = [])
    \/ (exists N, in_lap σ t c N rest) ->
    exists σ',
      nexts (S (S (S (S (S (S (S fuel))))))) k (VIter t) σ
      = Ok (Some <$> laps xs rest k, σ').
Proof.
  induction k as [|k IH]; intros rest σ (gc & pc & Hc & Hgc) Hrest Hstate;
    [by eexists|].
  rewrite nexts_S. cbn [call_next].
  assert (forall σ0 pt0,
             cells σ0 !! t = Some (Cell (FlattenLoop c) pt0) ->
             cells σ0 !! c = Some (Cell gc pc) ->
             forall σa,
               pull (S (S (S (S (S (S (S fuel))))))) t σa
               = run (S (S (S (S (S (S fuel)))))) t σ0 ->
               rest = [] ->
               exists σ',
                 bind (pull (S (S (S (S (S (S (S fuel))))))) t)
                   (fun nx =>
                      bind (nexts (S (S (S (S (S (S (S fuel))))))) k (VIter t))
                        (fun rest0 => ret (nx :: rest0))) σa
                 = Ok (Some <$> laps xs rest (S k), σ')) as Hlap.
  { intros σ0 pt0 Ht0 Hc0 σa Hpull ->.
    destruct (flatten_lap t c (VArr xs) xs fuel σ0 pt0 gc pc Hct Ht0 Hc0 Hgc
                ltac:(by left) Hxs Hleaf)
      as (σ1 & N & Hrun & Hin & _ & Hc1).
    rewrite Hrun in Hpull. rewrite (bind_ok _ _ _ _ _ Hpull).
    destruct (IH (tail xs) σ1 Hc1) as (σ' & Hnexts).
    { destruct xs; [done|]. by apply Forall_cons_1 in Hleaf as [_ ?]. }
    { right. by exists N. }
    rewrite (bind_ok _ _ _ _ _ Hnexts). exists σ'.
    destruct xs as [|x xs']; [done|]. reflexivity. }
  destruct Hstate as [[[pt Ht] ->] | [N Hin]].
  - eapply (Hlap _ (S pt)); [| |by apply pull_flatten_start|done]; lookup.
  - destruct rest as [|y ys].
    + destruct (pull_lap_end t c N (S (S (S (S (S (S (S fuel))))))) σ _ Hct Hin Hc)
        as (σ0 & pt0 & pn0 & Ht0 & Hc0 & _ & _ & Hpull).
      eapply (Hlap σ0 pt0 Ht0 Hc0); [|done]. apply Hpull. lia.
    + destruct (pull_in_lap t c N (S (S (S fuel))) σ y ys _ Hct Hin Hrest Hc)
        as (σ1 & Hpull & Hin1 & Hc1).
      rewrite (bind_ok _ _ _ _ _ Hpull).
      destruct (IH ys σ1) as (σ' & Hnexts).
      { by eexists _, _. }
      { by apply Forall_cons_1 in Hrest as [_ ?]. }
      { right. by exists N. }
      rewrite (bind_ok _ _ _ _ _ Hnexts). by exists σ'.
Qed.
End CycleArray.

Lemma cycle_ok (itr : value) (σ : store) :
  exists c t σ',
    cycle itr σ = Ok (VIter t, σ')
    /\ c <> t
    /\ cells σ' !! c = Some (Cell (IterateStart (fun _ => itr) itr) 0)
    /\ cells σ' !! t = Some (Cell (FlattenStart (VIter c)) 0)
    /\ forall r cr, cells σ !! r = Some cr ->
                    cells σ' !! r = Some cr /\ r <> c /\ r <> t.
Proof.
  unfold cycle, iterate, flatten.
  rewrite (bind_ok _ _ _ _ _ (generator_ok _ σ)), generator_ok.
  set (cc := Cell (IterateStart (fun _ => itr) itr) 0).
  set (σc := Store (cells σ ++ [cc]) (trace σ)).
  assert (cells σc !! length (cells σ) = Some cc) as Hc by apply cells_alloc_new.
  destruct (alloc_facts σc (Cell (FlattenStart (VIter (length (cells σ)))) 0)
              _ _ Hc) as [Hc' Hct].
  eexists (length (cells σ)), _, _. split; [reflexivity|].
  split; [done|]. split; [done|]. split; [apply cells_alloc_new|].
  intros r cr Hr. destruct (alloc_facts σ cc r cr Hr) as [Hr1 Hrc].
  destruct (alloc_facts σc (Cell (FlattenStart (VIter (length (cells σ)))) 0)
              r cr Hr1) as [Hr2 Hrt].
  done.
Qed.

(** X19. [cycle] of a non-empty array whose items are neither arrays nor
    iterators, [undefined] or [null] repeats the array without end: [k]
    calls of [next()] answer the first [k] items of the array written [k]
    times over. *)
Theorem cycle_repeats_an_array :
  forall (xs : list value) (σ : store) (k fuel : nat),
    xs <> [] ->
    forallb leaf xs = true ->
    result_of (bind (cycle (VArr xs)) (nexts (7 + fuel) k) σ)
    = Ok (Some <$> firstn k (concat (replicate k xs))).
Proof.
  intros xs σ k fuel Hxs Hleaf.
  assert (Forall (fun y => leaf y = true) xs) as Hleaf'.
  { apply Forall_forall. intros y Hy%list_elem_of_In.
    by apply (proj1 (forallb_forall _ _) Hleaf). }
  destruct (cycle_ok (VArr xs) σ) as (c & t & σ' & Hcycle & Hct & Hc & Ht & _).
  rewrite (bind_ok _ _ _ _ _ Hcycle).
  destruct (nexts_cycle_array t c xs fuel Hct Hxs Hleaf' k [] σ')
    as (σ'' & Hnexts).
  - eexists _, _. split; [done|by left].
  - done.
  - left. split; [by eexists|done].
  - cbn [Nat.add]. rewrite Hnexts. cbn [result_of].
    by rewrite (laps_firstn xs k Hxs [] k).
Qed.

Lemma cycle_repeats_an_array_witness :
  result_of (bind (cycle (numbers [1; 2; 3]%Z)) (nexts (7 + 0) 10) empty_store)
  = Ok (Some <$> firstn 10 (concat (replicate 10 [VNum 1; VNum 2; VNum 3]))).
Proof.
  apply (cycle_repeats_an_array [VNum 1; VNum 2; VNum 3] empty_store 10 0);
    [discriminate|reflexivity].
Defined.

(** X20. [cycle] of an empty array never answers: the first [next()] goes
    from one empty repetition to the next without end. *)
Theorem cycle_of_an_empty_array_never_answers :
  forall (σ : store) (fuel : nat),
    bind (cycle (VArr [])) (call_next fuel) σ = OutOfFuel.
Proof.
  intros σ fuel.
  destruct (cycle_ok (VArr []) σ) as (c & t & σ' & Hcycle & Hct & Hc & Ht & _).
  rewrite (bind_ok _ _ _ _ _ Hcycle). cbn [call_next].
  destruct fuel as [|fuel]; [done|].
  rewrite (pull_flatten_start _ _ _ _ _ Ht).
  eapply (flatten_spins t c (VArr [])); [done|lookup|lookup|by left|by left].
Qed.

Section CycleIterator.
Context (t c s : ref) (fuel : nat).
Hypothesis Hct : c <> t.
Hypothesis Hst : s <> t.
Hypothesis Hsc : s <> c.

(** Before its first [next()] with the iterator still holding [rest], or
    inside the first repetition with [rest] to come. *)
Lemma nexts_first_lap (k : nat) :
  forall (rest : list value) (σ : store),
    (exists gc pc,
        cells σ !! c = Some (Cell gc pc) /\ iterate_const_at (VIter s) gc) ->
    Forall (fun y => leaf y = true) rest ->
    k <= length rest ->
    (exists pt ps,
        cells σ !! t = Some (Cell (FlattenStart (VIter c)) pt)
        /\ cells σ !! s = Some (Cell (Native rest) ps))
    \/ in_lap σ t c s rest ->
    exists σ',
      nexts (S (S (S (S (S (S (S fuel))))))) k (VIter t) σ
      = Ok (Some <$> firstn k rest, σ')
      /\ (exists gc pc,
             cells σ' !! c = Some (Cell gc pc)
             /\ iterate_const_at (VIter s) gc)
      /\ ((exists pt ps,
              cells σ' !! t = Some (Cell (FlattenStart (VIter c)) pt)
              /\ cells σ' !! s = Some (Cell (Native (skipn k rest)) ps))
          \/ in_lap σ' t c s (skipn k rest)).
Proof.
  induction k as [|k IH]; intros rest σ Hc Hrest Hk Hstate.
  { exists σ. rewrite skipn_O. by split. }
  destruct rest as [|y ys]; [simpl in Hk; lia|].
  destruct Hc as (gc & pc & Hc & Hgc).
  rewrite nexts_S. cbn [call_next]. rewrite firstn_cons, skipn_cons.
  assert (exists σ1,
             pull (S (S (S (S (S (S (S fuel))))))) t σ = Ok (Some y, σ1)
             /\ in_lap σ1 t c s ys
             /\ exists gc' pc',
                 cells σ1 !! c = Some (Cell gc' pc')
                 /\ iterate_const_at (VIter s) gc') as (σ1 & Hpull & Hin & Hc1).
  { destruct Hstate as [(pt & ps & Ht & Hs) | Hin].
    - rewrite (pull_flatten_start _ _ _ _ _ Ht).
      destruct (flatten_lap t c (VIter s) (y :: ys) fuel
                  (put t (Cell (FlattenLoop c) (S pt)) σ) (S pt) gc pc)
        as (σ1 & N & Hrun & Hin & HN & Hc1);
        [done|lookup|lookup|done| |done|done|].
      { right. exists s, ps. split; [done|]. split; [lookup|done]. }
      exists σ1. rewrite (HN s eq_refl) in Hin. by split.
    - destruct (pull_in_lap t c s (S (S (S fuel))) σ y ys _ Hct Hin Hrest Hc)
        as (σ1 & Hpull & Hin1 & Hc1).
      exists σ1. split; [done|]. split; [done|]. by eexists _, _. }
  rewrite (bind_ok _ _ _ _ _ Hpull).
  destruct (IH ys σ1 Hc1) as (σ' & Hnexts & Hc' & Hstate').
  - by apply Forall_cons_1 in Hrest as [_ ?].
  - simpl in Hk. lia.
  - by right.
  - rewrite (bind_ok _ _ _ _ _ Hnexts). exists σ'. by split.
Qed.

(** Once the iterator is used up, every further repetition is empty. *)
Lemma cycle_iterator_stalls (σ : store) (fuel' : nat) :
  (exists gc pc,
      cells σ !! c = Some (Cell gc pc) /\ iterate_const_at (VIter s) gc) ->
  (exists pt ps,
      cells σ !! t = Some (Cell (FlattenStart (VIter c)) pt)
      /\ cells σ !! s = Some (Cell (Native []) ps))
  \/ in_lap σ t c s [] ->
  pull fuel' t σ = OutOfFuel.
Proof.
  intros (gc & pc & Hc & Hgc) [(pt & ps & Ht & Hs) | Hin].
  - destruct fuel' as [|fuel']; [done|].
    rewrite (pull_flatten_start _ _ _ _ _ Ht).
    eapply (flatten_spins t c (VIter s)); [done|lookup|lookup|done|].
    right. exists s, ps. split; [done|]. split; [lookup|done].
  - destruct (pull_lap_end t c s fuel' σ _ Hct Hin Hc)
      as (σ0 & pt0 & pn0 & Ht0 & Hc0 & Hs0 & [-> | ->] & _); [done|].
    eapply (flatten_spins t c (VIter s)); [done|done|done|done|].
    right. by exists s, pn0.
Qed.
End CycleIterator.

(** X21. [cycle] of a built-in iterator whose remaining items are neither
    arrays nor iterators, [undefined] or [null] does not repeat it: the
    items the iterator still has come once, and the [next()] after them
    never answers, since every further repetition starts from the same,
    used up, iterator. *)
Theorem cycle_of_an_iterator_yields_once_then_never_answers :
  forall (s : ref) (xs : list value) (σ : store) (ps fuel : nat),
    cells σ !! s = Some (Cell (Native xs) ps) ->
    forallb leaf xs = true ->
    result_of (bind (cycle (VIter s)) (nexts (7 + fuel) (length xs)) σ)
    = Ok (Some <$> xs)
    /\ forall fuel',
        bind (cycle (VIter s))
          (fun g =>
             bind (nexts (7 + fuel) (length xs) g)
               (fun _ => call_next fuel' g)) σ
        = OutOfFuel.
Proof.
  intros s xs σ ps fuel Hs Hleaf.
  assert (Forall (fun y => leaf y = true) xs) as Hleaf'.
  { apply Forall_forall. intros y Hy%list_elem_of_In.
    by apply (proj1 (forallb_forall _ _) Hleaf). }
  destruct (cycle_ok (VIter s) σ)
    as (c & t & σ' & Hcycle & Hct & Hc & Ht & Hold).
  destruct (Hold s _ Hs) as (Hs' & Hsc & Hst).
  destruct (nexts_first_lap t c s fuel Hct Hst Hsc (length xs) xs σ')
    as (σ'' & Hnexts & Hc'' & Hstate).
  - eexists _, _. split; [done|by left].
  - done.
  - done.
  - left. by eexists _, _.
  - rewrite firstn_all in Hnexts. rewrite skipn_all in Hstate. split.
    + rewrite (bind_ok _ _ _ _ _ Hcycle). cbn [Nat.add]. by rewrite Hnexts.
    + intros fuel'. rewrite (bind_ok _ _ _ _ _ Hcycle). cbn [Nat.add].
      rewrite (bind_ok _ _ _ _ _ Hnexts). cbn [call_next].
      by apply (cycle_iterator_stalls t c s Hct).
Qed.

Lemma cycle_of_an_iterator_yields_once_then_never_answers_witness :
  result_of
    (bind (cycle (VIter 0)) (nexts (7 + 0) (length [VNum 1; VNum 2]))
       (Store [Cell (Native [VNum 1; VNum 2]) 0] []))
  = Ok (Some <$> [VNum 1; VNum 2])
  /\ forall fuel',
      bind (cycle (VIter 0))
        (fun g =>
           bind (nexts (7 + 0) (length [VNum 1; VNum 2]) g)
             (fun _ => call_next fuel' g))
        (Store [Cell (Native [VNum 1; VNum 2]) 0] [])
      = OutOfFuel.
Proof.
  apply (cycle_of_an_iterator_yields_once_then_never_answers 0
           [VNum 1; VNum 2] (Store [Cell (Native [VNum 1; VNum 2]) 0] []) 0 0);
    reflexivity.
Defined.

(** ** sort and sortBy *)

Lemma ascending_tail cmp x l : ascending cmp (x :: l) -> ascending cmp l.
Proof. destruct l as [|y l]; [done|]. by intros [_ ?]. Qed.

Section Sorting.
Context (compareFn : value -> value -> res Z) (cmp : value -> value -> Z).
Hypothesis Htotal : forall a b, (cmp a b <= 0)%Z \/ (cmp b a <= 0)%Z.

Lemma sort_insert_ok (x : value) (l : list value) :
  (forall b, b ∈ l -> compareFn x b = Ok (cmp x b)) ->
  exists r,
    sort_insert compareFn x l = Ok r
    /\ r ≡ₚ x :: l
    /\ (ascending cmp l -> ascending cmp r)
    /\ (head r = Some x \/ head r = head l).
Proof.
  induction l as [|y l IH]; intros Hcmp.
  - exists [x]. by repeat split; try left.
  - cbn [sort_insert]. rewrite (Hcmp y) by apply list_elem_of_here.
    destruct (Z.leb_spec (cmp x y) 0) as [Hle|Hgt].
    + exists (x :: y :: l). repeat split; try done. by left.
    + destruct IH as (r & -> & Hperm & Hasc & Hhead).
      { intros b Hb. apply Hcmp. by apply list_elem_of_further. }
      exists (y :: r). split; [done|]. split; [|split; [|by right]].
      * rewrite Hperm. apply perm_swap.
      * intros Hl. specialize (Hasc (ascending_tail _ _ _ Hl)).
        destruct r as [|z r]; [done|]. split; [|done].
        destruct Hhead as [[= ->] | Hhead].
        -- destruct (Htotal y x); [done|lia].
        -- destruct l as [|z' l]; [done|]. injection Hhead as ->.
           by destruct Hl.
Qed.

Lemma sort_defined_ok (l : list value) :
  (forall a b, a ∈ l -> b ∈ l -> compareFn a b = Ok (cmp a b)) ->
  exists r,
    sort_defined compareFn l = Ok r /\ r ≡ₚ l /\ ascending cmp r.
Proof.
  induction l as [|x l IH]; intros Hcmp; [by exists []|].
  destruct IH as (r & Hr & Hperm & Hasc).
  { intros a b Ha Hb. apply Hcmp; by apply list_elem_of_further. }
  cbn [sort_defined]. rewrite Hr.
  destruct (sort_insert_ok x r) as (r' & Hr' & Hperm' & Hasc' & _).
  { intros b Hb. apply Hcmp; [apply list_elem_of_here|].
    apply list_elem_of_further. by rewrite <- Hperm. }
  exists r'. split; [done|]. split; [|by apply Hasc'].
  by rewrite Hperm', Hperm.
Qed.

Lemma array_sort_ok (arr : list value) :
  forallb (fun v => negb (is_undefined v)) arr = true ->
  (forall a b, a ∈ arr -> b ∈ arr -> compareFn a b = Ok (cmp a b)) ->
  exists r,
    array_sort compareFn arr = Ok r /\ r ≡ₚ arr /\ ascending cmp r.
Proof.
  intros Hdef Hcmp. unfold array_sort.
  assert (List.filter (fun v => negb (is_undefined v)) arr = arr) as ->.
  { induction arr as [|x arr IH]; [done|]. cbn [forallb List.filter] in *.
    apply andb_prop in Hdef as [-> Hdef]. f_equal. apply IH; [done|].
    intros a b Ha Hb. apply Hcmp; by apply list_elem_of_further. }
  assert (List.filter is_undefined arr = []) as ->.
  { clear Hcmp. induction arr as [|x arr IH]; [done|].
    cbn [forallb List.filter] in *. apply andb_prop in Hdef as [Hx Hdef].
    destruct (is_undefined x); [done|]. by apply IH. }
  destruct (sort_defined_ok arr Hcmp) as (r & -> & Hperm & Hasc).
  exists r. by rewrite app_nil_r.
Qed.
End Sorting.

Lemma number_order_total a b :
  (number_order a b <= 0)%Z \/ (number_order b a <= 0)%Z.
Proof. destruct a, b; cbn; lia. Qed.

Lemma forallb_elem_of {A} (f : A -> bool) (l : list A) (x : A) :
  forallb f l = true -> x ∈ l -> f x = true.
Proof.
  intros Hall Hx%list_elem_of_In. by apply (proj1 (forallb_forall f l) Hall).
Qed.

(** X22. [sort(numCompare)] and [sortBy(key)] with its default comparator
    drain the source when the operator is applied and return a new
    built-in iterator over the same items rearranged in ascending order, of
    the numbers themselves for [sort], and of their numeric keys for
    [sortBy]. *)
Theorem sort_and_sortBy_arrange_in_ascending_order :
  forall (getSortPropertyFn : value -> value) (src : value)
         (xs : list value) (σ σ1 : store) (s : ref) (p fuel : nat),
    iter src σ = Ok (s, σ1) ->
    cells σ1 !! s = Some (Cell (Native xs) p) ->
    length xs + 2 <= fuel ->
    (forallb is_number xs = true ->
     exists ys r σ',
       sort fuel numCompare src σ = Ok (VIter r, σ')
       /\ cells σ' !! r = Some (Cell (Native ys) 0)
       /\ ys ≡ₚ xs
       /\ ascending number_order ys
       /\ cells σ' !! s = Some (Cell (Native []) (p + S (length xs))))
    /\ (forallb (fun v => negb (is_undefined v)) xs = true ->
        forallb (fun v => is_number (getSortPropertyFn v)) xs = true ->
        exists ys r σ',
          sortBy fuel getSortPropertyFn defaultCompare src σ = Ok (VIter r, σ')
          /\ cells σ' !! r = Some (Cell (Native ys) 0)
          /\ ys ≡ₚ xs
          /\ ascending
               (fun a b =>
                  number_order (getSortPropertyFn a) (getSortPropertyFn b)) ys
          /\ cells σ' !! s = Some (Cell (Native []) (p + S (length xs)))).
Proof.
  intros key src xs σ σ1 s p fuel Hiter Hs Hfuel. split.
  - intros Hnum.
    destruct (array_sort_ok numCompare number_order number_order_total xs)
      as (ys & Hsort & Hperm & Hasc).
    { apply forallb_forall. intros x Hx%list_elem_of_In.
      by destruct x; pose proof (forallb_elem_of _ _ _ Hnum Hx). }
    { intros a b Ha Hb.
      pose proof (forallb_elem_of _ _ _ Hnum Ha).
      pose proof (forallb_elem_of _ _ _ Hnum Hb). by destruct a, b. }
    unfold sort. rewrite (bind_ok _ _ _ _ _ Hiter).
    rewrite (bind_ok _ _ _ _ _ (drain_native s xs σ1 p fuel Hs Hfuel)).
    unfold bind at 1, lift. rewrite Hsort.
    eexists ys, _, _. split; [reflexivity|]. split; [apply cells_alloc_new|].
    split; [done|]. split; [done|]. lookup.
  - intros Hdef Hnum.
    destruct (array_sort_ok (fun a b => defaultCompare (key a) (key b))
                (fun a b => number_order (key a) (key b))
                (fun a b => number_order_total (key a) (key b)) xs Hdef)
      as (ys & Hsort & Hperm & Hasc).
    { intros a b Ha Hb.
      pose proof (forallb_elem_of _ _ _ Hnum Ha).
      pose proof (forallb_elem_of _ _ _ Hnum Hb). cbv beta in *.
      by destruct (key a), (key b). }
    unfold sortBy. rewrite (bind_ok _ _ _ _ _ Hiter).
    rewrite (bind_ok _ _ _ _ _ (drain_native s xs σ1 p fuel Hs Hfuel)).
    unfold bind at 1, lift. rewrite Hsort.
    eexists ys, _, _. split; [reflexivity|]. split; [apply cells_alloc_new|].
    split; [done|]. split; [done|]. lookup.
Qed.

Lemma sort_and_sortBy_arrange_in_ascending_order_witness :
  (exists ys r σ',
      sort 5 numCompare (numbers [3; 1; 2]%Z) empty_store = Ok (VIter r, σ')
      /\ cells σ' !! r = Some (Cell (Native ys) 0)
      /\ ys ≡ₚ [VNum 3; VNum 1; VNum 2]
      /\ ascending number_order ys
      /\ cells σ' !! 0 = Some (Cell (Native []) 4))
  /\ (exists ys r σ',
         sortBy 5 (fun v => v) defaultCompare (numbers [3; 1; 2]%Z) empty_store
         = Ok (VIter r, σ')
         /\ cells σ' !! r = Some (Cell (Native ys) 0)
         /\ ys ≡ₚ [VNum 3; VNum 1; VNum 2]
         /\ ascending (fun a b => number_order a b) ys
         /\ cells σ' !! 0 = Some (Cell (Native []) 4)).
Proof.
  destruct (sort_and_sortBy_arrange_in_ascending_order (fun v => v)
              (numbers [3; 1; 2]%Z) [VNum 3; VNum 1; VNum 2] empty_store
              (Store [Cell (Native [VNum 3; VNum 1; VNum 2]) 0] []) 0 0 5)
    as [Hsort HsortBy]; [reflexivity | reflexivity | simpl; lia |].
  split; [apply Hsort | apply HsortBy]; reflexivity.
Defined.

(** ** Pipes over an endless source *)

(** X23. Over the endless source [iterate(f, i)], a pipe of lazy
    operators that ends in [take(n)] is materialized by [intoArray] in
    finitely many steps, as soon as some finite number [k] of source items
    is enough for the operators to produce [n] items: the result is the
    first [n] items of what the operators make of those [k]. *)
Theorem pipe_over_an_endless_source_ends_with_take :
  forall (ops : list lazy_op) (itrFn : value -> value) (i : value)
         (n : Z) (k : nat) (σ : store),
    Z.to_nat n <= length (denote_all ops (iterates itrFn i k)) ->
    exists fuel0, forall fuel,
      fuel0 <= fuel ->
      result_of
        (bind (iterate itrFn i)
           (fun src =>
              pipe src
                ((operator_of <$> ops) ++ [take n; intoArray fuel])) σ)
      = Ok (VArr (firstn (Z.to_nat n) (denote_all ops (iterates itrFn i k)))).
Proof.
  intros ops itrFn i n k σ Hk. unfold iterate.
  set (A := cells σ ++ [Cell (IterateStart itrFn i) 0]).
  assert (feeds (length (cells σ)) (iterates itrFn i k) false A) as Hsrc.
  { eapply iterate_feeds; [apply list_lookup_middle; done|by left]. }
  destruct (chain_feeds false ops _ _ A (trace σ) Hsrc)
    as (r & gens & Hnest & Hfeeds).
  pose proof (take_feeds n r (length (A ++ gens)) false true _ 0 (A ++ gens) 0
                (TakeStart n (VIter r)) eq_refl Hfeeds
                ltac:(by left)) as Htake.
  rewrite Z.sub_0_r in Htake. specialize (Htake (fun _ _ => Hk)).
  destruct (intoArray_feeds _ _ _ Htake) as (f0 & Hinto).
  exists f0. intros fuel Hfuel.
  rewrite (bind_ok _ _ _ _ _ (generator_ok _ σ)). unfold pipe.
  rewrite (bind_ok _ _ _ _ _ (iter_of_iterator _ _)).
  rewrite pipe_f_nested, rev_involutive, nested_application_app.
  - fold A. rewrite (bind_ok _ _ _ _ _ Hnest). cbn [nested_application].
    unfold take at 1. rewrite (bind_ok _ _ _ _ _ (generator_ok _ _)).
    cbn [cells trace]. rewrite bind_ret_r. by apply Hinto.
  - rewrite rev_app_distr. discriminate.
Qed.

Lemma pipe_over_an_endless_source_ends_with_take_witness :
  exists fuel0, forall fuel,
    fuel0 <= fuel ->
    result_of
      (bind (iterate plus_one (VNum 1))
         (fun src =>
            pipe src
              ((operator_of <$> [OpFilter is_even]) ++ [take 2; intoArray fuel]))
         empty_store)
    = Ok (VArr (firstn (Z.to_nat 2)
                  (denote_all [OpFilter is_even] (iterates plus_one (VNum 1) 4)))).
Proof.
  apply (pipe_over_an_endless_source_ends_with_take [OpFilter is_even]
           plus_one (VNum 1) 2 4 empty_store).
  vm_compute. lia.
Defined.

(** ** flatten of nested arrays *)

Lemma leaves_array (xs : list value) : leaves (VArr xs) = flat_map leaves xs.
Proof.
  induction xs as [|x xs IH]; [done|].
  cbn [flat_map]. rewrite <- IH. reflexivity.
Qed.

Lemma tree_array (xs : list value) : tree (VArr xs) = forallb tree xs.
Proof.
  induction xs as [|x xs IH]; [done|].
  cbn [forallb]. rewrite <- IH. reflexivity.
Qed.

Lemma weight_array_cons (x : value) (xs : list value) :
  weight (VArr (x :: xs)) = weight x + weight (VArr xs).
Proof. cbn. lia. Qed.

Lemma weight_pos (v : value) : 1 <= weight v.
Proof. destruct v; cbn; lia. Qed.

Lemma tree_cases (it : value) :
  tree it = true ->
  (exists ys, it = VArr ys /\ forallb tree ys = true)
  \/ (leaf it = true /\ leaves it = [it]).
Proof.
  intros Hit. destruct it as [| |b|n|s|xs|props|es|r];
    try (right; split; [exact Hit|reflexivity]).
  left. exists xs. split; [done|]. by rewrite <- tree_array.
Qed.

Section Upper.
Context (base : nat) (B U : list cell) (tr : list value).
Hypothesis HB : length B = base.

Lemma lookup_up (o : nat) (c : cell) :
  U !! o = Some c -> cells (Store (B ++ U) tr) !! (base + o) = Some c.
Proof.
  intros Ho. cbn [cells]. rewrite lookup_app_r by lia.
  by replace (base + o - length B) with o by lia.
Qed.

Lemma put_up (o : nat) (c : cell) :
  put (base + o) c (Store (B ++ U) tr) = Store (B ++ <[o:=c]> U) tr.
Proof.
  unfold put. cbn [cells trace]. f_equal.
  rewrite insert_app_r_alt by lia.
  by replace (base + o - length B) with o by lia.
Qed.

Lemma alloc_up (g : gen) :
  alloc g (Store (B ++ U) tr)
  = Ok (base + length U, Store (B ++ (U ++ [Cell g 0])) tr).
Proof.
  unfold alloc. cbn [cells trace]. by rewrite length_app, HB, app_assoc.
Qed.

(** A [next()] is a resumption after the call was counted. *)
Lemma pull_up (fuel og : nat) (st : gen) (pg : nat) :
  U !! og = Some (Cell st pg) ->
  pull fuel (base + og) (Store (B ++ U) tr)
  = run fuel (base + og) (Store (B ++ <[og:=Cell st (S pg)]> U) tr).
Proof.
  intros Hg. unfold pull, next.
  by rewrite (bump_put _ _ _ (lookup_up _ _ Hg)), put_up.
Qed.
End Upper.

Lemma gives_from_run (base og : nat) (a : step) (U U1 : list cell)
    (st : gen) (pg : nat) :
  U !! og = Some (Cell st pg) ->
  runs_to (base + og) base a (<[og:=Cell st (S pg)]> U) U1 ->
  gives (base + og) base a U U1.
Proof.
  intros Hg [f0 Hrun]. exists f0. intros fuel B tr Hfuel HB.
  rewrite (pull_up base B U tr HB fuel og st pg Hg). by apply Hrun.
Qed.

Lemma fed_from_run (base og : nat) (xs : list value) (U : list cell)
    (st : gen) (pg : nat) :
  U !! og = Some (Cell st pg) ->
  fed_by (runs_to (base + og) base) (gives (base + og) base) xs
    (<[og:=Cell st (S pg)]> U) ->
  fed_by (gives (base + og) base) (gives (base + og) base) xs U.
Proof.
  intros Hg Hfed. destruct xs as [|x xs]; cbn [fed_by] in *.
  - destruct Hfed as [U1 Hrun]. exists U1. by eapply gives_from_run.
  - destruct Hfed as (U1 & Hrun & Hrest). exists U1.
    split; [by eapply gives_from_run|done].
Qed.

(** A resumption that first comes to the resumption of another state. *)
Lemma runs_via (g : ref) (base : nat) (a : step) (U U' U1 : list cell)
    (f1 c : nat) :
  (forall fuel B tr,
      f1 <= fuel -> length B = base ->
      run fuel g (Store (B ++ U) tr) = run (fuel - c) g (Store (B ++ U') tr)) ->
  runs_to g base a U' U1 ->
  runs_to g base a U U1.
Proof.
  intros Hvia [f0 Hrun]. exists (f1 + f0 + c). intros fuel B tr Hfuel HB.
  rewrite Hvia by (done || lia). apply Hrun; [lia|done].
Qed.

Lemma fed_via (g : ref) (base : nat) later (xs : list value)
    (U U' : list cell) (f1 c : nat) :
  (forall fuel B tr,
      f1 <= fuel -> length B = base ->
      run fuel g (Store (B ++ U) tr) = run (fuel - c) g (Store (B ++ U') tr)) ->
  fed_by (runs_to g base) later xs U' ->
  fed_by (runs_to g base) later xs U.
Proof.
  intros Hvia Hfed. destruct xs as [|x xs]; cbn [fed_by] in *.
  - destruct Hfed as [U1 Hrun]. exists U1. by eapply runs_via.
  - destruct Hfed as (U1 & Hrun & Hrest). exists U1.
    split; [by eapply runs_via|done].
Qed.

Lemma iter_array_up (base : nat) (B U : list cell) (tr : list value)
    (xs : list value) :
  length B = base ->
  iter (VArr xs) (Store (B ++ U) tr)
  = Ok (base + length U, Store (B ++ (U ++ [Cell (Native xs) 0])) tr).
Proof.
  intros HB. rewrite iter_array_ok. cbn [cells trace].
  by rewrite length_app, HB, app_assoc.
Qed.

(** Reads a cell of a list through insertions and appended cells. *)
Ltac lookup_list :=
  repeat first
    [ eassumption
    | rewrite list_lookup_insert_ne by (congruence || lia)
    | apply list_lookup_insert_eq;
      rewrite ?length_insert, ?length_app;
      match goal with
      | H : _ !! ?i = Some _ |- ?i < _ => apply lookup_lt_Some in H; lia
      end
    | apply lookup_app_l_Some ].

Section FlattenSteps.
Context (base og on : nat) (N : ref) (U : list cell) (pg pn : nat)
  (its : list value).
Hypothesis HNeq : N = base + on.
Hypothesis Hne : og <> on.
Hypothesis HN : U !! on = Some (Cell (Native its) pn).

Lemma flatten_start_iter_run (fuel : nat) (B : list cell) (tr : list value) :
  U !! og = Some (Cell (FlattenStart (VIter N)) pg) ->
  1 <= fuel -> length B = base ->
  run fuel (base + og) (Store (B ++ U) tr)
  = run (fuel - 1) (base + og)
      (Store (B ++ <[og:=Cell (FlattenLoop N) pg]> U) tr).
Proof.
  intros Hg Hfuel HB. destruct fuel as [|fuel]; [lia|].
  rewrite (run_unfold _ _ _ _ (lookup_up base B U tr HB _ _ Hg)).
  cbn [frame resume_frame get_iterator Nat.sub]. unfold bind, ret, goto.
  rewrite (set_frame_put _ _ _ (lookup_up base B U tr HB _ _ Hg)).
  by rewrite put_up, Nat.sub_0_r.
Qed.

Hypothesis Hg : U !! og = Some (Cell (FlattenLoop N) pg).

Lemma flatten_loop_run (fuel : nat) (B : list cell) (tr : list value) :
  length B = base ->
  run (S (S fuel)) (base + og) (Store (B ++ U) tr)
  = match its with
    | [] => finish (base + og)
    | it :: rest =>
      bind (lift (isArrayOrIter it))
        (fun nested =>
           if nested : bool then
             bind (iter it)
               (fun sub =>
                  bind (alloc (FlattenStart (VIter sub)))
                    (fun inner =>
                       goto (run (S fuel)) (base + og) (FlattenDeleg N inner)))
           else yield (base + og) it (FlattenLoop N))
    end (Store (B ++ <[on:=Cell (Native (tail its)) (S pn)]> U) tr).
Proof.
  intros HB.
  rewrite (run_unfold _ _ _ _ (lookup_up base B U tr HB _ _ Hg)).
  cbn [frame resume_frame].
  change (next (run (S fuel)) N) with (pull (S fuel) N). subst N.
  rewrite (bind_ok _ _ _ _ _
             (pull_native _ _ _ _ _ (lookup_up base B U tr HB _ _ HN))).
  rewrite put_up by done. by destruct its.
Qed.
End FlattenSteps.

(** [flatten] delegating to the generator of a nested item that feeds
    [zs]; [out] is what the rest of the items give. *)
Lemma flatten_deleg_fed (base og : nat) (N inner : ref) :
  forall (zs : list value) (P U_in : list cell) (pg : nat) (out : list value),
    P !! og = Some (Cell (FlattenDeleg N inner) pg) ->
    fed_by (gives inner (base + length P)) (gives inner (base + length P))
      zs U_in ->
    (forall pg' U_in1,
        fed_by (runs_to (base + og) base) (gives (base + og) base) out
          (<[og:=Cell (FlattenLoop N) pg']> P ++ U_in1)) ->
    fed_by (runs_to (base + og) base) (gives (base + og) base) (zs ++ out)
      (P ++ U_in).
Proof.
  induction zs as [|z zs IH]; intros P U_in pg out Hg Hin Hcont;
    cbn [fed_by] in Hin.
  - destruct Hin as [U_in1 [f0 Hpull]]. cbn [app].
    eapply (fed_via _ _ _ _ _ _ (S f0) 1); [|apply (Hcont pg U_in1)].
    intros fuel B tr Hfuel HB. destruct fuel as [|fuel]; [lia|].
    assert ((P ++ U_in) !! og = Some (Cell (FlattenDeleg N inner) pg)) as Hg'
        by lookup_list.
    rewrite (run_unfold _ _ _ _ (lookup_up base B _ tr HB _ _ Hg')).
    cbn [frame resume_frame Nat.sub].
    change (next (run fuel) inner) with (pull fuel inner).
    rewrite (app_assoc B P U_in).
    rewrite (bind_ok _ _ _ _ _
               (Hpull fuel (B ++ P) tr ltac:(lia)
                  ltac:(rewrite length_app; lia))).
    rewrite <- app_assoc. unfold goto.
    assert ((P ++ U_in1) !! og = Some (Cell (FlattenDeleg N inner) pg)) as Hg1
        by lookup_list.
    rewrite (set_frame_put _ _ _ (lookup_up base B _ tr HB _ _ Hg1)).
    rewrite put_up by done. cbn [pulls].
    rewrite insert_app_l by (by eapply lookup_lt_Some).
    by rewrite Nat.sub_0_r.
  - destruct Hin as (U_in1 & [f0 Hpull] & Hrest). cbn [app fed_by].
    assert ((P ++ U_in1) !! og = Some (Cell (FlattenDeleg N inner) pg)) as Hg1
        by lookup_list.
    exists (P ++ U_in1). split.
    + exists (S f0). intros fuel B tr Hfuel HB.
      destruct fuel as [|fuel]; [lia|].
      assert ((P ++ U_in) !! og = Some (Cell (FlattenDeleg N inner) pg)) as Hg'
          by lookup_list.
      rewrite (run_unfold _ _ _ _ (lookup_up base B _ tr HB _ _ Hg')).
      cbn [frame resume_frame].
      change (next (run fuel) inner) with (pull fuel inner).
      rewrite (app_assoc B P U_in).
      rewrite (bind_ok _ _ _ _ _
                 (Hpull fuel (B ++ P) tr ltac:(lia)
                    ltac:(rewrite length_app; lia))).
      rewrite <- app_assoc. unfold yield.
      rewrite (set_frame_put _ _ _ (lookup_up base B _ tr HB _ _ Hg1)).
      rewrite put_up by done. cbn [pulls].
      by rewrite list_insert_id.
    + eapply (fed_from_run base og _ _ _ pg Hg1).
      rewrite insert_app_l by (by eapply lookup_lt_Some).
      apply (IH _ _ (S pg)).
      * lookup_list.
      * by rewrite length_insert.
      * intros pg' U'. rewrite list_insert_insert_eq. apply Hcont.
Qed.

(** The loop of [flatten] over the items [its] of a built-in iterator
    feeds their leaves, in order. *)
Lemma flatten_loop_fed (n : nat) :
  forall (its : list value),
    weight (VArr its) <= n ->
    forallb tree its = true ->
    forall (base og on : nat) (N : ref) (U : list cell) (pn pg : nat),
      N = base + on ->
      og <> on ->
      U !! og = Some (Cell (FlattenLoop N) pg) ->
      U !! on = Some (Cell (Native its) pn) ->
      fed_by (runs_to (base + og) base) (gives (base + og) base)
        (flat_map leaves its) U.
Proof.
  induction n as [|n IH];
    intros its Hw Htree base og on N U pn pg HNeq Hne Hg HN.
  { pose proof (weight_pos (VArr its)). lia. }
  destruct its as [|it rest].
  - cbn [flat_map fed_by]. eexists. exists 2.
    intros fuel B tr Hfuel HB. destruct fuel as [|[|fuel]]; [lia..|].
    rewrite (flatten_loop_run base og on N U pg pn [] HNeq HN Hg fuel B tr HB).
    cbn [tail]. unfold finish.
    erewrite set_frame_put by (apply lookup_up; [done|lookup_list]).
    by rewrite put_up.
  - cbn [forallb] in Htree. apply andb_prop in Htree as [Hit Hrest].
    rewrite weight_array_cons in Hw.
    pose proof (weight_pos it) as Hwit.
    pose proof (weight_pos (VArr rest)) as Hwrest.
    assert (forall U' pn' pg',
               U' !! og = Some (Cell (FlattenLoop N) pg') ->
               U' !! on = Some (Cell (Native rest) pn') ->
               fed_by (runs_to (base + og) base) (gives (base + og) base)
                 (flat_map leaves rest) U') as IHrest.
    { intros U' pn' pg' Hg' HN'.
      by apply (IH rest ltac:(lia) Hrest base og on N U' pn' pg'). }
    cbn [flat_map].
    destruct (tree_cases it Hit) as [(ys & -> & Hys) | [Hleaf Hl]].
    + rewrite leaves_array.
      set (inner := base + length U + 1).
      set (P := <[og:=Cell (FlattenDeleg N inner) pg]>
                  (<[on:=Cell (Native rest) (S pn)]> U)).
      eapply (fed_via _ _ _ _ _
                (P ++ [Cell (Native ys) 0;
                       Cell (FlattenStart (VIter (base + length U))) 0]) 2 1).
      { intros fuel B tr Hfuel HB. destruct fuel as [|[|fuel]]; [lia..|].
        rewrite (flatten_loop_run base og on N U pg pn (VArr ys :: rest)
                   HNeq HN Hg fuel B tr HB).
        cbn [tail]. unfold bind at 1, lift. cbn [isArrayOrIter].
        rewrite (bind_ok _ _ _ _ _ (iter_array_up base B _ tr ys HB)).
        rewrite (bind_ok _ _ _ _ _ (alloc_up base B _ tr HB _)).
        rewrite !length_app, !length_insert. cbn [length Nat.sub].
        replace (base + (length U + 1)) with inner by (subst inner; lia).
        unfold goto.
        erewrite set_frame_put by (apply lookup_up; [done|lookup_list]).
        rewrite put_up by done. cbn [pulls].
        rewrite !insert_app_l
          by (rewrite ?length_app, ?length_insert;
              apply lookup_lt_Some in Hg; lia).
        by rewrite <- app_assoc. }
      apply (flatten_deleg_fed base og N inner _ P _ pg).
      * subst P. lookup_list.
      * assert (length P = length U) as -> by (subst P; by rewrite !length_insert).
        subst inner.
        eapply (fed_from_run (base + length U) 1 _ _ _ 0); [reflexivity|].
        cbn [insert list_insert].
        eapply (fed_via _ _ _ _ _ _ 1 1).
        { intros fuel B tr Hfuel HB.
          by apply (flatten_start_iter_run (base + length U) 1 0
                      (base + length U)
                      [Cell (Native ys) 0;
                       Cell (FlattenStart (VIter (base + length U))) 1]
                      1 ltac:(lia)). }
        cbn [insert list_insert].
        by apply (IH ys ltac:(lia) Hys (base + length U) 1 0
                    (base + length U) _ 0 1 ltac:(lia)).
      * intros pg' U_in1. apply (IHrest _ (S pn) pg'); subst P; lookup_list.
    + rewrite Hl. cbn [app fed_by].
      exists (<[og:=Cell (FlattenLoop N) pg]>
                (<[on:=Cell (Native rest) (S pn)]> U)).
      split.
      * exists 2. intros fuel B tr Hfuel HB.
        destruct fuel as [|[|fuel]]; [lia..|].
        rewrite (flatten_loop_run base og on N U pg pn (it :: rest)
                   HNeq HN Hg fuel B tr HB).
        cbn [tail]. unfold bind, lift. rewrite (leaf_not_nested it Hleaf).
        unfold yield.
        erewrite set_frame_put by (apply lookup_up; [done|lookup_list]).
        by rewrite put_up.
      * eapply (fed_from_run base og _ _ (FlattenLoop N) pg); [lookup_list|].
        apply (IHrest _ (S pn) (S pg)); lookup_list.
Qed.

Lemma drain_fed (g : ref) (base : nat) (xs : list value) :
  forall (U : list cell),
    fed_by (gives g base) (gives g base) xs U ->
    exists f0, forall fuel B tr,
      f0 <= fuel -> length B = base ->
      exists σ', drain fuel g (Store (B ++ U) tr) = Ok (xs, σ').
Proof.
  induction xs as [|x xs IH]; intros U Hfed; cbn [fed_by] in Hfed.
  - destruct Hfed as (U1 & f0 & Hpull).
    exists (S f0). intros fuel B tr Hfuel HB. destruct fuel; [lia|].
    rewrite drain_S, (bind_ok _ _ _ _ _ (Hpull fuel B tr ltac:(lia) HB)).
    by eexists.
  - destruct Hfed as (U1 & [f0 Hpull] & Hrest).
    destruct (IH U1 Hrest) as (f1 & Hdrain).
    exists (S (Nat.max f0 f1)). intros fuel B tr Hfuel HB.
    destruct fuel; [lia|].
    rewrite drain_S, (bind_ok _ _ _ _ _ (Hpull fuel B tr ltac:(lia) HB)).
    destruct (Hdrain fuel B tr ltac:(lia) HB) as (σ' & Hσ').
    rewrite (bind_ok _ _ _ _ _ Hσ'). by eexists.
Qed.

(** X24. [flatten] of an array nested to any depth yields its leaves from
    left to right, the leaves being the items that are neither arrays nor
    iterators, [undefined] or [null]; empty arrays inside give nothing. *)
Theorem flatten_yields_the_leaves_in_order :
  forall (xs : list value) (σ : store),
    forallb tree xs = true ->
    exists fuel0, forall fuel,
      fuel0 <= fuel ->
      result_of (bind (flatten (VArr xs)) (intoArray fuel) σ)
      = Ok (VArr (flat_map leaves xs)).
Proof.
  intros xs [B tr] Htree. unfold flatten.
  assert (fed_by (gives (length B + 0) (length B))
            (gives (length B + 0) (length B)) (flat_map leaves xs)
            [Cell (FlattenStart (VArr xs)) 0]) as Hfed.
  { eapply (fed_from_run (length B) 0 _ _ _ 0); [reflexivity|].
    cbn [insert list_insert].
    eapply (fed_via _ _ _ _ _
              [Cell (FlattenLoop (length B + 1)) 1; Cell (Native xs) 0] 1 1).
    - intros fuel B' tr' Hfuel HB. destruct fuel as [|fuel]; [lia|].
      erewrite run_unfold by (by apply lookup_up).
      cbn [frame resume_frame get_iterator native_items Nat.sub].
      rewrite (bind_ok _ _ _ _ _ (alloc_up (length B) B' _ tr' HB _)).
      unfold goto.
      erewrite set_frame_put by (by apply lookup_up).
      rewrite put_up by done. by rewrite Nat.sub_0_r.
    - by apply (flatten_loop_fed (weight (VArr xs)) xs ltac:(lia) Htree
                  (length B) 0 1 (length B + 1) _ 0 1). }
  destruct (drain_fed _ _ _ _ Hfed) as (f0 & Hdrain).
  exists f0. intros fuel Hfuel.
  rewrite (bind_ok _ _ _ _ _ (generator_ok _ _)). cbn [cells trace].
  unfold intoArray. rewrite (bind_ok _ _ _ _ _ (iter_of_iterator _ _)).
  destruct (Hdrain fuel B tr Hfuel eq_refl) as (σ' & Hσ').
  rewrite Nat.add_0_r in Hσ'. by rewrite (bind_ok _ _ _ _ _ Hσ').
Qed.

Lemma flatten_yields_the_leaves_in_order_witness :
  exists fuel0, forall fuel,
    fuel0 <= fuel ->
    result_of
      (bind (flatten (VArr [VNum 1; VArr [VNum 2; VArr [VNum 3]; VArr []];
                            VNum 4]))
         (intoArray fuel) empty_store)
    = Ok (VArr (flat_map leaves
                  [VNum 1; VArr [VNum 2; VArr [VNum 3]; VArr []]; VNum 4])).
Proof.
  apply (flatten_yields_the_leaves_in_order
           [VNum 1; VArr [VNum 2; VArr [VNum 3]; VArr []]; VNum 4]
           empty_store).
  reflexivity.
Defined.
